(** * TMF API directory: a shallow embedding of [script.js]

    The script is a client-side catalogue browser.  This development embeds
    its decision logic:

    - [Js]: the fragment of JavaScript the script relies on (values parsed
      from JSON, truthiness, [||], optional chaining, [ToString],
      insertion-ordered [Map] and [Set], [Array.prototype.sort], exceptions);
    - [Normaliser]: [normaliseResources], [createSlug], [parseDate],
      [compareStrings];
    - [Loader]: [getApiSources] and [loadPayload];
    - [Browser]: the shared [state] object, the filter handlers,
      [applyFilters], [renderRoute], [renderIndex], [navigateToIndex] and
      [handleRouteChange];
    - [Sample]: one concrete platform (collation, dates, network, page) and
      a few payloads, for the examples.

    The modules [JsFacts], [NormaliserFacts], [LoaderFacts], [SampleFacts]
    and [BrowserFacts] hold the lemmas and the theorems, one per claim
    C1-C10 of the specification; [Examples] runs them on the samples.

    The rest of the script follows the samples: [Html] ([escapeHtml]),
    [Theme] ([toggleTheme], [applySavedTheme]), [Pager] (the page buttons,
    the page slice of [renderIndex], [renderPagination],
    [navigateToDocument]), [Startup] ([populateCategories],
    [populateDomains], [fetchResources]), [App] (the events of the page),
    [Detail] (the summary list of [renderDetail]), with [Shape], [Slug] and
    [Built] for the predicates the statements use.
    Their theorems X1-X26 stand in the modules from [HtmlFacts] on, and
    [MoreExamples] runs them on the samples.

    Modelling conventions.

    - A JavaScript string is a Rocq [string] (a sequence of bytes, read as
      UTF-8).  [trim] and [toLowerCase] act on the ASCII range only.
    - A JavaScript number is an integer [Z]; JSON numbers with a fraction are
      outside the model.
    - Every object and array carries the address [ref] it was allocated at:
      [Map] and [Set] compare objects by address and primitives by content
      (SameValueZero).  An object lists its own properties in the order
      [Object.entries] enumerates them.
    - What the platform decides and the script does not (locale collation,
      [Date] parsing, the HTML parser behind [stripHtml], the network) is a
      [Variable] of the enclosing section. *)

From Stdlib Require Import ZArith String Ascii List Lia.
From Stdlib Require Import Sorting.Sorted.
From stdpp Require Import gmap strings list pretty.

Open Scope Z_scope.

(* ===================================================================== *)
(** * The JavaScript fragment *)
(* ===================================================================== *)

Module Js.

(** ** Values *)

#[warnings="-register-all"]
Inductive value : Type :=
| VUndefined
| VNull
| VBool (b : bool)
| VNum (z : Z)
| VStr (s : string)
| VArr (ref : nat) (elems : list value)
| VObj (ref : nat) (props : list (string * value)).

(** What [Map] and [Set] compare (SameValueZero): a primitive by content, an
    object or an array by its address.  Two values are the same key when
    [keyOf] sends them to the same [mapkey]. *)
Inductive mapkey : Type :=
| KUndefined
| KNull
| KBool (b : bool)
| KNum (z : Z)
| KStr (s : string)
| KRef (ref : nat).

#[global] Instance mapkey_eq_dec : EqDecision mapkey.
Proof. solve_decision. Defined.

Definition keyOf (v : value) : mapkey :=
  match v with
  | VUndefined => KUndefined
  | VNull => KNull
  | VBool b => KBool b
  | VNum z => KNum z
  | VStr s => KStr s
  | VArr r _ => KRef r
  | VObj r _ => KRef r
  end.

(** ** Exceptions *)

Inductive exn : Type :=
| TypeError (msg : string)
| SyntaxError (msg : string)
| URIError (msg : string)
| Error (msg : string).

Inductive result (A : Type) : Type :=
| Ok (a : A)
| Throw (e : exn).

Arguments Ok {A} a.
Arguments Throw {A} e.

Definition bind {A B} (m : result A) (f : A -> result B) : result B :=
  match m with
  | Ok a => f a
  | Throw e => Throw e
  end.

Notation "'let*' x ':=' m 'in' k" := (bind m (fun x => k))
  (at level 10, x name, m at level 100, k at level 200).

(** [xs.forEach(f)] threading an accumulator, stopping at the first throw. *)
Fixpoint foldM {A B} (f : B -> A -> result B) (xs : list A) (b : B)
  : result B :=
  match xs with
  | [] => Ok b
  | x :: r => let* b' := f b x in foldM f r b'
  end.

(** ** Truthiness, [||], property access *)

Definition truthy (v : value) : bool :=
  match v with
  | VUndefined | VNull => false
  | VBool b => b
  | VNum z => negb (z =? 0)
  | VStr s => negb (String.eqb s "")
  | VArr _ _ | VObj _ _ => true
  end.

(** [a || b] on values. *)
Definition or (a b : value) : value := if truthy a then a else b.

Fixpoint assoc (name : string) (props : list (string * value)) : value :=
  match props with
  | [] => VUndefined
  | (k, v) :: r => if String.eqb k name then v else assoc name r
  end.

(** [v?.name] for a property name no prototype defines: the own property of
    an object, [undefined] on anything else ([null] and [undefined]
    included, which is what [?.] adds to [.]). *)
Definition get (v : value) (name : string) : value :=
  match v with
  | VObj _ props => assoc name props
  | _ => VUndefined
  end.

(** [v?.[0]]. *)
Definition get0 (v : value) : value :=
  match v with
  | VArr _ (x :: _) => x
  | VStr (String c _) => VStr (String c "")
  | VObj _ props => assoc "0" props
  | _ => VUndefined
  end.

(** A parameter default ([function f(a = "")]): applies to [undefined]
    only. *)
Definition defaultArg (v d : value) : value :=
  match v with
  | VUndefined => d
  | _ => v
  end.

(** ** Strings *)

Definition isSpace (c : ascii) : bool :=
  let n := nat_of_ascii c in
  ((9 <=? n) && (n <=? 13))%nat || (n =? 32)%nat.

Fixpoint trimStart (s : string) : string :=
  match s with
  | String c r => if isSpace c then trimStart r else s
  | EmptyString => EmptyString
  end.

Definition trim (s : string) : string :=
  String.rev (trimStart (String.rev (trimStart s))).

Definition lowerChar (c : ascii) : ascii :=
  let n := nat_of_ascii c in
  if ((65 <=? n) && (n <=? 90))%nat then ascii_of_nat (n + 32) else c.

Fixpoint toLowerCase (s : string) : string :=
  match s with
  | String c r => String (lowerChar c) (toLowerCase r)
  | EmptyString => EmptyString
  end.

(** [s.split(sep)] for a one-character separator; [cur] is the piece being
    read. *)
Fixpoint splitAux (sep : ascii) (cur : string) (s : string) : list string :=
  match s with
  | EmptyString => [String.rev cur]
  | String c r =>
      if Ascii.eqb c sep then String.rev cur :: splitAux sep EmptyString r
      else splitAux sep (String c cur) r
  end.

Definition split (sep : ascii) (s : string) : list string :=
  splitAux sep EmptyString s.

(** [s.replace(/c/g, d)] for single characters. *)
Fixpoint replaceChar (c d : ascii) (s : string) : string :=
  match s with
  | EmptyString => EmptyString
  | String x r => String (if Ascii.eqb x c then d else x) (replaceChar c d r)
  end.

(** [parts.join(sep)] on strings. *)
Fixpoint join (sep : string) (parts : list string) : string :=
  match parts with
  | [] => ""
  | [x] => x
  | x :: r => x +:+ sep +:+ join sep r
  end.

(** [s.includes(t)]. *)
Fixpoint includes (s t : string) : bool :=
  String.prefix t s ||
  match s with
  | EmptyString => false
  | String _ r => includes r t
  end.

(** ** [ToString] *)

Fixpoint toStr (v : value) : string :=
  match v with
  | VUndefined => "undefined"
  | VNull => "null"
  | VBool true => "true"
  | VBool false => "false"
  | VNum z => pretty z
  | VStr s => s
  | VArr _ elems =>
      (fix joinElems (l : list value) : string :=
         match l with
         | [] => ""
         | x :: r =>
             let sx := match x with
                       | VUndefined | VNull => ""
                       | _ => toStr x
                       end in
             match r with
             | [] => sx
             | _ :: _ => sx +:+ "," +:+ joinElems r
             end
         end) elems
  | VObj _ _ => "[object Object]"
  end.

(** The string an array element contributes to [Array.prototype.join]. *)
Definition elemStr (v : value) : string :=
  match v with
  | VUndefined | VNull => ""
  | _ => toStr v
  end.

(** ** [Object.entries], [Object.values], [forEach] *)

Fixpoint indexed (i : nat) (l : list value) : list (string * value) :=
  match l with
  | [] => []
  | x :: r => (pretty i, x) :: indexed (S i) r
  end.

Fixpoint chars (s : string) : list value :=
  match s with
  | EmptyString => []
  | String c r => VStr (String c "") :: chars r
  end.

(** [Object.entries(v)] for [v] neither [null] nor [undefined]: the own
    enumerable properties, in the order the object lists them. *)
Definition objectEntries (v : value) : list (string * value) :=
  match v with
  | VObj _ props => props
  | VArr _ elems => indexed 0 elems
  | VStr s => indexed 0 (chars s)
  | _ => []
  end.

Definition objectValues (v : value) : list value :=
  map snd (objectEntries v).

(** The receiver of [.forEach]: only an array has the method. *)
Definition asArray (v : value) : result (list value) :=
  match v with
  | VArr _ elems => Ok elems
  | _ => Throw (TypeError "forEach is not a function")
  end.

(** ** Insertion-ordered [Set] and [Map] *)

Section Collections.
Context {A V : Type}.
Variable key : A -> mapkey.

Definition setHas (s : list A) (x : A) : bool :=
  existsb (fun y => bool_decide (key y = key x)) s.

Definition setAdd (s : list A) (x : A) : list A :=
  if setHas s x then s else s ++ [x].

Fixpoint mapGet (m : list (A * V)) (k : A) : option V :=
  match m with
  | [] => None
  | (k', v) :: r => if bool_decide (key k' = key k) then Some v else mapGet r k
  end.

(** [m.set(k, v)]: a known key keeps its place, a new one goes last. *)
Fixpoint mapSet (m : list (A * V)) (k : A) (v : V) : list (A * V) :=
  match m with
  | [] => [(k, v)]
  | (k', v') :: r =>
      if bool_decide (key k' = key k) then (k', v) :: r
      else (k', v') :: mapSet r k v
  end.
End Collections.

(** ** [Array.prototype.sort] *)

(** ECMAScript fixes the result of [sort] when the comparator is a
    consistent order: the stable sorted arrangement.  The order of the
    comparator calls is the engine's; the model inserts each element,
    from the last to the first, into the sorted rest.  An array of fewer
    than two elements is never compared. *)
Section Sort.
Context {A : Type}.
Variable cmp : A -> A -> result Z.

Fixpoint insertM (x : A) (l : list A) : result (list A) :=
  match l with
  | [] => Ok [x]
  | y :: r =>
      let* c := cmp x y in
      if c <=? 0 then Ok (x :: y :: r)
      else let* r' := insertM x r in Ok (y :: r')
  end.

Fixpoint sortM (l : list A) : result (list A) :=
  match l with
  | [] => Ok []
  | x :: r => let* r' := sortM r in insertM x r'
  end.
End Sort.

End Js.

Import Js.

(* ===================================================================== *)
(** * The normaliser *)
(* ===================================================================== *)

Module Normaliser.

(** The accumulators of [normaliseResources] and the documents it returns.
    A field holds whatever the payload held: a string in a well-typed
    payload, any truthy value otherwise. *)

Record DownloadOption : Type := mkOption {
  type : value;
  name : value;
  downloadUrl : value;
  default : value;
  icon : value
}.

Record Version : Type := mkVersion {
  version : value;
  release : value;
  vlifecycle : value;
  published : value;
  notes : value;
  options : list DownloadOption
}.

Record DocAcc : Type := mkDocAcc {
  akey : value;
  adocumentNumber : value;
  aapiName : value;
  adescription : value;
  acategories : list string;
  acontexts : list string;
  alifecycle : list value;
  aversions : list (value * Version)
}.

Record Document : Type := mkDocument {
  id : string;
  key : value;
  documentNumber : value;
  apiName : value;
  description : value;
  categories : list string;
  contexts : list string;
  lifecycle : list value;
  versions : list Version;
  optionTypes : list value;
  primaryType : value;
  latestPublished : Z;
  searchIndex : string
}.

(** ** Lines 154-156: the three derived names of an entry *)

Definition entryDocumentNumber (entry : value) : value :=
  or (or (or (get entry "document_number")
             (get (get entry "api_description") "api_name"))
         (get (get0 (get entry "options")) "name"))
     (VStr "Untitled").

Definition entryApiName (entry : value) : value :=
  or (get (get entry "api_description") "api_name")
     (entryDocumentNumber entry).

Definition entryKey (entry : value) : value :=
  or (entryDocumentNumber entry) (entryApiName entry).

(** Line 163: [entry?.api_description?.api_description]. *)
Definition entryDescription (entry : value) : value :=
  get (get entry "api_description") "api_description".

(** Lines 180-186: the tags an entry adds to [doc.contexts]. *)
Definition entryContexts (entry : value) : list string :=
  if truthy (get entry "context")
  then filter (fun s => s <> "")
              (map trim (split "," (toStr (get entry "context"))))
  else [].

(** Lines 218-226: one pushed download option. *)
Definition makeOption (option : value) : DownloadOption :=
  {| type := or (get option "type") (VStr "");
     name := or (get option "name") (VStr "Download");
     downloadUrl := or (get option "download") (VStr "");
     default := or (get option "default") (VStr "");
     icon := or (get option "icon") (VStr "") |}.

(** Lines 194-201: the version record created for a new version label. *)
Definition newVersion (entry : value) : Version :=
  {| version := or (get entry "version_info") (VStr "Unversioned");
     release := or (get entry "release_info") (VStr "");
     vlifecycle := or (get entry "lifecycle_status") (VStr "");
     published := or (get entry "published_date") (VStr "");
     notes := or (get entry "notes") (VStr "");
     options := [] |}.

(** [if (!cur && next) cur = next], the first-non-empty-wins update. *)
Definition fillIfEmpty (cur next : value) : value :=
  if negb (truthy cur) && truthy next then next else cur.

(** Lines 204-226: what an entry does to its version record. *)
Definition mergeVersion (entry : value) (v : Version) : result Version :=
  let v1 :=
    {| version := version v;
       release := fillIfEmpty (release v) (get entry "release_info");
       vlifecycle := fillIfEmpty (vlifecycle v) (get entry "lifecycle_status");
       published := fillIfEmpty (published v) (get entry "published_date");
       notes := fillIfEmpty (notes v) (get entry "notes");
       options := options v |} in
  let* opts := asArray (or (get entry "options") (VArr 0 [])) in
  Ok {| version := version v1;
        release := release v1;
        vlifecycle := vlifecycle v1;
        published := published v1;
        notes := notes v1;
        options := options v1 ++ map makeOption opts |}.

(** Lines 159-168: the accumulator created for a new key. *)
Definition newDoc (entry : value) : DocAcc :=
  {| akey := entryKey entry;
     adocumentNumber := entryDocumentNumber entry;
     aapiName := entryApiName entry;
     adescription := or (entryDescription entry) (VStr "");
     acategories := [];
     acontexts := [];
     alifecycle := [];
     aversions := [] |}.

(** Lines 171-226: what an entry met under [categoryName] does to its
    accumulator [doc]. *)
Definition mergeEntry (categoryName : string) (entry : value) (doc : DocAcc)
  : result DocAcc :=
  let description := fillIfEmpty (adescription doc) (entryDescription entry) in
  let categories :=
    if negb (String.eqb categoryName "")
    then setAdd KStr (acategories doc) categoryName
    else acategories doc in
  let contexts := fold_left (setAdd KStr) (entryContexts entry) (acontexts doc) in
  let lifecycle :=
    if truthy (get entry "lifecycle_status")
    then setAdd keyOf (alifecycle doc) (get entry "lifecycle_status")
    else alifecycle doc in
  let versionKey := or (get entry "version_info") (VStr "Unversioned") in
  let version :=
    match mapGet keyOf (aversions doc) versionKey with
    | Some v => v
    | None => newVersion entry
    end in
  let* version' := mergeVersion entry version in
  Ok {| akey := akey doc;
        adocumentNumber := adocumentNumber doc;
        aapiName := aapiName doc;
        adescription := description;
        acategories := categories;
        acontexts := contexts;
        alifecycle := lifecycle;
        aversions := mapSet keyOf (aversions doc) versionKey version' |}.

(** Lines 153-227, the callback of [entries.forEach].  [doc] is the
    accumulator the map holds for the key, created first when the key is
    new; the callback mutates it in place, which the model writes back with
    [mapSet] (same place for a known key, last place for a new one). *)
Definition foldEntry (categoryName : string)
    (documentsByKey : list (value * DocAcc)) (entry : value)
  : result (list (value * DocAcc)) :=
  let key := entryKey entry in
  let doc :=
    match mapGet keyOf documentsByKey key with
    | Some d => d
    | None => newDoc entry
    end in
  let* doc' := mergeEntry categoryName entry doc in
  Ok (mapSet keyOf documentsByKey key doc').

(** Line 152: one group of a category. *)
Definition foldGroup (categoryName : string)
    (documentsByKey : list (value * DocAcc)) (entries : value)
  : result (list (value * DocAcc)) :=
  let* es := asArray entries in
  foldM (foldEntry categoryName) es documentsByKey.

(** Line 151: one category of the payload. *)
Definition foldCategory (documentsByKey : list (value * DocAcc))
    (category : string * value) : result (list (value * DocAcc)) :=
  let (categoryName, groupedResources) := category in
  foldM (foldGroup categoryName)
        (objectValues (or groupedResources (VObj 0 [])))
        documentsByKey.

(** Lines 149-229: the fold over the payload. *)
Definition collectDocuments (payload : value)
  : result (list (value * DocAcc)) :=
  foldM foldCategory (objectEntries (or payload (VObj 0 []))) [].

(** ** Lines 827-834: [createSlug] *)

Definition isSlugChar (c : ascii) : bool :=
  let n := nat_of_ascii c in
  (((97 <=? n) && (n <=? 122)) || ((48 <=? n) && (n <=? 57)))%nat.

(** [.replace(/[^a-z0-9]+/g, "-")]; [inRun] tells that the run being read
    has already produced its separator. *)
Fixpoint collapseRuns (inRun : bool) (s : string) : string :=
  match s with
  | EmptyString => EmptyString
  | String c r =>
      if isSlugChar c then String c (collapseRuns false r)
      else if inRun then collapseRuns true r
      else String "-" (collapseRuns true r)
  end.

Definition dropLeadingDash (s : string) : string :=
  match s with
  | String "-" r => r
  | _ => s
  end.

(** [.replace(/^-|-$/g, "")]: after [collapseRuns] a separator is never
    doubled, so one is dropped at each end at most. *)
Definition stripDashes (s : string) : string :=
  String.rev (dropLeadingDash (String.rev (dropLeadingDash s))).

(** [value.toString()]: a method call, which [null] does not have. *)
Definition toStringMethod (v : value) : result string :=
  match v with
  | VUndefined | VNull => Throw (TypeError "Cannot read properties of null")
  | _ => Ok (toStr v)
  end.

Definition createSlug (value : value) : result string :=
  let* s := toStringMethod (defaultArg value (VStr "")) in
  let slug := stripDashes (collapseRuns false (toLowerCase (trim s))) in
  Ok (if String.eqb slug "" then "resource" else slug).

(** Lines 236-238, the loop [while (usedSlugs.has(slug)) slug =
    `${slug}-${usedSlugs.size + 1}`].  Each turn makes the slug longer, so
    the loop ends before the slug outgrows the longest used one:
    [uniqueSlug] runs it with that many turns of fuel, and
    [uniqueSlug_fresh] below shows the fuel is never exhausted. *)
Fixpoint slugLoop (fuel : nat) (usedSlugs : gset string) (slug : string)
  : string :=
  match fuel with
  | O => slug
  | S fuel' =>
      if bool_decide (slug ∈ usedSlugs)
      then slugLoop fuel' usedSlugs
             (slug +:+ "-" +:+ pretty (size usedSlugs + 1)%nat)
      else slug
  end.

Definition maxLength (usedSlugs : gset string) : nat :=
  max_list (String.length <$> elements usedSlugs).

Definition uniqueSlug (usedSlugs : gset string) (slug : string) : string :=
  slugLoop (S (maxLength usedSlugs)) usedSlugs slug.

(** [k] turns of the loop on [slug]: the suffix appended [k] times. *)
Fixpoint appendTimes (k : nat) (suffix slug : string) : string :=
  match k with
  | O => slug
  | S k' => appendTimes k' suffix (slug +:+ suffix)
  end.

(** ** The entries of a payload, in the order lines 151-153 visit them *)

Fixpoint concatM {A B} (f : A -> result (list B)) (xs : list A)
  : result (list B) :=
  match xs with
  | [] => Ok []
  | x :: r => let* l := f x in let* l' := concatM f r in Ok (l ++ l')
  end.

Definition groupEntries (categoryName : string) (entries : value)
  : result (list (string * value)) :=
  let* es := asArray entries in
  Ok (map (pair categoryName) es).

Definition categoryEntries (category : string * value)
  : result (list (string * value)) :=
  concatM (groupEntries (fst category))
          (objectValues (or (snd category) (VObj 0 []))).

(** Each entry with the category name it is met under. *)
Definition payloadEntries (payload : value)
  : result (list (string * value)) :=
  concatM categoryEntries (objectEntries (or payload (VObj 0 []))).

(** The callback of the fold on such a pair. *)
Definition foldStep (documentsByKey : list (value * DocAcc))
    (ce : string * value) : result (list (value * DocAcc)) :=
  foldEntry (fst ce) documentsByKey (snd ce).

Definition mergeStep (doc : DocAcc) (ce : string * value) : result DocAcc :=
  mergeEntry (fst ce) (snd ce) doc.

(** The entries whose key is [k], in fold order: those that contribute to
    the document of that key. *)
Definition contributing (k : mapkey) (es : list (string * value))
  : list (string * value) :=
  List.filter (fun ce => bool_decide (keyOf (entryKey (snd ce)) = k)) es.

(** The first non-empty (truthy) value of a sequence. *)
Definition firstTruthy (vs : list value) : option value :=
  List.find truthy vs.

(** The invariant of the fold: after the entries [es], the map holds one
    accumulator per key met, each the fold of [mergeEntry] over the entries
    of its key, started from the accumulator of the first of them. *)
Definition collected (es : list (string * value))
    (m : list (value * DocAcc)) : Prop :=
  NoDup (map (fun kd => keyOf (fst kd)) m) /\
  (forall ce, In ce es ->
     In (keyOf (entryKey (snd ce))) (map (fun kd => keyOf (fst kd)) m)) /\
  (forall k doc, In (k, doc) m ->
     k = akey doc /\
     exists c e rest,
       contributing (keyOf k) es = (c, e) :: rest /\
       foldM mergeStep ((c, e) :: rest) (newDoc e) = Ok doc).

(** The description the entries [es] leave in an accumulator that held
    [cur]: [cur] if non-empty, else the first non-empty one of [es]. *)
Definition mergedDescription (cur : value) (es : list (string * value))
  : value :=
  if truthy cur then cur
  else match firstTruthy (map (fun ce => entryDescription (snd ce)) es) with
       | Some v => v
       | None => cur
       end.

Section Platform.

(** [a.localeCompare(b, undefined, { sensitivity: "base" })] on two
    strings: the collation of the user's locale. *)
Variable collate : string -> string -> Z.

(** [new Date(s).getTime()], [None] standing for [NaN]. *)
Variable dateParse : string -> option Z.

(** The text content of the HTML fragment [html], as the browser's parser
    gives it (lines 877-881). *)
Variable stripHtml : string -> string.

(** Lines 867-869.  [a.localeCompare] is a method of strings only; its
    argument is converted with [ToString]. *)
Definition compareStrings (a b : value) : result Z :=
  match defaultArg a (VStr "") with
  | VStr sa => Ok (collate sa (toStr (defaultArg b (VStr ""))))
  | _ => Throw (TypeError "a.localeCompare is not a function")
  end.

(** [compareStrings(a1, b1) || compareStrings(a2, b2)]. *)
Definition compareThen (a1 b1 a2 b2 : value) : result Z :=
  let* c := compareStrings a1 b1 in
  if c =? 0 then compareStrings a2 b2 else Ok c.

(** Lines 871-875.  [value.replace] is a method of strings only. *)
Definition parseDate (value : value) : result Z :=
  match defaultArg value (VStr "") with
  | VStr s =>
      let cleaned := trim (replaceChar "-" " " s) in
      Ok (match dateParse (if String.eqb cleaned "" then s else cleaned) with
          | Some t => t
          | None => 0
          end)
  | _ => Throw (TypeError "value.replace is not a function")
  end.

(** Lines 242-248, the comparator of [versions.sort]. *)
Definition compareVersions (a b : Version) : result Z :=
  let* tb := parseDate (published b) in
  let* ta := parseDate (published a) in
  let dateDiff := tb - ta in
  if negb (dateDiff =? 0) then Ok dateDiff
  else compareStrings (version b) (version a).

(** The order [compareVersions] decides: the timestamp [parseDate] gives
    the published date, then the label as [localeCompare] receives it. *)
Definition timestamp (v : Version) : Z :=
  match parseDate (published v) with
  | Ok t => t
  | Throw _ => 0
  end.

Definition label (v : Version) : string :=
  toStr (defaultArg (version v) (VStr "")).

(** [a] may stand before [b]: a later date, or the same date and a label
    that collates no lower. *)
Definition versionBefore (a b : Version) : Prop :=
  timestamp a > timestamp b \/
  (timestamp a = timestamp b /\ collate (label b) (label a) <= 0).

(** Line 252, the comparator of [version.options.sort]. *)
Definition compareOptions (a b : DownloadOption) : result Z :=
  compareThen (type a) (type b) (name a) (name b).

Definition sortOptions (v : Version) : result Version :=
  let* opts := sortM compareOptions (options v) in
  Ok {| version := version v;
        release := release v;
        vlifecycle := vlifecycle v;
        published := published v;
        notes := notes v;
        options := opts |}.

(** [xs.map(f)] for an [f] that may throw. *)
Fixpoint mapM {A B} (f : A -> result B) (xs : list A) : result (list B) :=
  match xs with
  | [] => Ok []
  | x :: r => let* y := f x in let* r' := mapM f r in Ok (y :: r')
  end.

(** Lines 253-257: the option types of one version, added to the set. *)
Definition addOptionTypes (optionTypes : list value) (v : Version)
  : list value :=
  fold_left
    (fun acc option =>
       if truthy (type option) then setAdd keyOf acc (type option) else acc)
    (options v) optionTypes.

(** Line 262. *)
Definition latestOf (versions : list Version) : result Z :=
  foldM (fun acc v => let* t := parseDate (published v) in Ok (Z.max acc t))
        versions 0.

Definition sortStrings (l : list string) : result (list string) :=
  sortM (fun a b => compareStrings (VStr a) (VStr b)) l.

Definition sortValues (l : list value) : result (list value) :=
  sortM compareStrings l.

(** Lines 234-290, the callback of [documentsByKey.forEach]. *)
Definition buildDocument (st : gset string * list Document)
    (entry : value * DocAcc) : result (gset string * list Document) :=
  let '(usedSlugs, documents) := st in
  let '(key, doc) := entry in
  let* base := createSlug key in
  let slug := uniqueSlug usedSlugs base in
  let usedSlugs := {[slug]} ∪ usedSlugs in
  let* versions := sortM compareVersions (map snd (aversions doc)) in
  let* versions := mapM sortOptions versions in
  let optionTypes := fold_left addOptionTypes versions [] in
  let* optionTypesList := sortValues optionTypes in
  let* contextsList := sortStrings (acontexts doc) in
  let* latestPublished := latestOf versions in
  let searchParts :=
    [ elemStr (adocumentNumber doc);
      elemStr (aapiName doc);
      elemStr (adescription doc);
      join " " (acategories doc);
      join " " contextsList;
      join " " (map elemStr (alifecycle doc));
      join " " (map (fun v => elemStr (version v)) versions);
      join " " (map elemStr optionTypesList) ] in
  let searchIndex := toLowerCase (stripHtml (join " " searchParts)) in
  let* categories := sortStrings (acategories doc) in
  let* lifecycle := sortValues (alifecycle doc) in
  Ok (usedSlugs,
      (documents ++
      [ {| id := slug;
           key := key;
           documentNumber := or (adocumentNumber doc) key;
           apiName := or (or (aapiName doc) (adocumentNumber doc)) key;
           description := adescription doc;
           categories := categories;
           contexts := contextsList;
           lifecycle := lifecycle;
           versions := versions;
           optionTypes := optionTypesList;
           primaryType := or (get0 (VArr 0 optionTypesList)) (VStr "");
           latestPublished := latestPublished;
           searchIndex := searchIndex |} ])%list).

(** What [buildDocument] makes of the accumulator [kd], the slug apart. *)
Definition describes (kd : value * DocAcc) (d : Document) : Prop :=
  key d = fst kd /\
  documentNumber d = or (adocumentNumber (snd kd)) (fst kd) /\
  apiName d = or (or (aapiName (snd kd)) (adocumentNumber (snd kd))) (fst kd) /\
  description d = adescription (snd kd) /\
  categories d ≡ₚ acategories (snd kd) /\
  contexts d ≡ₚ acontexts (snd kd) /\
  lifecycle d ≡ₚ alifecycle (snd kd) /\
  exists vs,
    sortM compareVersions (map snd (aversions (snd kd))) = Ok vs /\
    mapM sortOptions vs = Ok (versions d).

(** The invariant of the second loop: the documents built from the
    accumulators [pre], in map order, with the slugs in use.  The document
    at index [i] was built with [i] slugs in use: its id is the slug of its
    key followed by [k] copies of the suffix [-(i+1)], each shorter candidate
    being the id of an earlier document. *)
Definition builtFrom (pre : list (value * DocAcc))
    (st : gset string * list Document) : Prop :=
  Forall2 describes pre (snd st) /\
  NoDup (map id (snd st)) /\
  (forall s, s ∈ fst st <-> In s (map id (snd st))) /\
  size (fst st) = length (snd st) /\
  (forall i d, snd st !! i = Some d ->
     exists base k,
       createSlug (key d) = Ok base /\
       id d = appendTimes k ("-" +:+ pretty (i + 1)%nat) base /\
       (forall j, (j < k)%nat ->
          In (appendTimes j ("-" +:+ pretty (i + 1)%nat) base)
             (map id (take i (snd st))))).

(** Line 292, the comparator of [documents.sort]. *)
Definition compareDocuments (a b : Document) : result Z :=
  compareThen (documentNumber a) (documentNumber b) (apiName a) (apiName b).

(** Lines 148-295. *)
Definition normaliseResources (payload : value) : result (list Document) :=
  let* documentsByKey := collectDocuments payload in
  let* built := foldM buildDocument documentsByKey (∅, []) in
  sortM compareDocuments (snd built).

End Platform.

End Normaliser.


(* ===================================================================== *)
(** * The payload loader *)
(* ===================================================================== *)

Module Loader.

Definition API_URL : string := "./index.json".

Definition isAlnum (c : ascii) : bool :=
  let n := nat_of_ascii c in
  (((97 <=? n) && (n <=? 122)) || ((65 <=? n) && (n <=? 90))
   || ((48 <=? n) && (n <=? 57)))%nat.

(** The characters [encodeURIComponent] leaves alone. *)
Definition isUnreserved (c : ascii) : bool :=
  isAlnum c || existsb (Ascii.eqb c) (list_ascii_of_string "-_.!~*'()").

Definition hexDigit (n : nat) : ascii :=
  nth n (list_ascii_of_string "0123456789ABCDEF") "0"%char.

(** [encodeURIComponent] on the UTF-8 bytes of its argument. *)
Fixpoint encodeURIComponent (s : string) : string :=
  match s with
  | EmptyString => EmptyString
  | String c r =>
      if isUnreserved c then String c (encodeURIComponent r)
      else
        let n := nat_of_ascii c in
        String "%" (String (hexDigit (n / 16)) (String (hexDigit (n mod 16))
          (encodeURIComponent r)))
  end.

(** Lines 91-97. *)
Definition getApiSources : list string :=
  [ API_URL;
    "https://corsproxy.io/?" +:+ encodeURIComponent API_URL;
    "https://r.jina.ai/" +:+ API_URL ].

(** What [fetch] resolves to: the [ok] flag, the status code, and what
    [response.text()] settles to. *)
Record Response : Type := mkResponse {
  ok : bool;
  status : nat;
  text : result string
}.

Section Network.

(** The network at the time of the load: what [fetch(source)] settles to,
    a rejection being a [Throw]. *)
Variable fetch : string -> result Response.

(** [JSON.parse]. *)
Variable jsonParse : string -> result value.

(** Lines 104-111, the body of the [try]. *)
Definition attempt (source : string) : result value :=
  let* response := fetch source in
  if negb (ok response)
  then Throw (Error ("Request failed with " +:+ pretty (status response)))
  else
    let* body := text response in
    jsonParse body.

(** Lines 102-118.  The first component lists the sources fetched, in
    order; waiting for one attempt before the next is the sequencing of the
    recursion. *)
Fixpoint loadFrom (sources : list string) (lastError : option exn)
  : list string * result (value * string) :=
  match sources with
  | [] =>
      ([], Throw (match lastError with
                  | Some e => e
                  | None => Error "Unable to reach TMF resource index."
                  end))
  | source :: rest =>
      match attempt source with
      | Ok data => ([source], Ok (data, source))
      | Throw error =>
          let (fetched, r) := loadFrom rest (Some error) in
          (source :: fetched, r)
      end
  end.

(** Lines 99-119. *)
Definition loadPayload : list string * result (value * string) :=
  loadFrom getApiSources None.

End Network.

End Loader.


(* ===================================================================== *)
(** * The browser: state, filters, pages and routes *)
(* ===================================================================== *)

Module Browser.

Import Normaliser.

(** [state.route]: [{ view: "index", id: null }] or
    [{ view: "detail", id }]. *)
Inductive Route : Type :=
| Index
| Detail (rid : string).

Definition isDetail (r : Route) : bool :=
  match r with
  | Detail _ => true
  | Index => false
  end.

(** [previousRoute.view !== state.route.view] is [negb (sameView _ _)]. *)
Definition sameView (a b : Route) : bool := Bool.eqb (isDetail a) (isDetail b).

(** Lines 3-15, the shared [state] object. *)
Record State : Type := mkState {
  documents : list Document;
  filtered : list Document;
  documentMap : gmap string Document;
  currentPage : Z;
  pageSize : Z;
  searchTerm : string;
  currentSort : string;
  activeCategory : string;
  activeDomain : string;
  apiSource : string;
  route : Route
}.

(** [window.location.hash], and whether an assignment to it has queued a
    [hashchange] event that the browser has still to deliver. *)
Record Window : Type := mkWindow {
  hash : string;
  hashChangeQueued : bool
}.

(** What the script has written to the page, as far as the claims look at
    it: the status banner, the detail panel and the [view-detail] class of
    the body.  The card grid, the summary, the pagination controls and the
    breadcrumb are written from the state and never read back; they are
    left out, and the elements they need are taken to exist. *)
Record Dom : Type := mkDom {
  statusHidden : bool;
  statusText : string;
  statusError : bool;
  detailHidden : bool;
  detailContent : option Document;
  viewDetailClass : bool
}.

Record World : Type := mkWorld {
  st : State;
  win : Window;
  dom : Dom
}.

(** Which of the elements looked up at lines 17-38 the page has
    ([document.getElementById] gives [null] for a missing one). *)
Record Elements : Type := mkElements {
  statusBanner : bool;
  statusMessage : bool;
  detailView : bool
}.

(** Assignments to single properties. *)

Definition setFiltered (x : list Document) (s : State) : State :=
  mkState (documents s) x (documentMap s) (currentPage s) (pageSize s)
    (searchTerm s) (currentSort s) (activeCategory s) (activeDomain s)
    (apiSource s) (route s).

Definition setCurrentPage (x : Z) (s : State) : State :=
  mkState (documents s) (filtered s) (documentMap s) x (pageSize s)
    (searchTerm s) (currentSort s) (activeCategory s) (activeDomain s)
    (apiSource s) (route s).

Definition setSearchTerm (x : string) (s : State) : State :=
  mkState (documents s) (filtered s) (documentMap s) (currentPage s)
    (pageSize s) x (currentSort s) (activeCategory s) (activeDomain s)
    (apiSource s) (route s).

Definition setCurrentSort (x : string) (s : State) : State :=
  mkState (documents s) (filtered s) (documentMap s) (currentPage s)
    (pageSize s) (searchTerm s) x (activeCategory s) (activeDomain s)
    (apiSource s) (route s).

Definition setActiveCategory (x : string) (s : State) : State :=
  mkState (documents s) (filtered s) (documentMap s) (currentPage s)
    (pageSize s) (searchTerm s) (currentSort s) x (activeDomain s)
    (apiSource s) (route s).

Definition setActiveDomain (x : string) (s : State) : State :=
  mkState (documents s) (filtered s) (documentMap s) (currentPage s)
    (pageSize s) (searchTerm s) (currentSort s) (activeCategory s) x
    (apiSource s) (route s).

Definition setRoute (x : Route) (s : State) : State :=
  mkState (documents s) (filtered s) (documentMap s) (currentPage s)
    (pageSize s) (searchTerm s) (currentSort s) (activeCategory s)
    (activeDomain s) (apiSource s) x.

Definition withState (s : State) (w : World) : World :=
  mkWorld s (win w) (dom w).

Definition withDom (d : Dom) (w : World) : World :=
  mkWorld (st w) (win w) d.

(** What the status banner shows: hidden or not, the message, the error
    style. *)
Definition notice (w : World) : bool * string * bool :=
  (statusHidden (dom w), statusText (dom w), statusError (dom w)).

(** Two states with the same collection, filtered list, document map and
    page size. *)
Definition sameData (s s' : State) : Prop :=
  documents s' = documents s /\ filtered s' = filtered s /\
  documentMap s' = documentMap s /\ pageSize s' = pageSize s.

(** [window.location.hash = h] for an [h] that differs from the current
    hash: the hash changes and a [hashchange] event is queued. *)
Definition assignHash (h : string) (w : World) : World :=
  mkWorld (st w) (mkWindow h true) (dom w).

(** Line 129: [new Map(state.documents.map((doc) => [doc.id, doc]))]. *)
Definition buildDocumentMap (docs : list Document) : gmap string Document :=
  fold_left (fun m doc => <[id doc := doc]> m) docs ∅.

(** Lines 3-15. *)
Definition initialState : State :=
  {| documents := [];
     filtered := [];
     documentMap := ∅;
     currentPage := 1;
     pageSize := 10;
     searchTerm := "";
     currentSort := "name";
     activeCategory := "all";
     activeDomain := "all";
     apiSource := Loader.API_URL;
     route := Index |}.

(** [Math.ceil(n / d)] on integers, [d] positive. *)
Definition ceilDiv (n d : Z) : Z := (n + d - 1) / d.

(** Lines 595-611, the predicate of [state.documents.filter]. *)
Definition matchesFilters (s : State) (doc : Document) : bool :=
  let matchesCategory :=
    String.eqb (activeCategory s) "all"
    || existsb (String.eqb (activeCategory s)) (categories doc) in
  if negb matchesCategory then false
  else
    let matchesDomain :=
      String.eqb (activeDomain s) "all"
      || existsb (String.eqb (activeDomain s)) (contexts doc) in
    if negb matchesDomain then false
    else if String.eqb (searchTerm s) "" then true
    else includes (searchIndex doc) (searchTerm s).

(** Lines 362-374: what [renderIndex] does to the state. *)
Definition renderIndex (w : World) : World :=
  let s := st w in
  let totalItems := Z.of_nat (length (filtered s)) in
  let totalPages :=
    if totalItems =? 0 then 0 else ceilDiv totalItems (pageSize s) in
  let s :=
    if negb (totalPages =? 0) && (currentPage s >? totalPages)
    then setCurrentPage totalPages s else s in
  let s := if totalPages =? 0 then setCurrentPage 1 s else s in
  withState s w.

Section Page.

Variable elements : Elements.

(** [localeCompare], as in the normaliser. *)
Variable collate : string -> string -> Z.

(** [decodeURIComponent], which throws a [URIError] on a malformed
    escape. *)
Variable decodeURIComponent : string -> result string.

(** Lines 731-744. *)
Definition setStatus (message : string) (isError hide : bool) (w : World)
  : World :=
  if negb (statusBanner elements) || negb (statusMessage elements) then w
  else if hide then
    withDom (mkDom true (statusText (dom w)) (statusError (dom w))
               (detailHidden (dom w)) (detailContent (dom w))
               (viewDetailClass (dom w))) w
  else
    withDom (mkDom false message isError
               (detailHidden (dom w)) (detailContent (dom w))
               (viewDetailClass (dom w))) w.

(** Lines 444-592: [renderDetail] fills the detail panel with [doc]. *)
Definition renderDetail (doc : Document) (w : World) : World :=
  if negb (detailView elements) then w
  else
    withDom (mkDom (statusHidden (dom w)) (statusText (dom w))
               (statusError (dom w)) (detailHidden (dom w)) (Some doc)
               (viewDetailClass (dom w))) w.

(** Lines 325-329: the panel is shown or hidden and the body class set. *)
Definition showView (detail : bool) (w : World) : World :=
  withDom (mkDom (statusHidden (dom w)) (statusText (dom w))
             (statusError (dom w))
             (if detailView elements then negb detail
              else detailHidden (dom w))
             (detailContent (dom w)) detail) w.

(** Lines 353-355: [elements.detailView.innerHTML = ""]. *)
Definition clearDetail (w : World) : World :=
  if negb (detailView elements) then w
  else
    withDom (mkDom (statusHidden (dom w)) (statusText (dom w))
               (statusError (dom w)) (detailHidden (dom w)) None
               (viewDetailClass (dom w))) w.

(** Lines 322-360.  [renderRoute] and [navigateToIndex] call each other;
    the model passes each the other as [navigate] or [render] and ties
    the knot below. *)
Definition renderRouteWith (navigate : World -> World) (w : World) : World :=
  let w := showView (isDetail (route (st w))) w in
  if (length (documents (st w)) =? 0)%nat then renderIndex w
  else
    match route (st w) with
    | Detail rid =>
        match documentMap (st w) !! rid with
        | None =>
            navigate
              (setStatus "The requested API could not be found." true false w)
        | Some doc =>
            if negb (existsb (fun item => String.eqb (id item) rid)
                             (filtered (st w)))
            then navigate w
            else renderIndex (renderDetail doc w)
        end
    | Index => renderIndex (clearDetail w)
    end.

(** Lines 772-779. *)
Definition navigateToIndexWith (render : World -> World) (w : World)
  : World :=
  if String.eqb (hash (win w)) "#/" || String.eqb (hash (win w)) ""
     || String.eqb (hash (win w)) "#"
  then render (withState (setRoute Index (st w)) w)
  else assignHash "#/" w.

(** [navigateToIndex] calls [renderRoute] on the index route only, where
    [renderRoute] never navigates: two levels close the recursion
    ([renderRoute_unfold] below is the equation of the source). *)
Definition renderRoute (w : World) : World :=
  renderRouteWith (navigateToIndexWith (renderRouteWith (fun w' => w'))) w.

Definition navigateToIndex (w : World) : World :=
  navigateToIndexWith renderRoute w.

(** Lines 623-640. *)
Definition sortDocuments (currentSort : string) (items : list Document)
  : result (list Document) :=
  if String.eqb currentSort "type" then
    sortM (fun a b => compareThen collate (primaryType a) (primaryType b)
                        (apiName a) (apiName b)) items
  else if String.eqb currentSort "date" then
    sortM (fun a b =>
             let d := latestPublished b - latestPublished a in
             if d =? 0 then compareStrings collate (apiName a) (apiName b)
             else Ok d) items
  else
    sortM (fun a b => compareThen collate (apiName a) (apiName b)
                        (documentNumber a) (documentNumber b)) items.

(** Line 615. *)
Definition maxPages (s : State) : Z :=
  ceilDiv (Z.max (Z.of_nat (length (filtered s))) 1) (pageSize s).

(** Lines 594-621.  The second component is the exception that escapes,
    if one does; the state is then as the throw left it. *)
Definition applyFilters (w : World) : World * option exn :=
  let s := st w in
  match sortDocuments (currentSort s)
          (List.filter (matchesFilters s) (documents s)) with
  | Throw e => (w, Some e)
  | Ok sorted =>
      let s := setFiltered sorted s in
      let s := if currentPage s >? maxPages s then setCurrentPage 1 s else s in
      (renderRoute (withState s w), None)
  end.

(** Lines 49-71, the four listeners of the filter inputs; [v] is
    [event.target.value]. *)
Definition onSearchInput (v : string) (w : World) : World * option exn :=
  applyFilters
    (withState (setCurrentPage 1 (setSearchTerm (toLowerCase (trim v)) (st w)))
       w).

Definition onCategoryChange (v : string) (w : World) : World * option exn :=
  applyFilters
    (withState (setCurrentPage 1 (setActiveCategory v (st w))) w).

Definition onDomainChange (v : string) (w : World) : World * option exn :=
  applyFilters
    (withState (setCurrentPage 1 (setActiveDomain v (st w))) w).

Definition onSortChange (v : string) (w : World) : World * option exn :=
  applyFilters
    (withState (setCurrentPage 1 (setCurrentSort v (st w))) w).

(** The four listeners as one family. *)
Inductive FilterInput : Type :=
| SearchInput (v : string)
| CategoryChange (v : string)
| DomainChange (v : string)
| SortChange (v : string).

Definition onFilterInput (ev : FilterInput) (w : World)
  : World * option exn :=
  match ev with
  | SearchInput v => onSearchInput v w
  | CategoryChange v => onCategoryChange v w
  | DomainChange v => onDomainChange v w
  | SortChange v => onSortChange v w
  end.

Definition dropHashMark (s : string) : string :=
  match s with
  | String "#" r => r
  | _ => s
  end.

(** Lines 308-320, [hash] being [window.location.hash]. *)
Definition parseHash (hash : string) : result Route :=
  let h := trim (dropHashMark hash) in
  if String.eqb h "" || String.eqb h "/" then Ok Index
  else
    match List.filter (fun p => negb (String.eqb p "")) (split "/" h) with
    | p0 :: p1 :: _ =>
        if String.eqb p0 "document"
        then let* rid := decodeURIComponent p1 in Ok (Detail rid)
        else Ok Index
    | _ => Ok Index
    end.

(** Lines 297-306. *)
Definition handleRouteChange (w : World) : World * option exn :=
  let previousRoute := route (st w) in
  match parseHash (hash (win w)) with
  | Throw e => (w, Some e)
  | Ok r =>
      let s := setRoute r (st w) in
      let s := if negb (sameView previousRoute r) then setCurrentPage 1 s
               else s in
      (renderRoute (withState s w), None)
  end.

(** The browser delivers the queued [hashchange] event to the listener of
    line 44. *)
Definition deliverHashChange (w : World) : World * option exn :=
  if hashChangeQueued (win w)
  then handleRouteChange (mkWorld (st w) (mkWindow (hash (win w)) false) (dom w))
  else (w, None).

End Page.

End Browser.


(* ===================================================================== *)
(** * A sample platform and sample inputs *)
(* ===================================================================== *)

Module Sample.

Import Normaliser Loader Browser.

(** A collation: the byte order of the lower-cased strings. *)
Definition collate (a b : string) : Z :=
  let a' := toLowerCase a in
  let b' := toLowerCase b in
  if String.leb a' b' then (if String.leb b' a' then 0 else -1) else 1.

Definition digit (c : ascii) : option Z :=
  let n := nat_of_ascii c in
  if ((48 <=? n) && (n <=? 57))%nat then Some (Z.of_nat n - 48) else None.

(** Days from 1970-01-01 to the day [d] of month [m] of year [y]. *)
Definition daysFromCivil (y m d : Z) : Z :=
  let y := if m <=? 2 then y - 1 else y in
  let era := y / 400 in
  let yoe := y - era * 400 in
  let doy := (153 * (if 2 <? m then m - 3 else m + 9) + 2) / 5 + d - 1 in
  let doe := yoe * 365 + yoe / 4 - yoe / 100 + doy in
  era * 146097 + doe - 719468.

Definition number4 (a b c d : ascii) : option Z :=
  match digit a, digit b, digit c, digit d with
  | Some a, Some b, Some c, Some d => Some (a * 1000 + b * 100 + c * 10 + d)
  | _, _, _, _ => None
  end.

Definition number2 (a b : ascii) : option Z :=
  match digit a, digit b with
  | Some a, Some b => Some (a * 10 + b)
  | _, _ => None
  end.

(** A [Date] that reads [YYYY] (the ISO year form) and [YYYY MM DD] as days
    of UTC, and nothing else.  In particular [new Date("").getTime()] is
    [NaN] and [new Date("1960").getTime()] is [-315619200000]. *)
Definition dateParse (s : string) : option Z :=
  match s with
  | String a (String b (String c (String d EmptyString))) =>
      match number4 a b c d with
      | Some y => Some (daysFromCivil y 1 1 * 86400000)
      | None => None
      end
  | String a (String b (String c (String d
      (String " " (String e (String f
      (String " " (String g (String h EmptyString))))))))) =>
      match number4 a b c d, number2 e f, number2 g h with
      | Some y, Some m, Some dd =>
          if (1 <=? m) && (m <=? 12) && (1 <=? dd) && (dd <=? 31)
          then Some (daysFromCivil y m dd * 86400000) else None
      | _, _, _ => None
      end
  | _ => None
  end.

(** A tag stripper: what stands between [<] and [>] goes. *)
Fixpoint stripTags (inTag : bool) (s : string) : string :=
  match s with
  | EmptyString => EmptyString
  | String c r =>
      if inTag then stripTags (negb (Ascii.eqb c ">")) r
      else if Ascii.eqb c "<" then stripTags true r
      else String c (stripTags false r)
  end.

Definition stripHtml (html : string) : string := stripTags false html.

Definition normalise (payload : value) : result (list Document) :=
  normaliseResources collate dateParse stripHtml payload.

(** [{ "Misc": { "g": [ {} ] } }]: an entry with no field at all. *)
Definition untitledPayload : value :=
  VObj 1 [("Misc", VObj 2 [("g", VArr 3 [VObj 4 []])])].

(** [{ "Misc": { "g": null } }]: a group that is not an array. *)
Definition nullGroupPayload : value :=
  VObj 1 [("Misc", VObj 2 [("g", VNull)])].

(** [{ "Misc": { "g": [ { "published_date": 2024 } ] } }]: a date that is
    a number, not a string. *)
Definition numericDatePayload : value :=
  VObj 1 [("Misc",
    VObj 2 [("g", VArr 3 [VObj 4 [("published_date", VNum 2024)]])])].

Definition numbered (ref : nat) (documentNumber : string) : value :=
  VObj ref [("document_number", VStr documentNumber)].

(** Three keys, [a], [a-3] and [A]; the third has the slug of the first. *)
Definition slugPayload : value :=
  VObj 1 [("Core",
    VObj 2 [("g", VArr 3 [numbered 4 "a"; numbered 5 "a-3"; numbered 6 "A"])])].

(** Two entries of the key [D1]; only the second names the API. *)
Definition lateNameFirst : value := numbered 4 "D1".

Definition lateNameSecond : value :=
  VObj 5 [("document_number", VStr "D1");
          ("api_description",
           VObj 6 [("api_name", VStr "Real Name");
                   ("api_description", VStr "About D1")])].

Definition lateNamePayload : value :=
  VObj 1 [("Core", VObj 2 [("g", VArr 3 [lateNameFirst; lateNameSecond])])].

Definition entry (ref : nat) (number name description context status
    version published : string) : value :=
  VObj ref
    [("document_number", VStr number);
     ("api_description",
      VObj (ref + 1) [("api_name", VStr name);
                      ("api_description", VStr description)]);
     ("context", VStr context);
     ("lifecycle_status", VStr status);
     ("version_info", VStr version);
     ("published_date", VStr published);
     ("options",
      VArr (ref + 2)
        [VObj (ref + 3) [("type", VStr "swagger"); ("name", VStr "api.json");
                         ("download", VStr "https://example.org/api.json")]])].

(** One document met in two categories, with three versions, and a second
    document. *)
Definition cataloguePayload : value :=
  VObj 1
    [("Core",
      VObj 2
        [("g1", VArr 3
            [entry 10 "TMF620" "" "" "Product, Catalog" "Production"
                   "v4.0" "2023-01-01";
             entry 20 "TMF622" "Ordering" "<p>Orders</p>" "Order" "Beta"
                   "v4.0" "2022-03-01"])]);
     ("Open",
      VObj 4
        [("g2", VArr 5
            [entry 30 "TMF620" "Product Catalog" "<b>Catalog</b> API"
                   "Catalog ,Party" "Beta" "v5.0" "2024-06-15";
             entry 40 "TMF620" "Catalogue" "Later text" "" "" "v3.0" ""])])].

(** Two versions of one document: one undated, one dated 1960. *)
Definition oldDatePayload : value :=
  VObj 1
    [("Core",
      VObj 2
        [("g", VArr 3
            [entry 10 "TMF001" "Old" "" "" "" "undated" "";
             entry 20 "TMF001" "Old" "" "" "" "early" "1960"])])].

Definition documentsOf (payload : value) : list Document :=
  match normalise payload with
  | Ok docs => docs
  | Throw _ => []
  end.

(** The network: the file is unreachable, the first proxy answers. *)
Definition fetch (source : string) : result Response :=
  if String.eqb source "./index.json"
  then Throw (TypeError "Failed to fetch")
  else if String.eqb source "https://corsproxy.io/?.%2Findex.json"
  then Ok (mkResponse true 200 (Ok "{}"))
  else Ok (mkResponse false 404 (Ok "Not Found")).

(** The network with every source failing, each in its own way. *)
Definition fetchDown (source : string) : result Response :=
  if String.eqb source "./index.json"
  then Throw (TypeError "Failed to fetch")
  else if String.eqb source "https://corsproxy.io/?.%2Findex.json"
  then Ok (mkResponse true 200 (Ok "<html>"))
  else Ok (mkResponse false 503 (Ok "")).

(** [JSON.parse] on the two bodies above. *)
Definition jsonParse (body : string) : result value :=
  if String.eqb body "{}" then Ok (VObj 1 [])
  else Throw (SyntaxError "Unexpected token").

Definition hexValue (c : ascii) : option nat :=
  let n := nat_of_ascii c in
  if ((48 <=? n) && (n <=? 57))%nat then Some (n - 48)%nat
  else if ((65 <=? n) && (n <=? 70))%nat then Some (n - 55)%nat
  else if ((97 <=? n) && (n <=? 102))%nat then Some (n - 87)%nat
  else None.

(** Percent-decoding, byte by byte (the UTF-8 check of the real function is
    left out). *)
Fixpoint decodeURIComponent (s : string) : result string :=
  match s with
  | EmptyString => Ok EmptyString
  | String "%" (String a (String b r)) =>
      match hexValue a, hexValue b with
      | Some x, Some y =>
          let* r' := decodeURIComponent r in
          Ok (String (ascii_of_nat (16 * x + y)) r')
      | _, _ => Throw (URIError "URI malformed")
      end
  | String "%" _ => Throw (URIError "URI malformed")
  | String c r => let* r' := decodeURIComponent r in Ok (String c r')
  end.

(** A page with every element. *)
Definition elements : Elements := mkElements true true true.

Definition blankDom : Dom := mkDom true "" false true None false.

(** Before the payload has loaded, on the detail route of [tmf620]. *)
Definition loadingWorld : World :=
  mkWorld (setRoute (Detail "tmf620") initialState)
          (mkWindow "#/document/tmf620" false) blankDom.

(** The state line 128-130 leave after [cataloguePayload] has loaded, with
    [filtered] as [applyFilters] then computes it. *)
Definition loadedState (route : Route) (page : Z) (activeDomain : string)
  : State :=
  let docs := documentsOf cataloguePayload in
  let s :=
    {| documents := docs;
       filtered := [];
       documentMap := buildDocumentMap docs;
       currentPage := page;
       pageSize := 10;
       searchTerm := "";
       currentSort := "name";
       activeCategory := "all";
       activeDomain := activeDomain;
       apiSource := API_URL;
       route := route |} in
  match sortDocuments collate "name" (List.filter (matchesFilters s) docs) with
  | Ok sorted => setFiltered sorted s
  | Throw _ => s
  end.

Definition loadedWorld (rid : string) (page : Z) (activeDomain : string)
  : World :=
  mkWorld (loadedState (Detail rid) page activeDomain)
          (mkWindow ("#/document/" +:+ rid) false) blankDom.

End Sample.


(* ===================================================================== *)
(** * The rest of the script *)
(* ===================================================================== *)

(** ** [escapeHtml] *)

Module Html.

(** [s.replace(/c/g, by)] for a single character [c]. *)
Fixpoint replaceAll (c : ascii) (by_ : string) (s : string) : string :=
  match s with
  | EmptyString => EmptyString
  | String x r =>
      if Ascii.eqb x c then by_ +:+ replaceAll c by_ r
      else String x (replaceAll c by_ r)
  end.

(** The double quote, as a character and as a string. *)
Definition dquote : ascii := ascii_of_nat 34.

Definition quoted (s : string) : string :=
  String dquote (s +:+ String dquote EmptyString).

(** Lines 883-890, on a string: five replacements, one after the other. *)
Definition escapeHtml (value : string) : string :=
  replaceAll "'" "&#39;"
    (replaceAll dquote "&quot;"
       (replaceAll ">" "&gt;"
          (replaceAll "<" "&lt;"
             (replaceAll "&" "&amp;" value)))).

(** What one character becomes. *)
Definition escapeChar (c : ascii) : string :=
  if Ascii.eqb c "&" then "&amp;"
  else if Ascii.eqb c "<" then "&lt;"
  else if Ascii.eqb c ">" then "&gt;"
  else if Ascii.eqb c dquote then "&quot;"
  else if Ascii.eqb c "'" then "&#39;"
  else String c EmptyString.

(** The characters that open or close markup and attribute values. *)
Definition isMarkup (c : ascii) : bool :=
  Ascii.eqb c "<" || Ascii.eqb c ">" || Ascii.eqb c dquote || Ascii.eqb c "'".

Fixpoint escapeEach (s : string) : string :=
  match s with
  | EmptyString => EmptyString
  | String c r => escapeChar c +:+ escapeEach r
  end.

End Html.

(** ** The theme (lines 753-770) *)

Module Theme.

(** The two pictures the toggle button shows. *)
Inductive Icon : Type :=
| Moon
| Sun.

(** The classes [theme-dark] and [theme-light] of the body, the content of
    the toggle button ([None]: as the page came), and the entry [tmf-theme]
    of [localStorage] ([None]: [getItem] gives [null]). *)
Record ThemeState : Type := mkTheme {
  darkClass : bool;
  lightClass : bool;
  toggleIcon : option Icon;
  saved : option string
}.

Section Button.

(** Whether the page has the element [themeToggle]. *)
Variable themeToggle : bool.

(** Lines 753-758.  [classList.toggle(name)] flips the class and returns
    whether it is now set; writing [innerHTML] of a missing button throws,
    before [setItem]. *)
Definition toggleTheme (t : ThemeState) : ThemeState * option exn :=
  let isDark := negb (darkClass t) in
  if themeToggle then
    (mkTheme isDark (negb isDark) (Some (if isDark then Moon else Sun))
             (Some (if isDark then "dark" else "light")), None)
  else
    (mkTheme isDark (negb isDark) (toggleIcon t) (saved t),
     Some (TypeError "Cannot set properties of null")).

(** Lines 760-770. *)
Definition applySavedTheme (t : ThemeState) : ThemeState * option exn :=
  match saved t with
  | None => (t, None)
  | Some savedTheme =>
      if String.eqb savedTheme "" then (t, None)
      else
        let isDark := String.eqb savedTheme "dark" in
        if themeToggle then
          (mkTheme isDark (negb isDark) (Some (if isDark then Moon else Sun))
                   (saved t), None)
        else
          (mkTheme isDark (negb isDark) (toggleIcon t) (saved t),
           Some (TypeError "Cannot set properties of null"))
  end.

(** A page load: the classes and the button are those of the document
    again, the storage stays. *)
Definition reload (dark light : bool) (t : ThemeState) : ThemeState :=
  mkTheme dark light None (saved t).

End Button.

End Theme.

(** ** Pages: the two buttons, the page slice, the pagination bar *)

Module Pager.

Import Normaliser Browser.

(** [Array.prototype.slice]: a negative index counts from the end, and
    both are clamped to the array. *)
Definition sliceBound (len i : Z) : Z :=
  if i <? 0 then Z.max (len + i) 0 else Z.min i len.

Definition slice {A} (l : list A) (start stop : Z) : list A :=
  let len := Z.of_nat (length l) in
  let from := sliceBound len start in
  let to := sliceBound len stop in
  take (Z.to_nat (to - from)) (drop (Z.to_nat from) l).

(** Lines 363-364, [totalPages] in [renderIndex]. *)
Definition totalPages (s : State) : Z :=
  let totalItems := Z.of_nat (length (filtered s)) in
  if totalItems =? 0 then 0 else ceilDiv totalItems (pageSize s).

(** Lines 373-374, [pageItems] for the state [renderIndex] has clamped. *)
Definition pageItems (s : State) : list Document :=
  let totalItems := Z.of_nat (length (filtered s)) in
  let startIndex := (currentPage s - 1) * pageSize s in
  if totalItems =? 0 then []
  else slice (filtered s) startIndex (startIndex + pageSize s).

(** The cards [renderIndex] draws. *)
Definition renderedCards (w : World) : list Document :=
  pageItems (st (renderIndex w)).

(** Line 81: [Math.ceil(state.filtered.length / state.pageSize) || 1]. *)
Definition totalPagesOrOne (s : State) : Z :=
  let t := ceilDiv (Z.of_nat (length (filtered s))) (pageSize s) in
  if t =? 0 then 1 else t.

(** The pagination bar: hidden or not, the two buttons, the text. *)
Record Pagination : Type := mkPagination {
  paginationHidden : bool;
  prevDisabled : bool;
  nextDisabled : bool;
  pageInfo : string
}.

(** Lines 642-656, for a page that has the bar and its three parts. *)
Definition renderPagination (s : State) (totalPages totalItems : Z)
    (p : Pagination) : Pagination :=
  if (totalItems =? 0) || (totalPages <=? 1)
  then mkPagination true (prevDisabled p) (nextDisabled p) (pageInfo p)
  else mkPagination false
         (currentPage s =? 1)
         (currentPage s =? totalPages)
         ("Page " +:+ pretty (currentPage s) +:+ " of " +:+ pretty totalPages).

(** What [renderIndex] does to the bar: lines 386-388 with no item,
    line 441 otherwise. *)
Definition paginationAfterIndex (w : World) (p : Pagination) : Pagination :=
  let s := st (renderIndex w) in
  let totalItems := Z.of_nat (length (filtered s)) in
  if totalItems =? 0
  then mkPagination true (prevDisabled p) (nextDisabled p) (pageInfo p)
  else renderPagination s (totalPages s) totalItems p.

(** The page stays on a page that exists. *)
Definition pageInRange (s : State) : Prop :=
  1 <= currentPage s <= Z.max 1 (totalPages s).

Section Page.

Variable elements : Elements.

(** Lines 73-78. *)
Definition onPrevPage (w : World) : World :=
  if currentPage (st w) >? 1
  then renderRoute elements
         (withState (setCurrentPage (currentPage (st w) - 1) (st w)) w)
  else w.

(** Lines 80-86. *)
Definition onNextPage (w : World) : World :=
  if currentPage (st w) <? totalPagesOrOne (st w)
  then renderRoute elements
         (withState (setCurrentPage (currentPage (st w) + 1) (st w)) w)
  else w.

(** Lines 781-789. *)
Definition navigateToDocument (doc : Document) (w : World) : World :=
  let targetHash := "#/document/" +:+ Loader.encodeURIComponent (id doc) in
  if String.eqb (hash (win w)) targetHash
  then renderRoute elements (withState (setRoute (Detail (id doc)) (st w)) w)
  else assignHash targetHash w.

End Page.

End Pager.


(** ** Loading: the two selects and [fetchResources] *)

Module Startup.

Import Normaliser Loader Browser Html.

(** A [select] element: its value and its [innerHTML]. *)
Record Select : Type := mkSelect {
  selectValue : string;
  selectHtml : string
}.

(** The world with the two selects of the toolbar. *)
Record Page : Type := mkPage {
  world : World;
  categorySelect : Select;
  domainSelect : Select
}.

(** Which of the two selects the page has. *)
Record Controls : Type := mkControls {
  category : bool;
  domain : bool
}.

Definition setDocuments (docs : list Document) (m : gmap string Document)
    (s : State) : State :=
  mkState docs (filtered s) m (currentPage s) (pageSize s) (searchTerm s)
    (currentSort s) (activeCategory s) (activeDomain s) (apiSource s)
    (route s).

Definition setApiSource (x : string) (s : State) : State :=
  mkState (documents s) (filtered s) (documentMap s) (currentPage s)
    (pageSize s) (searchTerm s) (currentSort s) (activeCategory s)
    (activeDomain s) x (route s).

Definition onWorld (f : World -> World) (p : Page) : Page :=
  mkPage (f (world p)) (categorySelect p) (domainSelect p).

(** Lines 673-680 and 705-712: the non-empty names of all documents, each
    once, in the order met. *)
Definition namesOf (field : Document -> list string)
    (documents : list Document) : list string :=
  fold_left
    (fun acc doc =>
       fold_left
         (fun acc x =>
            if negb (String.eqb x "") then setAdd KStr acc x else acc)
         (field doc) acc)
    documents [].

(** Lines 683-686 and 715-718, one [option] element. *)
Definition optionHtml (x : string) : string :=
  "<option value=" +:+ quoted (escapeHtml x) +:+ ">" +:+ escapeHtml x
  +:+ "</option>".

Definition optionsHtml (first : string) (sorted : list string) : string :=
  join "" (first :: map optionHtml sorted).

Definition allCategories : string :=
  "<option value=" +:+ quoted "all" +:+ ">All categories</option>".

Definition allDomains : string :=
  "<option value=" +:+ quoted "all" +:+ ">All domains</option>".

Section Load.

Variable elements : Elements.
Variable controls : Controls.
Variable collate : string -> string -> Z.
Variable dateParse : string -> option Z.
Variable stripHtml : string -> string.
Variable fetch : string -> result Response.
Variable jsonParse : string -> result value.

(** Lines 667-697. *)
Definition populateCategories (documents : list Document) (p : Page)
  : result Page :=
  if negb (category controls) then Ok p
  else
    let previousValue := selectValue (categorySelect p) in
    let* sortedCategories :=
      sortStrings collate (namesOf categories documents) in
    let html := optionsHtml allCategories sortedCategories in
    let chosen :=
      if existsb (String.eqb previousValue) sortedCategories
      then previousValue else "all" in
    Ok (mkPage (withState (setActiveCategory chosen (st (world p))) (world p))
               (mkSelect chosen html) (domainSelect p)).

(** Lines 699-729. *)
Definition populateDomains (documents : list Document) (p : Page)
  : result Page :=
  if negb (domain controls) then Ok p
  else
    let previousValue := selectValue (domainSelect p) in
    let* sortedDomains := sortStrings collate (namesOf contexts documents) in
    let html := optionsHtml allDomains sortedDomains in
    let chosen :=
      if existsb (String.eqb previousValue) sortedDomains
      then previousValue else "all" in
    Ok (mkPage (withState (setActiveDomain chosen (st (world p))) (world p))
               (categorySelect p) (mkSelect chosen html)).

(** Line 142, the [catch]. *)
Definition loadFailed (p : Page) : Page :=
  onWorld
    (setStatus elements
       "Unable to load resources right now. Please try again later." true
       false) p.

(** Lines 121-146; the spinner, which nothing reads, is left out.  A throw
    anywhere in the [try] ends in [loadFailed], with the state as the throw
    left it. *)
Definition fetchResources (p : Page) : Page :=
  let p := onWorld (setStatus elements "Loading resources..." false false) p in
  match snd (loadPayload fetch jsonParse) with
  | Throw _ => loadFailed p
  | Ok (data, source) =>
      let p := onWorld (fun w => withState (setApiSource source (st w)) w) p in
      match normaliseResources collate dateParse stripHtml data with
      | Throw _ => loadFailed p
      | Ok docs =>
          let p :=
            onWorld
              (fun w =>
                 withState
                   (setCurrentPage 1
                      (setDocuments docs (buildDocumentMap docs) (st w))) w)
              p in
          match populateCategories (documents (st (world p))) p with
          | Throw _ => loadFailed p
          | Ok p =>
              match populateDomains (documents (st (world p))) p with
              | Throw _ => loadFailed p
              | Ok p =>
                  match applyFilters elements collate (world p) with
                  | (w, Some _) => loadFailed (onWorld (fun _ => w) p)
                  | (w, None) =>
                      let p := onWorld (fun _ => w) p in
                      if negb (String.eqb source API_URL)
                      then
                        onWorld
                          (setStatus elements
                             "Loaded via compatibility proxy because the TMF bucket blocks cross-origin requests."
                             false false) p
                      else onWorld (setStatus elements "" false true) p
                  end
              end
          end
      end
  end.

End Load.

End Startup.

(** ** Well-typed payloads and the orders of the sorts *)

Module Shape.

Import Normaliser Browser.











(** The string [localeCompare] sees for an argument [v]. *)
Definition shown (v : value) : string := toStr (defaultArg v (VStr "")).

Section Orders.

Variable collate : string -> string -> Z.

(** [localeCompare] is a consistent comparator: swapping the arguments
    swaps the sign, and the order is transitive. *)
Definition consistent : Prop :=
  (forall a b, Z.sgn (collate b a) = - Z.sgn (collate a b)) /\
  (forall a b c, collate a b <= 0 -> collate b c <= 0 -> collate a c <= 0).

(** The order of [compareStrings(a1, b1) || compareStrings(a2, b2)]. *)
Definition lexBefore (a1 a2 b1 b2 : string) : Prop :=
  collate a1 b1 < 0 \/ (collate a1 b1 = 0 /\ collate a2 b2 <= 0).

(** The order of one [compareStrings], on strings and on values. *)
Definition collatedBefore (a b : string) : Prop := collate a b <= 0.

Definition shownBefore (a b : value) : Prop :=
  collate (shown a) (shown b) <= 0.

(** Line 292. *)
Definition documentBefore (a b : Document) : Prop :=
  lexBefore (shown (documentNumber a)) (shown (apiName a))
            (shown (documentNumber b)) (shown (apiName b)).

(** Line 252. *)
Definition optionBefore (a b : DownloadOption) : Prop :=
  lexBefore (shown (type a)) (shown (name a))
            (shown (type b)) (shown (name b)).


End Orders.

End Shape.


(** ** The events of the page *)

Module App.

Import Normaliser Loader Browser Pager Startup.

(** What can happen to the page once the listeners of lines 40-89 are
    attached. *)
Inductive Event : Type :=
| LoadSettled (fetch : string -> result Response)
| FilterChanged (ev : FilterInput)
| PrevClicked
| NextClicked
| CardClicked (doc : Document)
| HashChangeDelivered
| UrlEdited (hash : string).

Section Platform.

Variable elements : Elements.
Variable controls : Controls.
Variable collate : string -> string -> Z.
Variable dateParse : string -> option Z.
Variable stripHtml : string -> string.
Variable jsonParse : string -> result value.
Variable decodeURIComponent : string -> result string.

(** The user picks a value in a select: the select takes it, then the
    listener runs. *)
Definition pick (ev : FilterInput) (p : Page) : Page :=
  match ev with
  | CategoryChange v =>
      mkPage (world p) (mkSelect v (selectHtml (categorySelect p)))
             (domainSelect p)
  | DomainChange v =>
      mkPage (world p) (categorySelect p)
             (mkSelect v (selectHtml (domainSelect p)))
  | _ => p
  end.

(** One event; an exception that escapes a listener is reported by the
    browser and the state stays as the throw left it.  [LoadSettled] is
    line 45: [fetchResources] run to its end on the network given, then
    [handleRouteChange]. *)
Definition dispatch (p : Page) (e : Event) : Page :=
  match e with
  | LoadSettled fetch =>
      onWorld
        (fun w => fst (handleRouteChange elements decodeURIComponent w))
        (fetchResources elements controls collate dateParse stripHtml fetch
           jsonParse p)
  | FilterChanged ev =>
      onWorld (fun w => fst (onFilterInput elements collate ev w)) (pick ev p)
  | PrevClicked => onWorld (onPrevPage elements) p
  | NextClicked => onWorld (onNextPage elements) p
  | CardClicked doc => onWorld (navigateToDocument elements doc) p
  | HashChangeDelivered =>
      onWorld (fun w => fst (deliverHashChange elements decodeURIComponent w))
              p
  | UrlEdited h =>
      onWorld
        (fun w =>
           fst (handleRouteChange elements decodeURIComponent
                  (mkWorld (st w) (mkWindow h (hashChangeQueued (win w)))
                           (dom w))))
        p
  end.

Definition run (p : Page) (events : list Event) : Page :=
  fold_left dispatch events p.

End Platform.

(** The page as the script finds it: the state of lines 3-15, any hash,
    any content. *)
Definition initialPage (h : string) (d : Dom) (c dm : Select) : Page :=
  mkPage (mkWorld initialState (mkWindow h false) d) c dm.

(** The document map is the index of the collection by id. *)
Definition indexedById (s : State) : Prop :=
  forall rid doc,
    documentMap s !! rid = Some doc <-> In doc (documents s) /\ id doc = rid.

(** What holds of the state at every moment. *)
Definition sound (s : State) : Prop :=
  pageSize s = 10 /\ pageInRange s /\ indexedById s.


End App.


(** ** The shape of a slug *)

Module Slug.

Import Normaliser.

(** [s] is made of lower-case letters and digits with single dashes
    between them, [prevDash] telling that a dash stands just before [s]:
    no dash then, none doubled, none at the end. *)
Fixpoint slugFrom (prevDash : bool) (s : string) : bool :=
  match s with
  | EmptyString => negb prevDash
  | String c r =>
      if Ascii.eqb c "-" then negb prevDash && slugFrom true r
      else isSlugChar c && slugFrom false r
  end.

(** Every character of [s] satisfies [f]. *)
Fixpoint allChars (f : ascii -> bool) (s : string) : bool :=
  match s with
  | EmptyString => true
  | String c r => f c && allChars f r
  end.

Definition slugOrDash (c : ascii) : bool := isSlugChar c || Ascii.eqb c "-".

(** Neither white space nor the separator of hash segments. *)
Definition hashSafe (c : ascii) : bool :=
  negb (isSpace c) && negb (Ascii.eqb c "/").

(** Text the HTML parser takes as it is: no markup, no character
    reference, and neither of the two characters the parser rewrites
    (carriage return and NUL). *)
Definition plainChar (c : ascii) : bool :=
  negb (Ascii.eqb c "<") && negb (Ascii.eqb c "&")
  && negb (Ascii.eqb c (ascii_of_nat 13)) && negb (Ascii.eqb c (ascii_of_nat 0)).


(** A well-formed slug: not empty, no dash at either end. *)
Definition isSlug (s : string) : bool := slugFrom true s.

(** The same with a dash allowed at the end: what [collapseRuns]
    gives. *)
Fixpoint separated (prevDash : bool) (s : string) : bool :=
  match s with
  | EmptyString => true
  | String c r =>
      if Ascii.eqb c "-" then negb prevDash && separated true r
      else isSlugChar c && separated false r
  end.

(** [dropLeadingDash] at the other end. *)
Fixpoint dropTrailingDash (s : string) : string :=
  match s with
  | EmptyString => EmptyString
  | String c r =>
      if Ascii.eqb c "-" && String.eqb r "" then EmptyString
      else String c (dropTrailingDash r)
  end.

End Slug.


(** ** What [buildDocument] assembles *)

Module Built.

Import Normaliser.

(** Line 192: the label an entry files its version under. *)
Definition versionKey (entry : value) : value :=
  or (get entry "version_info") (VStr "Unversioned").

(** Lines 217-225: the download options an entry pushes. *)
Definition entryOptions (entry : value) : list DownloadOption :=
  match or (get entry "options") (VArr 0 []) with
  | VArr _ options => map makeOption options
  | _ => []
  end.

(** The entries of [es] filed under the label [k], in fold order. *)
Definition labelled (k : mapkey) (es : list (string * value)) : list value :=
  map snd (List.filter
             (fun ce => bool_decide (keyOf (versionKey (snd ce)) = k)) es).

(** The first non-empty value the entries hold for the field [name],
    [""] when there is none. *)
Definition fieldOf (name : string) (entries : list value) : value :=
  match firstTruthy (map (fun e => get e name) entries) with
  | Some v => v
  | None => VStr ""
  end.

(** The version record of the entries [entry :: rest] of one label. *)
Definition groupVersion (entry : value) (rest : list value) : Version :=
  {| version := versionKey entry;
     release := fieldOf "release_info" (entry :: rest);
     vlifecycle := fieldOf "lifecycle_status" (entry :: rest);
     published := fieldOf "published_date" (entry :: rest);
     notes := fieldOf "notes" (entry :: rest);
     options := concat (map entryOptions (entry :: rest)) |}.

(** The invariant of the version map of an accumulator after the entries
    [es]: one record per label met, each the group of its entries. *)
Definition versioned (es : list (string * value))
    (vmap : list (value * Version)) : Prop :=
  NoDup (map (fun kv => keyOf (fst kv)) vmap) /\
  (forall ce, In ce es ->
     In (keyOf (versionKey (snd ce))) (map (fun kv => keyOf (fst kv)) vmap)) /\
  (forall k v, In (k, v) vmap ->
     exists e rest,
       labelled (keyOf k) es = e :: rest /\ v = groupVersion e rest).

Section Platform.

Variable collate : string -> string -> Z.
Variable dateParse : string -> option Z.
Variable stripHtml : string -> string.

(** Lines 240-289: the lists and derived fields of the document [d] built
    from the accumulator [kd], each as the call that computes it. *)
Definition assembled (kd : value * DocAcc) (d : Document) : Prop :=
  key d = fst kd /\
  (exists vs,
     sortM (compareVersions collate dateParse)
           (map snd (aversions (snd kd))) = Ok vs /\
     mapM (sortOptions collate) vs = Ok (versions d)) /\
  sortValues collate (fold_left addOptionTypes (versions d) [])
    = Ok (optionTypes d) /\
  sortStrings collate (acontexts (snd kd)) = Ok (contexts d) /\
  latestOf dateParse (versions d) = Ok (latestPublished d) /\
  sortStrings collate (acategories (snd kd)) = Ok (categories d) /\
  sortValues collate (alifecycle (snd kd)) = Ok (lifecycle d) /\
  primaryType d = or (get0 (VArr 0 (optionTypes d))) (VStr "") /\
  searchIndex d =
    toLowerCase (stripHtml (join " "
      [ elemStr (adocumentNumber (snd kd));
        elemStr (aapiName (snd kd));
        elemStr (adescription (snd kd));
        join " " (acategories (snd kd));
        join " " (contexts d);
        join " " (map elemStr (alifecycle (snd kd)));
        join " " (map (fun v => elemStr (version v)) (versions d));
        join " " (map elemStr (optionTypes d)) ])).

End Platform.

End Built.


(** ** The summary of the detail panel *)

Module Detail.

Import Normaliser Loader.



End Detail.


(** ** A sample page *)

Module SamplePage.

Import Normaliser Loader Browser Startup App Sample.



(** A page with both selects, the category select on [Core]. *)
Definition everyControl : Controls := mkControls true true.

Definition startPage : Page :=
  initialPage "" blankDom (mkSelect "Core" "") (mkSelect "all" "").

(** The loaded catalogue on the index route. *)
Definition indexWorld : World :=
  mkWorld (loadedState Index 1 "all") (mkWindow "#/" false) blankDom.

End SamplePage.


(* ===================================================================== *)
(** * Facts about the JavaScript fragment and the normaliser *)
(* ===================================================================== *)

Import Normaliser.

Module JsFacts.

Lemma bind_Ok {A B} (m : result A) (f : A -> result B) b :
  bind m f = Ok b -> exists a, m = Ok a /\ f a = Ok b.
Proof. destruct m as [a|e]; simpl; [eauto | discriminate]. Qed.

Ltac inv_bind H :=
  let a := fresh "x" in
  let Ha := fresh "E" in
  apply bind_Ok in H; destruct H as (a & Ha & H).

Lemma foldM_app {A B} (f : B -> A -> result B) xs ys b :
  foldM f (xs ++ ys) b = bind (foldM f xs b) (foldM f ys).
Proof.
  revert b; induction xs as [|x xs IH]; intros b; simpl; [reflexivity|].
  destruct (f b x); simpl; auto.
Qed.

(** An invariant of the accumulator that each callback preserves holds at
    the end, indexed by the elements consumed so far. *)
Lemma foldM_ind {A B} (f : B -> A -> result B) (P : list A -> B -> Prop) :
  forall xs b0 bn,
  P [] b0 ->
  (forall pre x b b', P pre b -> f b x = Ok b' -> P (pre ++ [x]) b') ->
  foldM f xs b0 = Ok bn -> P xs bn.
Proof.
  intros xs b0 bn H0 Hstep.
  assert (G : forall ys pre b, P pre b -> foldM f ys b = Ok bn -> P (pre ++ ys) bn).
  { induction ys as [|y ys IH]; intros pre b Hb Hf; simpl in Hf.
    - injection Hf as <-. rewrite app_nil_r. exact Hb.
    - inv_bind Hf. replace (pre ++ y :: ys) with ((pre ++ [y]) ++ ys)
        by (rewrite <- app_assoc; reflexivity).
      eapply IH; eauto. }
  intros Hf. exact (G xs [] b0 H0 Hf).
Qed.

Section SortFacts.
Context {A : Type}.
Variable cmp : A -> A -> result Z.

Lemma insertM_perm x l l' : insertM cmp x l = Ok l' -> l' ≡ₚ x :: l.
Proof.
  revert l'; induction l as [|y r IH]; intros l' H; simpl in H.
  - injection H as <-. reflexivity.
  - inv_bind H. destruct (x0 <=? 0).
    + injection H as <-. reflexivity.
    + inv_bind H. injection H as <-.
      rewrite (IH _ E0). apply Permutation_swap.
Qed.

Lemma sortM_perm l l' : sortM cmp l = Ok l' -> l' ≡ₚ l.
Proof.
  revert l'; induction l as [|x r IH]; intros l' H; simpl in H.
  - injection H as <-. reflexivity.
  - inv_bind H. rewrite (insertM_perm _ _ _ H). constructor. auto.
Qed.

Variable R : A -> A -> Prop.
Hypothesis R_trans : forall a b c, R a b -> R b c -> R a c.
Hypothesis cmp_le : forall x y c, cmp x y = Ok c -> c <= 0 -> R x y.
Hypothesis cmp_gt : forall x y c, cmp x y = Ok c -> 0 < c -> R y x.

Lemma insertM_sorted x l l' :
  StronglySorted R l -> insertM cmp x l = Ok l' -> StronglySorted R l'.
Proof.
  revert l'; induction l as [|y r IH]; intros l' Hs H; simpl in H.
  - injection H as <-. repeat constructor.
  - inv_bind H. apply StronglySorted_inv in Hs as [Hr Hy].
    destruct (x0 <=? 0) eqn:Ec.
    + injection H as <-. apply Z.leb_le in Ec.
      pose proof (cmp_le _ _ _ E Ec) as Hxy.
      constructor; [constructor; assumption|].
      constructor; [exact Hxy|].
      eapply Forall_impl; [exact Hy|]. intros z Hz. eauto.
    + inv_bind H. injection H as <-. apply Z.leb_gt in Ec.
      pose proof (cmp_gt _ _ _ E Ec) as Hyx.
      constructor; [eauto|].
      eapply Permutation_Forall; [symmetry; eapply insertM_perm; eauto|].
      constructor; assumption.
Qed.

Lemma sortM_sorted l l' : sortM cmp l = Ok l' -> StronglySorted R l'.
Proof.
  revert l'; induction l as [|x r IH]; intros l' H; simpl in H.
  - injection H as <-. constructor.
  - inv_bind H. eapply insertM_sorted; eauto.
Qed.
End SortFacts.

Lemma StronglySorted_lookup {A} (R : A -> A -> Prop) l i j a b :
  StronglySorted R l -> l !! i = Some a -> l !! j = Some b ->
  (i < j)%nat -> R a b.
Proof.
  intros Hs. revert i j.
  induction Hs as [|v r Hr IH Hall]; intros i j Hi Hj Hlt; [discriminate|].
  destruct i as [|i], j as [|j]; try lia.
  - injection Hi as ->. simpl in Hj.
    rewrite Forall_forall in Hall. apply Hall.
    eapply list_elem_of_lookup_2. exact Hj.
  - simpl in Hi, Hj. apply (IH i j); [assumption..|lia].
Qed.


Lemma foldM_concatM {A B C} (g : C -> A -> result C)
    (f : A -> result (list B)) (step : C -> B -> result C) :
  (forall x c c', g c x = Ok c' ->
     exists l, f x = Ok l /\ foldM step l c = Ok c') ->
  forall xs c c', foldM g xs c = Ok c' ->
  exists L, concatM f xs = Ok L /\ foldM step L c = Ok c'.
Proof.
  intros Hg xs; induction xs as [|x r IH]; intros c c' H; simpl in H.
  - injection H as <-. exists []. split; reflexivity.
  - inv_bind H. destruct (Hg _ _ _ E) as (l & Hl & Hfl).
    destruct (IH _ _ H) as (L & HL & HfL).
    exists (l ++ L). simpl. rewrite Hl, HL. simpl. split; [reflexivity|].
    rewrite foldM_app, Hfl. exact HfL.
Qed.

Lemma foldM_map {A A' B} (h : A -> A') (f : B -> A' -> result B) xs b :
  foldM f (map h xs) b = foldM (fun b x => f b (h x)) xs b.
Proof.
  revert b; induction xs as [|x r IH]; intros b; simpl; [reflexivity|].
  destruct (f b (h x)); simpl; auto.
Qed.


Section CollectionFacts.
Context {A V : Type}.
Variable key : A -> mapkey.

Lemma setHas_true (s : list A) x :
  setHas key s x = true <-> In (key x) (map key s).
Proof.
  unfold setHas. rewrite existsb_exists, in_map_iff.
  split; intros (y & H1 & H2).
  - exists y. apply bool_decide_eq_true in H2. auto.
  - exists y. split; [exact H2|]. apply bool_decide_eq_true. exact H1.
Qed.

Lemma setAdd_keys (s : list A) y k :
  In k (map key (setAdd key s y)) <-> In k (map key s) \/ k = key y.
Proof.
  unfold setAdd. destruct (setHas key s y) eqn:E.
  - apply setHas_true in E. split; [auto|]. intros [H| ->]; assumption.
  - rewrite map_app, in_app_iff. simpl. intuition.
Qed.

Lemma mapGet_None (m : list (A * V)) k :
  mapGet key m k = None <-> ~ In (key k) (map (fun kv => key (fst kv)) m).
Proof.
  induction m as [|[k' v'] r IH]; simpl; [tauto|].
  destruct (bool_decide (key k' = key k)) eqn:E.
  - apply bool_decide_eq_true in E. split; [discriminate|]. tauto.
  - apply bool_decide_eq_false in E. rewrite IH. tauto.
Qed.

Lemma mapGet_Some_In (m : list (A * V)) k v :
  mapGet key m k = Some v -> exists k', In (k', v) m /\ key k' = key k.
Proof.
  induction m as [|[k' v'] r IH]; simpl; [discriminate|].
  destruct (bool_decide (key k' = key k)) eqn:E.
  - apply bool_decide_eq_true in E. intros [= ->]. eauto.
  - intros H. destruct (IH H) as (k'' & Hin & Hk). eauto.
Qed.

Lemma mapSet_absent (m : list (A * V)) k v :
  mapGet key m k = None -> mapSet key m k v = m ++ [(k, v)].
Proof.
  induction m as [|[k' v'] r IH]; simpl; [reflexivity|].
  destruct (bool_decide (key k' = key k)); [discriminate|].
  intros H. rewrite IH by exact H. reflexivity.
Qed.

Lemma mapSet_present_keys (m : list (A * V)) k v v0 :
  mapGet key m k = Some v0 -> map fst (mapSet key m k v) = map fst m.
Proof.
  induction m as [|[k' v'] r IH]; simpl; [discriminate|].
  destruct (bool_decide (key k' = key k)); [reflexivity|].
  intros H. simpl. rewrite IH by exact H. reflexivity.
Qed.

Lemma mapSet_present_In (m : list (A * V)) k v v0 k1 v1 :
  NoDup (map (fun kv => key (fst kv)) m) ->
  mapGet key m k = Some v0 ->
  In (k1, v1) (mapSet key m k v) ->
  (In (k1, v1) m /\ key k1 <> key k) \/
  (key k1 = key k /\ v1 = v /\ In (k1, v0) m).
Proof.
  induction m as [|[k' v'] r IH]; simpl; [discriminate|].
  intros Hnd Hget Hin. apply NoDup_cons in Hnd as [Hnotin Hnd].
  simpl in Hnotin.
  destruct (bool_decide (key k' = key k)) eqn:E.
  - apply bool_decide_eq_true in E. injection Hget as ->.
    destruct Hin as [[= <- <-]|Hin]; [right; auto|].
    left. split; [auto|]. intros Hk. apply Hnotin.
    apply list_elem_of_In. rewrite E, <- Hk.
    apply (in_map (fun kv => key (fst kv)) _ _ Hin).
  - apply bool_decide_eq_false in E.
    destruct Hin as [[= <- <-]|Hin]; [left; auto|].
    destruct (IH Hnd Hget Hin) as [[H1 H2]|(H1 & H2 & H3)]; [left|right]; auto.
Qed.
End CollectionFacts.

End JsFacts.

Module NormaliserFacts.
Import JsFacts.

(** The three nested loops fold [foldStep] over [payloadEntries]. *)
Lemma collectDocuments_entries payload m :
  collectDocuments payload = Ok m ->
  exists es, payloadEntries payload = Ok es /\ foldM foldStep es [] = Ok m.
Proof.
  unfold collectDocuments, payloadEntries.
  apply foldM_concatM. intros [c g] acc acc' H.
  unfold foldCategory in H. unfold categoryEntries. simpl.
  revert H. apply foldM_concatM. intros entries acc1 acc2 H.
  unfold foldGroup in H. inv_bind H.
  exists (map (pair c) x). unfold groupEntries. rewrite E. simpl.
  split; [reflexivity|]. rewrite foldM_map. exact H.
Qed.


(** What [mergeEntry] does to each field. *)
Lemma mergeEntry_fields c e doc doc' :
  mergeEntry c e doc = Ok doc' ->
  akey doc' = akey doc /\
  adocumentNumber doc' = adocumentNumber doc /\
  aapiName doc' = aapiName doc /\
  adescription doc' = fillIfEmpty (adescription doc) (entryDescription e) /\
  acategories doc' =
    (if negb (String.eqb c "") then setAdd KStr (acategories doc) c
     else acategories doc) /\
  acontexts doc' = fold_left (setAdd KStr) (entryContexts e) (acontexts doc) /\
  alifecycle doc' =
    (if truthy (get e "lifecycle_status")
     then setAdd keyOf (alifecycle doc) (get e "lifecycle_status")
     else alifecycle doc).
Proof.
  unfold mergeEntry. intros H. inv_bind H. injection H as <-. simpl.
  repeat split; reflexivity.
Qed.

Lemma contributing_app k es1 es2 :
  contributing k (es1 ++ es2) = contributing k es1 ++ contributing k es2.
Proof. apply List.filter_app. Qed.

Lemma contributing_nil k es :
  (forall ce, In ce es -> keyOf (entryKey (snd ce)) <> k) ->
  contributing k es = [].
Proof.
  induction es as [|ce r IH]; intros H; simpl; [reflexivity|].
  rewrite bool_decide_eq_false_2 by (apply H; left; reflexivity).
  apply IH. intros ce' Hin. apply H. right. exact Hin.
Qed.

Lemma collected_step es m ce m' :
  collected es m -> foldStep m ce = Ok m' -> collected (es ++ [ce]) m'.
Proof.
  intros (Hnd & Hcov & Hdocs) Hstep. destruct ce as [c e].
  unfold foldStep, foldEntry in Hstep. simpl in Hstep. inv_bind Hstep.
  injection Hstep as <-. rename x into doc'.
  set (k := entryKey e) in *.
  destruct (mapGet keyOf m k) as [doc|] eqn:Eg.
  - (* the key is known *)
    destruct (mapGet_Some_In _ _ _ _ Eg) as (k0 & Hin0 & Hk0).
    assert (Hkeys : map (fun kd => keyOf (fst kd)) (mapSet keyOf m k doc')
                    = map (fun kd => keyOf (fst kd)) m).
    { rewrite <- !(map_map fst keyOf).
      rewrite (mapSet_present_keys _ _ _ _ _ Eg). reflexivity. }
    split; [rewrite Hkeys; exact Hnd|]. split.
    + intros ce Hin. rewrite Hkeys. apply in_app_iff in Hin as [Hin|[<-|[]]].
      * apply Hcov, Hin.
      * simpl. fold k. rewrite <- Hk0.
        apply (in_map (fun kd => keyOf (fst kd)) _ _ Hin0).
    + intros k1 d1 Hin.
      destruct (mapSet_present_In _ _ _ _ _ _ _ Hnd Eg Hin)
        as [[Hin1 Hne]|(Heq & -> & Hin1)].
      * destruct (Hdocs _ _ Hin1) as (Hk1 & c1 & e1 & rest & Hc & Hf).
        split; [exact Hk1|]. exists c1, e1, rest. split; [|exact Hf].
        rewrite contributing_app, Hc. simpl.
        rewrite bool_decide_eq_false_2 by (fold k; congruence).
        rewrite app_nil_r. reflexivity.
      * destruct (Hdocs _ _ Hin1) as (Hk1 & c1 & e1 & rest & Hc & Hf).
        destruct (mergeEntry_fields _ _ _ _ E) as (Hak & _).
        split; [congruence|].
        exists c1, e1, (rest ++ [(c, e)]). split.
        -- rewrite contributing_app, Hc. simpl.
           rewrite bool_decide_eq_true_2 by (fold k; congruence).
           reflexivity.
        -- change ((c1, e1) :: rest ++ [(c, e)])
             with (((c1, e1) :: rest) ++ [(c, e)]).
           rewrite foldM_app, Hf. simpl. unfold mergeStep at 1. simpl.
           rewrite E. reflexivity.
  - (* the key is new *)
    rewrite (mapSet_absent _ _ _ _ Eg).
    pose proof (proj1 (mapGet_None _ _ _) Eg) as Hnotin.
    destruct (mergeEntry_fields _ _ _ _ E) as (Hak & _). simpl in Hak.
    split; [|split].
    + rewrite map_app. simpl. apply NoDup_app. split; [exact Hnd|].
      split; [|apply NoDup_singleton].
      intros x Hx Hx'. apply list_elem_of_In in Hx, Hx'.
      destruct Hx' as [<-|[]]. exact (Hnotin Hx).
    + intros ce Hin. rewrite map_app, in_app_iff.
      apply in_app_iff in Hin as [Hin|[<-|[]]]; [left; apply Hcov, Hin|].
      right. left. reflexivity.
    + intros k1 d1 Hin. apply in_app_iff in Hin as [Hin|[[= <- <-]|[]]].
      * destruct (Hdocs _ _ Hin) as (Hk1 & c1 & e1 & rest & Hc & Hf).
        split; [exact Hk1|]. exists c1, e1, rest. split; [|exact Hf].
        rewrite contributing_app, Hc. simpl.
        rewrite bool_decide_eq_false_2.
        { rewrite app_nil_r. reflexivity. }
        fold k. intros Heq. apply Hnotin. rewrite Heq.
        apply (in_map (fun kd => keyOf (fst kd)) _ _ Hin).
      * split; [symmetry; exact Hak|].
        exists c, e, []. split.
        -- rewrite contributing_app, contributing_nil.
           { simpl. rewrite bool_decide_eq_true_2 by reflexivity. reflexivity. }
           intros ce Hin Heq. apply Hnotin. rewrite <- Heq. apply Hcov, Hin.
        -- simpl. unfold mergeStep. simpl. rewrite E. reflexivity.
Qed.

Lemma collected_fold es m :
  foldM foldStep es [] = Ok m -> collected es m.
Proof.
  apply (foldM_ind foldStep collected).
  - split; [constructor|]. split; [intros ? []|intros ? ? []].
  - intros pre x b b'. apply collected_step.
Qed.


Lemma In_KStr (x : string) l : In (KStr x) (map KStr l) <-> In x l.
Proof.
  rewrite in_map_iff. split.
  - intros (y & [= ->] & H). exact H.
  - intros H. exists x. auto.
Qed.

Lemma setAdd_strings s y x : In x (setAdd KStr s y) <-> In x s \/ x = y.
Proof.
  rewrite <- !In_KStr, setAdd_keys. split; (intros [H|H]; [left; exact H|right]);
    congruence.
Qed.

Lemma fold_setAdd_strings xs s x :
  In x (fold_left (setAdd KStr) xs s) <-> In x s \/ In x xs.
Proof.
  revert s; induction xs as [|y r IH]; intros s; simpl; [tauto|].
  rewrite IH, setAdd_strings. intuition.
Qed.

(** The fields of an accumulator after the entries [es], from those it
    started with. *)
Lemma merged_fields es d0 d :
  foldM mergeStep es d0 = Ok d ->
  akey d = akey d0 /\
  adocumentNumber d = adocumentNumber d0 /\
  aapiName d = aapiName d0 /\
  adescription d = mergedDescription (adescription d0) es /\
  (forall x, In x (acategories d) <->
     In x (acategories d0) \/ (x <> "" /\ exists e, In (x, e) es)) /\
  (forall x, In x (acontexts d) <->
     In x (acontexts d0) \/
     exists c e, In (c, e) es /\ In x (entryContexts e)) /\
  (forall k, In k (map keyOf (alifecycle d)) <->
     In k (map keyOf (alifecycle d0)) \/
     exists c e, In (c, e) es /\
       truthy (get e "lifecycle_status") = true /\
       keyOf (get e "lifecycle_status") = k).
Proof.
  revert d0; induction es as [|[c e] r IH]; intros d0 H; simpl in H.
  - injection H as <-. unfold mergedDescription. simpl.
    repeat split; try tauto; try (destruct (truthy _); reflexivity).
    + intros [H|(_ & ? & [])]; exact H.
    + intros [H|(? & ? & [] & _)]; exact H.
    + intros [H|(? & ? & [] & _)]; exact H.
  - inv_bind H. rename x into d1. unfold mergeStep in E. simpl in E.
    destruct (mergeEntry_fields _ _ _ _ E) as (K1 & K2 & K3 & K4 & K5 & K6 & K7).
    destruct (IH _ H) as (J1 & J2 & J3 & J4 & J5 & J6 & J7).
    split; [congruence|]. split; [congruence|]. split; [congruence|].
    split; [|split; [|split]].
    + rewrite J4, K4. unfold mergedDescription, fillIfEmpty, firstTruthy. simpl.
      destruct (truthy (adescription d0)) eqn:E0; simpl.
      * rewrite E0. reflexivity.
      * destruct (truthy (entryDescription e)) eqn:E1; simpl.
        -- rewrite E1. reflexivity.
        -- rewrite E0. reflexivity.
    + intros x. rewrite J5, K5. split.
      * intros [Hx|(Hne & e' & Hin)].
        -- destruct (String.eqb_spec c ""); simpl in Hx; [left; exact Hx|].
           apply setAdd_strings in Hx as [Hx| ->]; [left; exact Hx|].
           right. split; [assumption|]. exists e. left. reflexivity.
        -- right. split; [exact Hne|]. exists e'. right. exact Hin.
      * intros [Hx|(Hne & e' & [[= <- <-]|Hin])].
        -- left. destruct (negb _); [apply setAdd_strings; left|]; exact Hx.
        -- left. destruct (String.eqb_spec c ""); [contradiction|]. simpl.
           apply setAdd_strings. right. reflexivity.
        -- right. eauto.
    + intros x. rewrite J6, K6, fold_setAdd_strings. split.
      * intros [[Hx|Hx]|(c' & e' & Hin & Hx)]; [left; exact Hx| |].
        -- right. exists c, e. split; [left; reflexivity|exact Hx].
        -- right. exists c', e'. split; [right; exact Hin|exact Hx].
      * intros [Hx|(c' & e' & [[= <- <-]|Hin] & Hx)]; [left; left; exact Hx| |].
        -- left. right. exact Hx.
        -- right. eauto.
    + intros k. rewrite J7, K7. split.
      * intros [Hk|(c' & e' & Hin & Ht & Hk)].
        -- destruct (truthy (get e "lifecycle_status")) eqn:Et; [|left; exact Hk].
           apply setAdd_keys in Hk as [Hk| ->]; [left; exact Hk|].
           right. exists c, e. split; [left; reflexivity|]. auto.
        -- right. exists c', e'. split; [right; exact Hin|]. auto.
      * intros [Hk|(c' & e' & [[= <- <-]|Hin] & Ht & Hk)].
        -- left. destruct (truthy _); [apply setAdd_keys; left|]; exact Hk.
        -- left. rewrite Ht. apply setAdd_keys. right. symmetry. exact Hk.
        -- right. eauto.
Qed.


(** ** The slug loop *)

Lemma length_append s1 s2 :
  String.length (s1 +:+ s2) = (String.length s1 + String.length s2)%nat.
Proof. induction s1 as [|c r IH]; simpl; [reflexivity|]. rewrite IH. reflexivity. Qed.

Lemma maxLength_le (used : gset string) s :
  s ∈ used -> (String.length s <= maxLength used)%nat.
Proof.
  intros H. unfold maxLength. apply max_list_elem_of_le.
  apply list_elem_of_fmap. exists s. split; [reflexivity|].
  apply elem_of_elements. exact H.
Qed.

Lemma appendTimes_S k suffix slug :
  appendTimes (S k) suffix slug = appendTimes k suffix slug +:+ suffix.
Proof.
  revert slug; induction k as [|k IH]; intros slug; [reflexivity|].
  change (appendTimes (S (S k)) suffix slug)
    with (appendTimes (S k) suffix (slug +:+ suffix)).
  rewrite IH. reflexivity.
Qed.

(** With fuel enough to outgrow every used slug, the loop ends on an
    unused slug: the start followed by [k] copies of the suffix, every
    shorter candidate being taken. *)
Lemma slugLoop_spec fuel (used : gset string) slug :
  (forall s, s ∈ used -> (String.length s < String.length slug + fuel)%nat) ->
  let suffix := "-" +:+ pretty (size used + 1)%nat in
  exists k,
    slugLoop fuel used slug = appendTimes k suffix slug /\
    (appendTimes k suffix slug ∉ used) /\
    (forall j, (j < k)%nat -> appendTimes j suffix slug ∈ used).
Proof.
  revert slug; induction fuel as [|fuel IH]; intros slug Hlen suffix.
  - exists O. simpl. split; [reflexivity|]. split; [|lia].
    intros Hin. specialize (Hlen _ Hin). lia.
  - simpl. destruct (bool_decide (slug ∈ used)) eqn:E.
    + apply bool_decide_eq_true in E.
      destruct (IH (slug +:+ suffix)) as (k & Hk & Hfresh & Hbelow).
      { intros s Hs. specialize (Hlen _ Hs). rewrite length_append.
        unfold suffix. simpl. lia. }
      exists (S k). split; [exact Hk|]. split; [exact Hfresh|].
      intros [|j] Hj; [exact E|]. apply Hbelow. lia.
    + apply bool_decide_eq_false in E.
      exists O. split; [reflexivity|]. split; [exact E|lia].
Qed.

Lemma uniqueSlug_spec (used : gset string) slug :
  let suffix := "-" +:+ pretty (size used + 1)%nat in
  exists k,
    uniqueSlug used slug = appendTimes k suffix slug /\
    (appendTimes k suffix slug ∉ used) /\
    (forall j, (j < k)%nat -> appendTimes j suffix slug ∈ used).
Proof.
  apply slugLoop_spec. intros s Hs. pose proof (maxLength_le _ _ Hs). lia.
Qed.

Lemma uniqueSlug_fresh (used : gset string) slug : uniqueSlug used slug ∉ used.
Proof.
  destruct (uniqueSlug_spec used slug) as (k & -> & H & _). exact H.
Qed.

Section PlatformFacts.
Variable collate : string -> string -> Z.
Variable dateParse : string -> option Z.
Variable stripHtml : string -> string.

#[local] Abbreviation buildDocument := (buildDocument collate dateParse stripHtml).
#[local] Abbreviation describes := (describes collate dateParse).
#[local] Abbreviation builtFrom := (builtFrom collate dateParse).
#[local] Abbreviation normaliseResources := (normaliseResources collate dateParse stripHtml).

Lemma buildDocument_inv used docs kd used' docs' :
  buildDocument (used, docs) kd = Ok (used', docs') ->
  exists d base,
    docs' = docs ++ [d] /\ used' = {[id d]} ∪ used /\
    createSlug (fst kd) = Ok base /\ id d = uniqueSlug used base /\
    describes kd d.
Proof.
  destruct kd as [k doc]. unfold Normaliser.buildDocument. intros H.
  inv_bind H. rename x into base.
  inv_bind H. rename x into vs.
  inv_bind H. rename x into vs'.
  inv_bind H. rename x into types.
  inv_bind H. rename x into ctxs.
  inv_bind H. rename x into latest.
  inv_bind H. rename x into cats.
  inv_bind H. rename x into lifes.
  injection H as <- <-.
  eexists _, base. split; [reflexivity|]. simpl.
  split; [reflexivity|]. split; [exact E|]. split; [reflexivity|].
  unfold Normaliser.describes. simpl.
  repeat split; try reflexivity.
  - eapply sortM_perm; eassumption.
  - eapply sortM_perm; eassumption.
  - eapply sortM_perm; eassumption.
  - exists vs. split; assumption.
Qed.

Lemma builtFrom_step pre st kd st' :
  builtFrom pre st -> buildDocument st kd = Ok st' ->
  builtFrom (pre ++ [kd]) st'.
Proof.
  destruct st as [used docs], st' as [used' docs'].
  intros (HF & Hnd & Hused & Hsize & Hshape) H.
  destruct (buildDocument_inv _ _ _ _ _ H) as (d & base & -> & -> & Hb & Hid & Hd).
  simpl in *.
  pose proof (uniqueSlug_fresh used base) as Hfresh. rewrite <- Hid in Hfresh.
  split; [|split; [|split; [|split]]]; simpl.
  - apply Forall2_app; [exact HF|]. constructor; [exact Hd|constructor].
  - rewrite map_app. simpl. apply NoDup_app. split; [exact Hnd|].
    split; [|apply NoDup_singleton].
    intros x Hx Hx'. apply list_elem_of_In in Hx.
    apply list_elem_of_In in Hx'. destruct Hx' as [<-|[]].
    apply Hfresh, Hused, Hx.
  - intros s. rewrite map_app, in_app_iff, elem_of_union, elem_of_singleton.
    simpl. rewrite Hused. intuition.
  - rewrite length_app, size_union by (apply disjoint_singleton_l; exact Hfresh).
    rewrite size_singleton. simpl. lia.
  - intros i d' Hi.
    destruct (decide (i < length docs)%nat) as [Hlt|Hge].
    + rewrite lookup_app_l in Hi by exact Hlt.
      destruct (Hshape _ _ Hi) as (b' & k & H1 & H2 & H3).
      exists b', k. split; [exact H1|]. split; [exact H2|].
      intros j Hj. rewrite take_app_le by lia. apply H3, Hj.
    + rewrite lookup_app_r in Hi by lia.
      destruct (i - length docs)%nat as [|n] eqn:En; [|destruct n; discriminate].
      injection Hi as <-.
      assert (i = length docs) as -> by lia.
      destruct Hd as (Hkey & _). rewrite Hkey.
      destruct (uniqueSlug_spec used base) as (k & Hk & _ & Hbelow).
      rewrite Hsize in Hk, Hbelow.
      exists base, k. split; [exact Hb|]. split; [congruence|].
      intros j Hj. rewrite take_app_le, firstn_all by lia.
      apply Hused, Hbelow, Hj.
Qed.

Lemma builtFrom_fold m st :
  foldM buildDocument m (∅, []) = Ok st -> builtFrom m st.
Proof.
  apply (foldM_ind buildDocument builtFrom).
  - split; [constructor|]. split; [constructor|].
    split; [|split; [reflexivity|]].
    + intros s. simpl. set_solver.
    + intros i d Hi. discriminate.
  - intros pre x b b'. apply builtFrom_step.
Qed.

(** What a successful run went through. *)
Lemma normaliseResources_inv payload docs :
  normaliseResources payload = Ok docs ->
  exists es m st,
    payloadEntries payload = Ok es /\ collected es m /\
    builtFrom m st /\ docs ≡ₚ snd st.
Proof.
  unfold Normaliser.normaliseResources. intros H.
  inv_bind H. rename x into m. inv_bind H. rename x into st.
  destruct (collectDocuments_entries _ _ E) as (es & Hes & Hfold).
  exists es, m, st. split; [exact Hes|].
  split; [apply collected_fold, Hfold|].
  split; [apply builtFrom_fold, E0|].
  eapply sortM_perm; eassumption.
Qed.


Lemma Forall2_In_r {A B} (P : A -> B -> Prop) l l' y :
  Forall2 P l l' -> In y l' -> exists x, In x l /\ P x y.
Proof.
  induction 1 as [|x y' l l' Hxy HF IH]; intros Hin; [destruct Hin|].
  destruct Hin as [<-|Hin]; [exists x; split; [left; reflexivity|exact Hxy]|].
  destruct (IH Hin) as (x' & Hx' & HP). exists x'. split; [right|]; assumption.
Qed.

Lemma describes_keys m docs0 :
  Forall2 describes m docs0 ->
  map (fun d => keyOf (key d)) docs0 = map (fun kd => keyOf (fst kd)) m.
Proof.
  induction 1 as [|kd d m docs0 (Hk & _) HF IH]; simpl; [reflexivity|].
  rewrite Hk, IH. reflexivity.
Qed.

Lemma or_truthy a b : truthy a = true -> or a b = a.
Proof. intros H. unfold or. rewrite H. reflexivity. Qed.

Lemma entryKey_documentNumber e :
  entryKey e = entryDocumentNumber e /\ truthy (entryDocumentNumber e) = true.
Proof.
  assert (H : truthy (entryDocumentNumber e) = true).
  { unfold entryDocumentNumber, or.
    repeat match goal with |- context [if ?b then _ else _] =>
      let E := fresh in destruct b eqn:E; try assumption end.
    reflexivity. }
  split; [|exact H]. unfold entryKey, or. rewrite H. reflexivity.
Qed.

Lemma entryApiName_truthy e : truthy (entryApiName e) = true.
Proof.
  unfold entryApiName, or.
  destruct (truthy (get (get e "api_description") "api_name")) eqn:E;
    [exact E|apply entryKey_documentNumber].
Qed.

(** Where a document comes from: the entries of its key, the first of
    which gave the accumulator its start. *)
Lemma document_origin payload docs :
  normaliseResources payload = Ok docs ->
  exists es,
    payloadEntries payload = Ok es /\
    NoDup (map (fun d => keyOf (key d)) docs) /\
    (forall ce, In ce es ->
       In (keyOf (entryKey (snd ce))) (map (fun d => keyOf (key d)) docs)) /\
    (forall d, In d docs ->
       exists doc c e rest,
         contributing (keyOf (key d)) es = (c, e) :: rest /\
         key d = entryKey e /\
         foldM mergeStep ((c, e) :: rest) (newDoc e) = Ok doc /\
         describes (key d, doc) d).
Proof.
  intros H.
  destruct (normaliseResources_inv _ _ H)
    as (es & m & [used docs0] & Hes & (Hnd & Hcov & Hdocs) & (HF & _) & Hperm).
  cbn [fst snd] in *. exists es. split; [exact Hes|].
  assert (Hkeys : map (fun d => keyOf (key d)) docs ≡ₚ
                  map (fun kd => keyOf (fst kd)) m).
  { rewrite <- (describes_keys _ _ HF). apply Permutation_map, Hperm. }
  split; [rewrite Hkeys; exact Hnd|]. split.
  - intros ce Hin. eapply Permutation_in; [symmetry; exact Hkeys|].
    apply Hcov, Hin.
  - intros d Hd.
    assert (Hd0 : In d docs0) by (eapply Permutation_in; eassumption).
    destruct (Forall2_In_r _ _ _ _ HF Hd0) as ([k doc] & Hin & Hdesc).
    destruct (Hdocs _ _ Hin) as (Hk & c & e & rest & Hc & Hf).
    pose proof Hdesc as (Hkey & _). simpl in Hkey.
    destruct (merged_fields _ _ _ Hf) as (Hak & _). simpl in Hak.
    exists doc, c, e, rest. rewrite Hkey.
    split; [exact Hc|]. split; [congruence|]. split; [exact Hf|exact Hdesc].
Qed.


(** C1.  The key of an entry is its document number if non-empty (truthy;
    for a string, not [""]), else its API name, else the name of its first
    download option, else ["Untitled"]; [documentNumber] is the same
    value.  With no document number, no API name and no first option both
    are ["Untitled"].  Every document produced has the key of one of the
    entries, as its [key] and as its [documentNumber]. *)
Theorem entry_key_fallback_chain (entry : value) :
  let number := get entry "document_number" in
  let name := get (get entry "api_description") "api_name" in
  let optionName := get (get0 (get entry "options")) "name" in
  entryKey entry =
    (if truthy number then number
     else if truthy name then name
     else if truthy optionName then optionName
     else VStr "Untitled") /\
  entryDocumentNumber entry = entryKey entry /\
  (forall s, truthy (VStr s) = true <-> s <> "") /\
  (truthy number = false -> truthy name = false ->
   get0 (get entry "options") = VUndefined ->
   entryKey entry = VStr "Untitled" /\
   entryDocumentNumber entry = VStr "Untitled") /\
  (forall payload docs d,
     normaliseResources payload = Ok docs -> In d docs ->
     exists es c e,
       payloadEntries payload = Ok es /\ In (c, e) es /\
       key d = entryKey e /\ documentNumber d = entryKey e).
Proof.
  simpl.
  destruct (entryKey_documentNumber entry) as [Hk Ht].
  assert (Hchain : entryDocumentNumber entry =
    (if truthy (get entry "document_number") then get entry "document_number"
     else if truthy (get (get entry "api_description") "api_name")
          then get (get entry "api_description") "api_name"
     else if truthy (get (get0 (get entry "options")) "name")
          then get (get0 (get entry "options")) "name"
     else VStr "Untitled")).
  { unfold entryDocumentNumber, or.
    destruct (truthy (get entry "document_number")) eqn:E1;
      [repeat (rewrite E1; cbv iota); reflexivity|].
    destruct (truthy (get (get entry "api_description") "api_name")) eqn:E2;
      [repeat (rewrite E2; cbv iota); reflexivity|].
    destruct (truthy (get (get0 (get entry "options")) "name")) eqn:E3;
      [repeat (rewrite E3; cbv iota); reflexivity|reflexivity]. }
  split; [rewrite Hk; exact Hchain|]. split; [symmetry; exact Hk|].
  split.
  { intros s. simpl. destruct (String.eqb_spec s ""); simpl; split;
      congruence. }
  split.
  { intros H1 H2 H3. rewrite Hk, Hchain, H1, H2, H3. simpl. auto. }
  intros payload docs d Hn Hd.
  destruct (document_origin _ _ Hn) as (es & Hes & _ & _ & Horigin).
  destruct (Horigin _ Hd) as (doc & c & e & rest & Hc & Hkey & Hf & Hdesc).
  exists es, c, e. split; [exact Hes|]. split.
  { assert (Hin : In (c, e) (contributing (keyOf (key d)) es))
      by (rewrite Hc; left; reflexivity).
    apply filter_In in Hin. tauto. }
  split; [exact Hkey|].
  destruct Hdesc as (_ & Hdn & _). simpl in Hdn.
  destruct (merged_fields _ _ _ Hf) as (_ & Hadn & _). simpl in Hadn.
  rewrite Hdn, Hadn. unfold or.
  destruct (entryKey_documentNumber e) as [Hk' Ht']. rewrite Ht'.
  symmetry. exact Hk'.
Qed.

(** C2.  A run that returns yields exactly one document per key computed:
    no two documents share a key, every entry finds the document of its
    key, and the [categories], [contexts] and [lifecycle] of a document hold
    exactly what the entries of its key contribute, whatever the category
    or group they stand in. *)
Theorem one_document_per_key (payload : value) (docs : list Document) :
  normaliseResources payload = Ok docs ->
  exists es,
    payloadEntries payload = Ok es /\
    NoDup (map (fun d => keyOf (key d)) docs) /\
    (forall c e, In (c, e) es ->
       exists d, In d docs /\ keyOf (key d) = keyOf (entryKey e)) /\
    (forall d, In d docs ->
       let own := contributing (keyOf (key d)) es in
       own <> [] /\
       (forall x, In x (categories d) <->
          x <> "" /\ exists e, In (x, e) own) /\
       (forall x, In x (contexts d) <->
          exists c e, In (c, e) own /\ In x (entryContexts e)) /\
       (forall k, In k (map keyOf (lifecycle d)) <->
          exists c e, In (c, e) own /\
            truthy (get e "lifecycle_status") = true /\
            keyOf (get e "lifecycle_status") = k)).
Proof.
  intros Hn.
  destruct (document_origin _ _ Hn) as (es & Hes & Hnd & Hcov & Horigin).
  exists es. split; [exact Hes|]. split; [exact Hnd|]. split.
  - intros c e Hin. specialize (Hcov _ Hin). simpl in Hcov.
    apply in_map_iff in Hcov as (d & Hk & Hd). eauto.
  - intros d Hd.
    destruct (Horigin _ Hd) as (doc & c & e & rest & Hc & Hkey & Hf & Hdesc).
    destruct Hdesc as (_ & _ & _ & _ & Hcat & Hctx & Hlife & _).
    simpl in Hcat, Hctx, Hlife.
    destruct (merged_fields _ _ _ Hf) as (_ & _ & _ & _ & Mcat & Mctx & Mlife).
    cbv zeta. rewrite Hc.
    split; [discriminate|]. split; [|split].
    + intros x. split; intros Hx.
      * apply (Permutation_in _ Hcat), Mcat in Hx as [[]|Hx]. exact Hx.
      * eapply Permutation_in; [symmetry; exact Hcat|].
        apply Mcat. right. exact Hx.
    + intros x. split; intros Hx.
      * apply (Permutation_in _ Hctx), Mctx in Hx as [[]|Hx]. exact Hx.
      * eapply Permutation_in; [symmetry; exact Hctx|].
        apply Mctx. right. exact Hx.
    + intros k. split; intros Hx.
      * apply (Permutation_in _ (Permutation_map keyOf Hlife)), Mlife
          in Hx as [[]|Hx]. exact Hx.
      * eapply Permutation_in; [symmetry; exact (Permutation_map keyOf Hlife)|].
        apply Mlife. right. exact Hx.
Qed.

(** C7, amended.  An entry folded into an accumulator leaves
    [documentNumber] and [apiName] as they are, leaves a non-empty
    [description] as it is, and erases nothing when its own description is
    empty.  So in a document [documentNumber] is the key, which is the
    computed document number of every entry of that key; [apiName] is the
    API name of the first entry of the key when that is non-empty and the
    key otherwise, whatever the later entries name; [description] is the
    first non-empty description among the entries of the key, in fold
    order, and [""] when there is none. *)
Theorem scalar_fields_of_first_entry :
  (forall c e doc doc',
     mergeEntry c e doc = Ok doc' ->
     adocumentNumber doc' = adocumentNumber doc /\
     aapiName doc' = aapiName doc /\
     (truthy (adescription doc) = true ->
      adescription doc' = adescription doc) /\
     (truthy (entryDescription e) = false ->
      adescription doc' = adescription doc)) /\
  (forall payload docs,
     normaliseResources payload = Ok docs ->
     exists es,
       payloadEntries payload = Ok es /\
       forall d, In d docs ->
       exists c e rest,
         contributing (keyOf (key d)) es = (c, e) :: rest /\
         documentNumber d = key d /\
         (forall c' e', In (c', e') ((c, e) :: rest) ->
            keyOf (entryDocumentNumber e') = keyOf (key d)) /\
         apiName d = or (get (get e "api_description") "api_name") (key d) /\
         description d =
           match firstTruthy (map (fun ce => entryDescription (snd ce))
                                  ((c, e) :: rest)) with
           | Some v => v
           | None => VStr ""
           end).
Proof.
  split.
  { intros c e doc doc' H.
    destruct (mergeEntry_fields _ _ _ _ H) as (_ & H2 & H3 & H4 & _).
    split; [exact H2|]. split; [exact H3|].
    rewrite H4. unfold fillIfEmpty.
    split; intros ->; [reflexivity|].
    rewrite Bool.andb_false_r. reflexivity. }
  intros payload docs Hn.
  destruct (document_origin _ _ Hn) as (es & Hes & _ & _ & Horigin).
  exists es. split; [exact Hes|]. intros d Hd.
  destruct (Horigin _ Hd) as (doc & c & e & rest & Hc & Hkey & Hf & Hdesc).
  exists c, e, rest. split; [exact Hc|].
  destruct Hdesc as (_ & Hdn & Han & Hds & _). simpl in Hdn, Han, Hds.
  destruct (merged_fields _ _ _ Hf) as (_ & Mdn & Man & Mds & _).
  simpl in Mdn, Man, Mds.
  destruct (entryKey_documentNumber e) as [Hk Ht].
  split; [|split; [|split]].
  - rewrite Hdn, Mdn, or_truthy by exact Ht. congruence.
  - intros c' e' Hin. rewrite <- Hc in Hin. apply filter_In in Hin as [_ Hb].
    apply bool_decide_eq_true in Hb. simpl in Hb.
    destruct (entryKey_documentNumber e') as [<- _]. exact Hb.
  - rewrite Han, Man.
    rewrite (or_truthy (entryApiName e)) by apply entryApiName_truthy.
    rewrite or_truthy by apply entryApiName_truthy.
    unfold entryApiName. rewrite <- Hk, <- Hkey. reflexivity.
  - rewrite Hds, Mds. unfold mergedDescription, or, firstTruthy.
    cbn [map find snd].
    destruct (truthy (entryDescription e)) eqn:E.
    + rewrite E. reflexivity.
    + reflexivity.
Qed.

Lemma buildDocumentMap_snoc docs d :
  Browser.buildDocumentMap (docs ++ [d]) =
  <[id d := d]> (Browser.buildDocumentMap docs).
Proof. unfold Browser.buildDocumentMap. rewrite fold_left_app. reflexivity. Qed.

(** With distinct ids the document map sends each id to its document. *)
Lemma buildDocumentMap_lookup docs :
  NoDup (map id docs) ->
  forall d, In d docs -> Browser.buildDocumentMap docs !! id d = Some d.
Proof.
  induction docs as [|d0 docs IH] using rev_ind; intros Hnd d Hin;
    [destruct Hin|].
  rewrite buildDocumentMap_snoc.
  rewrite map_app in Hnd. apply NoDup_app in Hnd as (Hnd & Hdisj & _).
  apply in_app_iff in Hin as [Hin|[<-|[]]].
  - rewrite lookup_insert_ne; [apply IH; assumption|].
    intros Heq. apply (Hdisj (id d)).
    + apply list_elem_of_In, in_map, Hin.
    + rewrite <- Heq. simpl. left.
  - apply lookup_insert_eq.
Qed.

(** C3, amended.  The ids of the documents of one run are pairwise
    distinct and the document map sends each to its document.  The
    document built [i]-th (in map order, of which the result is a
    rearrangement) has for id the slug of its key followed by [k] copies of
    the one suffix [-(i+1)]: the suffix is repeated, never incremented, and
    [k] is the least number of copies that no earlier id already is. *)
Theorem ids_pairwise_distinct (payload : value) (docs : list Document) :
  normaliseResources payload = Ok docs ->
  NoDup (map id docs) /\
  (forall d, In d docs -> Browser.buildDocumentMap docs !! id d = Some d) /\
  exists docs0,
    docs ≡ₚ docs0 /\
    forall i d, docs0 !! i = Some d ->
    exists base k,
      createSlug (key d) = Ok base /\
      id d = appendTimes k ("-" +:+ pretty (i + 1)%nat) base /\
      ~ In (id d) (map id (take i docs0)) /\
      (forall j, (j < k)%nat ->
         In (appendTimes j ("-" +:+ pretty (i + 1)%nat) base)
            (map id (take i docs0))).
Proof.
  intros Hn.
  destruct (normaliseResources_inv _ _ Hn)
    as (es & m & [used docs0] & _ & _ & (_ & Hnd & _ & _ & Hshape) & Hperm).
  cbn [fst snd] in *.
  assert (Hnd' : NoDup (map id docs)).
  { rewrite Hperm. exact Hnd. }
  split; [exact Hnd'|]. split; [apply buildDocumentMap_lookup, Hnd'|].
  exists docs0. split; [exact Hperm|].
  intros i d Hi. destruct (Hshape _ _ Hi) as (base & k & H1 & H2 & H3).
  exists base, k. split; [exact H1|]. split; [exact H2|]. split; [|exact H3].
  rewrite <- (take_drop_middle _ _ _ Hi), map_app in Hnd.
  apply NoDup_app in Hnd as (_ & Hdisj & _).
  intros Hin. apply (Hdisj (id d)).
  - apply list_elem_of_In. exact Hin.
  - simpl. left.
Qed.

(** C8.  [normaliseResources] is not total.  A [null] or [undefined]
    payload gives the empty list, but a group whose value is not an array
    (here [{ "Misc": { "g": null } }]) makes [entries.forEach] throw a
    [TypeError], and so does a published date that is a number, in
    [parseDate]; both whatever the platform. *)
Theorem normaliseResources_throws_on_null_group :
  normaliseResources Sample.nullGroupPayload =
    Throw (TypeError "forEach is not a function") /\
  normaliseResources Sample.numericDatePayload =
    Throw (TypeError "value.replace is not a function") /\
  normaliseResources VNull = Ok [] /\
  normaliseResources VUndefined = Ok [].
Proof. repeat split; reflexivity. Qed.

Section Consistent.

(** [localeCompare] is a consistent comparator: of two strings one
    collates no higher than the other, and the order is transitive. *)
Hypothesis collate_total : forall a b, 0 < collate a b -> collate b a <= 0.
Hypothesis collate_trans :
  forall a b c, collate a b <= 0 -> collate b c <= 0 -> collate a c <= 0.

#[local] Abbreviation versionBefore := (versionBefore collate dateParse).
#[local] Abbreviation timestamp := (timestamp dateParse).
#[local] Abbreviation compareVersions := (compareVersions collate dateParse).
#[local] Abbreviation parseDate := (parseDate dateParse).

Lemma versionBefore_trans a b c :
  versionBefore a b -> versionBefore b c -> versionBefore a c.
Proof using collate_trans.
  unfold Normaliser.versionBefore.
  intros [H1|[H1 L1]] [H2|[H2 L2]]; try (left; lia).
  right. split; [lia|]. eauto.
Qed.

Lemma parseDate_timestamp v t :
  parseDate (published v) = Ok t -> timestamp v = t.
Proof. unfold Normaliser.timestamp. intros ->. reflexivity. Qed.

Lemma compareStrings_label a b c :
  compareStrings collate (version b) (version a) = Ok c ->
  c = collate (label b) (label a).
Proof.
  unfold compareStrings, label.
  destruct (defaultArg (version b) (VStr "")); try discriminate.
  intros [= <-]. reflexivity.
Qed.

Lemma compareVersions_le a b c :
  compareVersions a b = Ok c -> c <= 0 -> versionBefore a b.
Proof.
  unfold Normaliser.compareVersions. intros H Hc.
  inv_bind H. inv_bind H.
  apply parseDate_timestamp in E, E0. unfold Normaliser.versionBefore.
  rewrite E, E0.
  destruct (x - x0 =? 0) eqn:Ed; simpl in H.
  - apply Z.eqb_eq in Ed. apply compareStrings_label in H. subst c.
    right. split; [lia|exact Hc].
  - apply Z.eqb_neq in Ed. injection H as <-. left. lia.
Qed.

Lemma compareVersions_gt a b c :
  compareVersions a b = Ok c -> 0 < c -> versionBefore b a.
Proof using collate_total.
  unfold Normaliser.compareVersions. intros H Hc.
  inv_bind H. inv_bind H.
  apply parseDate_timestamp in E, E0. unfold Normaliser.versionBefore.
  rewrite E, E0.
  destruct (x - x0 =? 0) eqn:Ed; simpl in H.
  - apply Z.eqb_eq in Ed. apply compareStrings_label in H. subst c.
    right. split; [lia|]. apply collate_total, Hc.
  - apply Z.eqb_neq in Ed. injection H as <-. left. lia.
Qed.

Lemma mapM_sortOptions vs vs' :
  mapM (sortOptions collate) vs = Ok vs' ->
  Forall2 (fun v v' => published v' = published v /\ version v' = version v)
          vs vs'.
Proof.
  revert vs'; induction vs as [|v r IH]; intros vs' H; simpl in H.
  - injection H as <-. constructor.
  - inv_bind H. inv_bind H. injection H as <-.
    constructor; [|apply IH; assumption].
    unfold sortOptions in E. inv_bind E. injection E as <-. simpl. auto.
Qed.

Lemma versionBefore_ext a a' b b' :
  published a' = published a -> version a' = version a ->
  published b' = published b -> version b' = version b ->
  versionBefore a b -> versionBefore a' b'.
Proof.
  unfold Normaliser.versionBefore, Normaliser.timestamp, label.
  intros -> -> -> ->. trivial.
Qed.

Lemma sorted_through_options vs vs' :
  Forall2 (fun v v' => published v' = published v /\ version v' = version v)
          vs vs' ->
  StronglySorted versionBefore vs -> StronglySorted versionBefore vs'.
Proof.
  induction 1 as [|v v' r r' [Hp Hv] HF IH]; intros Hs; [constructor|].
  apply StronglySorted_inv in Hs as [Hr Hall].
  constructor; [apply IH, Hr|].
  clear IH Hr. induction HF as [|w w' r r' [Hp' Hv'] HF IH]; [constructor|].
  apply Forall_cons in Hall as [Hw Hall].
  constructor; [|apply IH, Hall].
  eapply versionBefore_ext; eauto.
Qed.

(** C4, amended.  In every document the versions stand sorted: of two
    versions the earlier in the list has the later parsed date, or the same
    date and a label that collates no lower.  A date that does not parse
    counts as timestamp 0, so such a version stands after every version
    with a positive timestamp (and before any with a negative one). *)
Theorem versions_sorted_by_date_then_label (payload : value)
    (docs : list Document) :
  normaliseResources payload = Ok docs ->
  forall d, In d docs ->
  StronglySorted versionBefore (versions d) /\
  (forall s, dateParse (let cleaned := trim (replaceChar "-" " " s) in
                        if String.eqb cleaned "" then s else cleaned) = None ->
             parseDate (VStr s) = Ok 0) /\
  (forall i j a b,
     versions d !! i = Some a -> versions d !! j = Some b ->
     timestamp a = 0 ->
     (0 < timestamp b -> (j < i)%nat) /\ (timestamp b < 0 -> (i < j)%nat)).
Proof using collate_total collate_trans.
  intros Hn d Hd.
  destruct (document_origin _ _ Hn) as (es & _ & _ & _ & Horigin).
  destruct (Horigin _ Hd) as (doc & c & e & rest & _ & _ & _ & Hdesc).
  destruct Hdesc as (_ & _ & _ & _ & _ & _ & _ & vs & Hsort & Hopts).
  assert (Hs : StronglySorted versionBefore (versions d)).
  { eapply sorted_through_options; [apply mapM_sortOptions, Hopts|].
    eapply sortM_sorted; [| | |exact Hsort].
    - exact versionBefore_trans.
    - exact compareVersions_le.
    - exact compareVersions_gt. }
  split; [exact Hs|]. split.
  - intros s Hs'. unfold Normaliser.parseDate. simpl in *. rewrite Hs'.
    reflexivity.
  - intros i j a b Hi Hj Ha. split; intros Hb.
    + destruct (Nat.lt_trichotomy i j) as [Hlt|[->|Hgt]]; [| |exact Hgt].
      * destruct (StronglySorted_lookup _ _ _ _ _ _ Hs Hi Hj Hlt) as [H|[H _]];
          lia.
      * rewrite Hi in Hj. injection Hj as ->. lia.
    + destruct (Nat.lt_trichotomy i j) as [Hlt|[->|Hgt]]; [exact Hlt| |].
      * rewrite Hi in Hj. injection Hj as ->. lia.
      * destruct (StronglySorted_lookup _ _ _ _ _ _ Hs Hj Hi Hgt) as [H|[H _]];
          lia.
Qed.

End Consistent.

End PlatformFacts.

End NormaliserFacts.

(* ===================================================================== *)
(** * Facts about the loader and the sample platform *)
(* ===================================================================== *)

Module LoaderFacts.
Import Loader.

Section Network.
Variable fetch : string -> result Response.
Variable jsonParse : string -> result value.

#[local] Abbreviation attempt := (attempt fetch jsonParse).
#[local] Abbreviation loadFrom := (loadFrom fetch jsonParse).
#[local] Abbreviation loadPayload := (loadPayload fetch jsonParse).

Lemma loadFrom_success pre source post lastError data :
  (forall s, In s pre -> exists e, attempt s = Throw e) ->
  attempt source = Ok data ->
  loadFrom (pre ++ source :: post) lastError =
  (pre ++ [source], Ok (data, source)).
Proof.
  revert lastError; induction pre as [|s pre IH]; intros lastError Hpre Hs;
    simpl.
  - rewrite Hs. reflexivity.
  - destruct (Hpre s (or_introl eq_refl)) as [e He]. rewrite He.
    rewrite (IH (Some e)); [reflexivity| |exact Hs].
    intros s' Hs'. apply Hpre. right. exact Hs'.
Qed.

Lemma loadFrom_failure sources lastError e :
  sources <> [] ->
  (forall s, In s sources -> exists e', attempt s = Throw e') ->
  attempt (List.last sources "") = Throw e ->
  loadFrom sources lastError = (sources, Throw e).
Proof.
  revert lastError; induction sources as [|s r IH]; intros lastError Hne Hall Hlast;
    [congruence|].
  simpl. destruct (Hall s (or_introl eq_refl)) as [e' He']. rewrite He'.
  destruct r as [|s' r'].
  - simpl in *. congruence.
  - rewrite (IH (Some e')); [reflexivity|discriminate| |exact Hlast].
    intros s0 Hs0. apply Hall. right. exact Hs0.
Qed.

Lemma attempt_Ok source data :
  attempt source = Ok data <->
  exists response body,
    fetch source = Ok response /\ ok response = true /\
    text response = Ok body /\ jsonParse body = Ok data.
Proof.
  unfold Loader.attempt. split.
  - intros H. destruct (fetch source) as [response|]; [|discriminate].
    simpl in H. destruct (ok response) eqn:Eok; [|discriminate]. simpl in H.
    destruct (text response) as [body|] eqn:Et; [|discriminate]. simpl in H.
    exists response, body. auto.
  - intros (response & body & -> & Hok & Ht & Hj). simpl.
    rewrite Hok, Ht. simpl. exact Hj.
Qed.

(** C9.  [loadPayload] tries its sources in order.  At the first source
    whose attempt succeeds it stops, returns the parsed data with that source
    and has fetched nothing after it; an attempt succeeds exactly when the
    response is [ok] and its body parses.  When every source fails it throws
    the failure of the last source. *)
Theorem loadPayload_first_success_or_last_failure :
  (forall pre source post data,
     getApiSources = pre ++ source :: post ->
     (forall s, In s pre -> exists e, attempt s = Throw e) ->
     attempt source = Ok data ->
     loadPayload = (pre ++ [source], Ok (data, source))) /\
  (forall e,
     (forall s, In s getApiSources -> exists e', attempt s = Throw e') ->
     attempt (List.last getApiSources "") = Throw e ->
     loadPayload = (getApiSources, Throw e)) /\
  (forall source data,
     attempt source = Ok data <->
     exists response body,
       fetch source = Ok response /\ ok response = true /\
       text response = Ok body /\ jsonParse body = Ok data).
Proof.
  split; [|split].
  - intros pre source post data Hsrc Hpre Hs. unfold Loader.loadPayload.
    rewrite Hsrc. apply loadFrom_success; assumption.
  - intros e Hall Hlast. unfold Loader.loadPayload.
    apply loadFrom_failure; [discriminate|assumption..].
  - apply attempt_Ok.
Qed.

End Network.
End LoaderFacts.

Module SampleFacts.

Lemma sample_collate_le a b :
  Sample.collate a b <= 0 <-> String.le (toLowerCase a) (toLowerCase b).
Proof.
  unfold Sample.collate, String.le. cbv zeta.
  destruct (String.leb (toLowerCase a) (toLowerCase b)) eqn:E1.
  - destruct (String.leb (toLowerCase b) (toLowerCase a)); simpl; split;
      intros; (lia || exact I).
  - simpl. split; [lia|intros []].
Qed.

Lemma sample_collate_total a b : 0 < Sample.collate a b -> Sample.collate b a <= 0.
Proof.
  intros H. apply sample_collate_le.
  destruct (total String.le (toLowerCase a) (toLowerCase b)) as [Hab|Hba];
    [|exact Hba].
  apply sample_collate_le in Hab. lia.
Qed.

Lemma sample_collate_trans a b c :
  Sample.collate a b <= 0 -> Sample.collate b c <= 0 ->
  Sample.collate a c <= 0.
Proof.
  rewrite !sample_collate_le. intros H1 H2. etransitivity; eassumption.
Qed.

Lemma pretty_N_go_no_dash x s :
  ~ In "-"%char (list_ascii_of_string s) ->
  ~ In "-"%char (list_ascii_of_string (pretty_N_go x s)).
Proof.
  revert s. induction (N.lt_wf_0 x) as [x _ IH]; intros s Hs.
  assert (x = 0 \/ 0 < x)%N as [->|Hx] by lia.
  - rewrite pretty_N_go_0. exact Hs.
  - rewrite pretty_N_go_step by exact Hx. apply IH.
    + apply N.div_lt; [exact Hx|reflexivity].
    + simpl. intros [Hc|Hin]; [|exact (Hs Hin)].
      unfold pretty_N_char in Hc.
      repeat case_match; discriminate.
Qed.

Lemma pretty_nat_no_dash (n : nat) :
  ~ In "-"%char (list_ascii_of_string (pretty n)).
Proof.
  unfold pretty, pretty_nat, pretty, pretty_N.
  destruct (decide (N.of_nat n = 0%N)).
  - simpl. intros [H|[]]. discriminate.
  - apply pretty_N_go_no_dash. simpl. tauto.
Qed.

End SampleFacts.

(* ===================================================================== *)
(** * Facts about the browser *)
(* ===================================================================== *)

Module BrowserFacts.
Import Browser.
Section Page.
Variable elements : Elements.
Variable collate : string -> string -> Z.
Variable decodeURIComponent : string -> result string.

#[local] Abbreviation renderRoute := (renderRoute elements).
#[local] Abbreviation navigateToIndex := (navigateToIndex elements).

Lemma ceilDiv_pos n d : 0 < d -> 1 <= n -> 1 <= ceilDiv n d.
Proof.
  intros Hd Hn. unfold ceilDiv.
  apply Z.div_le_lower_bound; lia.
Qed.

Lemma renderIndex_frame w :
  win (renderIndex w) = win w /\ dom (renderIndex w) = dom w /\
  route (st (renderIndex w)) = route (st w) /\
  filtered (st (renderIndex w)) = filtered (st w) /\
  documents (st (renderIndex w)) = documents (st w).
Proof.
  unfold renderIndex.
  repeat match goal with |- context [if ?b then _ else _] => destruct b end;
    simpl; auto.
Qed.

Lemma renderIndex_page1 w :
  0 < pageSize (st w) -> currentPage (st w) = 1 ->
  currentPage (st (renderIndex w)) = 1.
Proof.
  intros Hp H1. unfold renderIndex.
  destruct (Z.of_nat (length (filtered (st w))) =? 0) eqn:E; simpl.
  - reflexivity.
  - apply Z.eqb_neq in E.
    pose proof (ceilDiv_pos (Z.of_nat (length (filtered (st w)))) _ Hp ltac:(lia)) as Hc.
    destruct (ceilDiv _ _ =? 0) eqn:E0; [apply Z.eqb_eq in E0; lia|].
    simpl. rewrite H1.
    destruct (1 >? ceilDiv _ _) eqn:E1; [apply Z.gtb_lt in E1; lia|].
    simpl. exact H1.
Qed.

(** On the index route [renderRoute] never navigates. *)
Lemma renderRouteWith_index nav1 nav2 w :
  route (st w) = Index ->
  renderRouteWith elements nav1 w = renderRouteWith elements nav2 w.
Proof.
  intros H. unfold renderRouteWith. simpl. rewrite H. reflexivity.
Qed.

Lemma navigateToIndexWith_ext r1 r2 w :
  (forall w', route (st w') = Index -> r1 w' = r2 w') ->
  navigateToIndexWith r1 w = navigateToIndexWith r2 w.
Proof.
  intros H. unfold navigateToIndexWith.
  destruct (_ || _); [apply H; reflexivity | reflexivity].
Qed.

Lemma renderRouteWith_ext nav1 nav2 w :
  (forall w', nav1 w' = nav2 w') ->
  renderRouteWith elements nav1 w = renderRouteWith elements nav2 w.
Proof.
  intros H. unfold renderRouteWith.
  destruct (_ =? _)%nat; [reflexivity|].
  destruct (route _); [reflexivity|].
  destruct (_ !! _); [destruct (negb _)|]; auto.
Qed.

(** The equation of the source: [renderRoute] calls [navigateToIndex],
    which calls [renderRoute]. *)
Lemma renderRoute_unfold w :
  renderRoute w = renderRouteWith elements navigateToIndex w.
Proof.
  unfold Browser.renderRoute at 1, Browser.navigateToIndex.
  apply renderRouteWith_ext. intros w1.
  apply navigateToIndexWith_ext. intros w2 Hw2.
  unfold Browser.renderRoute. apply renderRouteWith_index, Hw2.
Qed.

Lemma renderRoute_index w :
  route (st w) = Index ->
  renderRoute w =
  if (length (documents (st w)) =? 0)%nat
  then renderIndex (showView elements false w)
  else renderIndex (clearDetail elements (showView elements false w)).
Proof.
  intros H. unfold Browser.renderRoute, renderRouteWith. simpl. rewrite H.
  reflexivity.
Qed.

Lemma navigateToIndex_cases w :
  (navigateToIndex w = renderRoute (withState (setRoute Index (st w)) w) /\
   (hash (win w) = "#/" \/ hash (win w) = "" \/ hash (win w) = "#")) \/
  (navigateToIndex w = assignHash "#/" w).
Proof.
  unfold Browser.navigateToIndex, navigateToIndexWith.
  destruct (String.eqb_spec (hash (win w)) "#/") as [->|]; simpl; [left; auto|].
  destruct (String.eqb_spec (hash (win w)) "") as [->|]; simpl; [left; auto|].
  destruct (String.eqb_spec (hash (win w)) "#") as [->|]; simpl; [left; auto|].
  right; reflexivity.
Qed.


Lemma st_showView b w : st (showView elements b w) = st w.
Proof. reflexivity. Qed.

Lemma st_setStatus m e h w : st (setStatus elements m e h w) = st w.
Proof. unfold setStatus. destruct (_ || _); [|destruct h]; reflexivity. Qed.

Lemma st_renderDetail d w : st (renderDetail elements d w) = st w.
Proof. unfold renderDetail. destruct (negb _); reflexivity. Qed.

Lemma st_clearDetail w : st (clearDetail elements w) = st w.
Proof. unfold clearDetail. destruct (negb _); reflexivity. Qed.

Lemma win_setStatus m e h w : win (setStatus elements m e h w) = win w.
Proof. unfold setStatus. destruct (_ || _); [|destruct h]; reflexivity. Qed.

Lemma win_renderDetail d w : win (renderDetail elements d w) = win w.
Proof. unfold renderDetail. destruct (negb _); reflexivity. Qed.

Lemma win_clearDetail w : win (clearDetail elements w) = win w.
Proof. unfold clearDetail. destruct (negb _); reflexivity. Qed.

Lemma notice_showView b w : notice (showView elements b w) = notice w.
Proof. reflexivity. Qed.

Lemma notice_renderDetail d w : notice (renderDetail elements d w) = notice w.
Proof. unfold renderDetail. destruct (negb _); reflexivity. Qed.

Lemma notice_clearDetail w : notice (clearDetail elements w) = notice w.
Proof. unfold clearDetail. destruct (negb _); reflexivity. Qed.

Lemma notice_renderIndex w : notice (renderIndex w) = notice w.
Proof. unfold notice. destruct (renderIndex_frame w) as (_ & -> & _). reflexivity. Qed.

Lemma renderRoute_index_page1 w :
  route (st w) = Index -> 0 < pageSize (st w) -> currentPage (st w) = 1 ->
  currentPage (st (renderRoute w)) = 1.
Proof.
  intros Hr Hp H1. rewrite renderRoute_index by exact Hr.
  destruct (_ =? _)%nat; apply renderIndex_page1;
    rewrite ?st_clearDetail, ?st_showView; assumption.
Qed.

Lemma navigateToIndex_page1 w :
  0 < pageSize (st w) -> currentPage (st w) = 1 ->
  currentPage (st (navigateToIndex w)) = 1.
Proof.
  intros Hp H1.
  destruct (navigateToIndex_cases w) as [[-> _] | ->].
  - apply renderRoute_index_page1; simpl; auto.
  - simpl. exact H1.
Qed.

Lemma renderRoute_page1 w :
  0 < pageSize (st w) -> currentPage (st w) = 1 ->
  currentPage (st (renderRoute w)) = 1.
Proof.
  intros Hp H1. rewrite renderRoute_unfold. unfold renderRouteWith.
  rewrite !st_showView.
  destruct (_ =? _)%nat.
  { apply renderIndex_page1; rewrite ?st_showView; assumption. }
  destruct (route (st w)) as [|rid].
  { apply renderIndex_page1; rewrite ?st_clearDetail, ?st_showView; assumption. }
  destruct (_ !! _) as [doc|].
  - destruct (negb _).
    + apply navigateToIndex_page1; rewrite ?st_showView; assumption.
    + apply renderIndex_page1; rewrite ?st_renderDetail, ?st_showView; assumption.
  - apply navigateToIndex_page1; rewrite ?st_setStatus, ?st_showView; assumption.
Qed.

Lemma renderIndex_sameData w : sameData (st w) (st (renderIndex w)).
Proof.
  unfold renderIndex, sameData.
  repeat match goal with |- context [if ?b then _ else _] => destruct b end;
    simpl; auto.
Qed.

Lemma renderRoute_index_result w :
  route (st w) = Index ->
  sameData (st w) (st (renderRoute w)) /\
  route (st (renderRoute w)) = Index /\
  win (renderRoute w) = win w /\
  notice (renderRoute w) = notice w.
Proof.
  intros H. rewrite renderRoute_index by exact H.
  destruct (_ =? _)%nat.
  - pose proof (renderIndex_sameData (showView elements false w)) as Hs.
    destruct (renderIndex_frame (showView elements false w)) as (Hw & _ & Hr & _).
    rewrite notice_renderIndex, notice_showView.
    rewrite st_showView in *. rewrite Hr, Hw. auto.
  - pose proof (renderIndex_sameData (clearDetail elements (showView elements false w))) as Hs.
    destruct (renderIndex_frame (clearDetail elements (showView elements false w)))
      as (Hw & _ & Hr & _).
    rewrite notice_renderIndex, notice_clearDetail, notice_showView.
    rewrite st_clearDetail, st_showView in *.
    rewrite Hr, Hw, win_clearDetail. auto.
Qed.

Lemma navigateToIndex_sameData w : sameData (st w) (st (navigateToIndex w)).
Proof.
  destruct (navigateToIndex_cases w) as [[-> _] | ->].
  - destruct (renderRoute_index_result (withState (setRoute Index (st w)) w))
      as (Hs & _); [reflexivity|]. exact Hs.
  - unfold sameData; simpl; auto.
Qed.

Lemma renderRoute_sameData w : sameData (st w) (st (renderRoute w)).
Proof.
  rewrite renderRoute_unfold. unfold renderRouteWith.
  rewrite !st_showView.
  destruct (_ =? _)%nat.
  { pose proof (renderIndex_sameData (showView elements (isDetail (route (st w))) w)) as H.
    rewrite st_showView in H. exact H. }
  destruct (route (st w)) as [|rid].
  { pose proof (renderIndex_sameData (clearDetail elements (showView elements false w))) as H.
    rewrite st_clearDetail, st_showView in H. exact H. }
  destruct (_ !! _) as [doc|].
  - destruct (negb _).
    + pose proof (navigateToIndex_sameData (showView elements true w)) as H.
      rewrite st_showView in H. exact H.
    + pose proof (renderIndex_sameData (renderDetail elements doc (showView elements true w))) as H.
      rewrite st_renderDetail, st_showView in H. exact H.
  - pose proof (navigateToIndex_sameData
        (setStatus elements "The requested API could not be found." true false
           (showView elements true w))) as H.
    rewrite st_setStatus, st_showView in H. exact H.
Qed.

Lemma handleRouteChange_page1 w :
  0 < pageSize (st w) -> currentPage (st w) = 1 ->
  currentPage (st (fst (handleRouteChange elements decodeURIComponent w))) = 1.
Proof.
  intros Hp H1. unfold handleRouteChange.
  destruct (parseHash _ _) as [r|e]; simpl; [|exact H1].
  apply renderRoute_page1; destruct (negb _); simpl; auto.
Qed.

Lemma deliverHashChange_page1 w :
  0 < pageSize (st w) -> currentPage (st w) = 1 ->
  currentPage (st (fst (deliverHashChange elements decodeURIComponent w))) = 1.
Proof.
  intros Hp H1. unfold deliverHashChange.
  destruct (hashChangeQueued _); [|exact H1].
  apply handleRouteChange_page1; assumption.
Qed.

Lemma applyFilters_page w w' :
  0 < pageSize (st w) ->
  applyFilters elements collate w = (w', None) ->
  currentPage (st w) > maxPages (st w') \/ currentPage (st w) = 1 ->
  currentPage (st w') = 1.
Proof.
  intros Hp Happ Hgt. unfold applyFilters in Happ. cbv zeta in Happ.
  destruct (sortDocuments _ _ _) as [sorted|e]; [|discriminate].
  injection Happ as <-.
  set (s1 := setFiltered sorted (st w)) in *.
  set (s2 := if currentPage (st w) >? maxPages s1 then setCurrentPage 1 s1 else s1) in *.
  assert (Hmax : maxPages (st (renderRoute (withState s2 w))) = maxPages s1).
  { destruct (renderRoute_sameData (withState s2 w)) as (_ & Hf & _ & Hps).
    unfold maxPages. rewrite Hf, Hps. simpl.
    unfold s2. destruct (_ >? _); reflexivity. }
  rewrite Hmax in Hgt.
  apply renderRoute_page1; simpl.
  - unfold s2. destruct (_ >? _); exact Hp.
  - unfold s2. destruct (currentPage (st w) >? maxPages s1) eqn:E; [reflexivity|].
    destruct Hgt as [Hgt|Hgt]; [|exact Hgt].
    rewrite Z.gtb_ltb in E. apply Z.ltb_ge in E. lia.
Qed.

Lemma applyFilters_page1 w :
  0 < pageSize (st w) -> currentPage (st w) = 1 ->
  currentPage (st (fst (applyFilters elements collate w))) = 1.
Proof.
  intros Hp H1.
  destruct (applyFilters elements collate w) as [w' [e|]] eqn:E.
  - unfold applyFilters in E.
    destruct (sortDocuments _ _ _); [discriminate|].
    injection E as <- _. exact H1.
  - simpl. eapply applyFilters_page; eauto.
Qed.

Lemma applyFilters_pageSize w :
  pageSize (st (fst (applyFilters elements collate w))) = pageSize (st w).
Proof.
  unfold applyFilters. cbv zeta.
  destruct (sortDocuments _ _ _); [|reflexivity]. simpl.
  match goal with |- context [renderRoute ?x] =>
    destruct (renderRoute_sameData x) as (_ & _ & _ & ->) end.
  simpl. destruct (_ >? _); reflexivity.
Qed.

Lemma onFilterInput_page1 ev w :
  0 < pageSize (st w) ->
  currentPage (st (fst (onFilterInput elements collate ev w))) = 1 /\
  pageSize (st (fst (onFilterInput elements collate ev w))) = pageSize (st w).
Proof.
  intros Hp.
  destruct ev; simpl; unfold onSearchInput, onCategoryChange, onDomainChange,
    onSortChange; (split; [apply applyFilters_page1; simpl; auto
                          | rewrite applyFilters_pageSize; reflexivity]).
Qed.

(** C5.  After a change of the search, category, domain or sort input the
    current page is 1, whatever it was before, and it is still 1 once the
    browser has delivered the [hashchange] event the change may have
    queued.  In [applyFilters] itself a page beyond the new page count is
    reset to 1, not clamped to the last page. *)
Theorem filter_change_resets_page (w : World) :
  0 < pageSize (st w) ->
  (forall ev : FilterInput,
     let w1 := fst (onFilterInput elements collate ev w) in
     currentPage (st w1) = 1 /\
     currentPage (st (fst (deliverHashChange elements decodeURIComponent w1))) = 1)
  /\
  (forall w' : World,
     applyFilters elements collate w = (w', None) ->
     currentPage (st w) > maxPages (st w') ->
     currentPage (st w') = 1).
Proof.
  intros Hp. split.
  - intros ev w1. subst w1.
    destruct (onFilterInput_page1 ev w Hp) as [H1 Hps].
    split; [exact H1|].
    apply deliverHashChange_page1; [rewrite Hps; exact Hp | exact H1].
  - intros w' Happ Hgt. eapply applyFilters_page; eauto.
Qed.

Lemma parseHash_index h :
  h = "#/" \/ h = "" \/ h = "#" ->
  parseHash decodeURIComponent h = Ok Index.
Proof. intros [-> | [-> | ->]]; reflexivity. Qed.

Lemma handleRouteChange_index w :
  hash (win w) = "#/" \/ hash (win w) = "" \/ hash (win w) = "#" ->
  let r := handleRouteChange elements decodeURIComponent w in
  snd r = None /\ route (st (fst r)) = Index /\ notice (fst r) = notice w.
Proof.
  intros Hh. unfold handleRouteChange.
  rewrite (parseHash_index _ Hh). simpl.
  match goal with |- context [renderRoute ?x] =>
    destruct (renderRoute_index_result x) as (_ & Hr & _ & Hn) end.
  { destruct (negb _); reflexivity. }
  rewrite Hr, Hn. auto.
Qed.

(** [navigateToIndex] ends on the index route: at once when the hash is
    already that of the index, after the queued [hashchange] otherwise. *)
Lemma navigateToIndex_redirects w :
  let w' := navigateToIndex w in
  let r := deliverHashChange elements decodeURIComponent w' in
  (route (st w') = Index \/ win w' = mkWindow "#/" true) /\
  snd r = None /\ route (st (fst r)) = Index /\
  notice w' = notice w /\ notice (fst r) = notice w.
Proof.
  simpl.
  destruct (navigateToIndex_cases w) as [[-> Hh] | ->].
  - destruct (renderRoute_index_result (withState (setRoute Index (st w)) w))
      as (_ & Hr & Hw & Hn); [reflexivity|].
    split; [left; exact Hr|].
    unfold deliverHashChange.
    destruct (hashChangeQueued _).
    + match goal with |- context [handleRouteChange _ _ ?x] =>
        destruct (handleRouteChange_index x) as (He & Hr' & Hn') end.
      { simpl. rewrite Hw. exact Hh. }
      rewrite He, Hr', Hn'. rewrite Hn. auto.
    + simpl. rewrite Hr, Hn. auto.
  - split; [right; reflexivity|].
    unfold deliverHashChange.
    change (hashChangeQueued (win (assignHash "#/" w))) with true. cbv iota.
    match goal with |- context [handleRouteChange _ _ ?x] =>
      destruct (handleRouteChange_index x) as (He & Hr' & Hn') end.
    { left; reflexivity. }
    rewrite He, Hr', Hn'. auto.
Qed.

(** [navigateToIndex] never puts a document into the detail panel. *)
Lemma navigateToIndex_keeps_panel w d :
  detailContent (dom (navigateToIndex w)) = Some d ->
  detailContent (dom (navigateToIndex w)) = detailContent (dom w).
Proof.
  destruct (navigateToIndex_cases w) as [[-> _] | ->]; [|reflexivity].
  rewrite renderRoute_index by reflexivity.
  destruct (_ =? _)%nat;
    match goal with |- context [renderIndex ?x] =>
      destruct (renderIndex_frame x) as (_ & -> & _) end.
  - intros _. reflexivity.
  - unfold clearDetail. destruct (negb _); simpl; [reflexivity|discriminate].
Qed.

(** C10.  While [state.documents] is empty, [renderRoute] neither
    redirects nor raises the not-found notice, on any route: the route, the
    hash, the event queue, the status banner and the detail panel's content
    are as before. *)
Theorem renderRoute_empty_collection (w : World) :
  documents (st w) = [] ->
  let w' := renderRoute w in
  route (st w') = route (st w) /\ win w' = win w /\
  notice w' = notice w /\ detailContent (dom w') = detailContent (dom w).
Proof.
  intros He. simpl. rewrite renderRoute_unfold. unfold renderRouteWith.
  rewrite st_showView, He.
  change (length (@nil Document) =? 0)%nat with true. cbv iota.
  destruct (renderIndex_frame (showView elements (isDetail (route (st w))) w))
    as (Hw & Hd & Hr & _).
  rewrite notice_renderIndex, Hr, Hw, Hd. auto.
Qed.

(** C6, amended.  With a non-empty collection, [renderRoute] on a detail
    route: an id the document map lacks is redirected to the index and the
    not-found notice is shown (when the page has the banner); an id the map
    has but the filtered list lacks is redirected with the banner
    untouched; an id both have is rendered in place, and the detail panel
    takes a new document in that case only. *)
Theorem detail_route_reconciliation (w : World) (rid : string) :
  route (st w) = Detail rid ->
  documents (st w) <> [] ->
  let survives :=
    existsb (fun item => String.eqb (id item) rid) (filtered (st w)) in
  let w' := renderRoute w in
  let r := deliverHashChange elements decodeURIComponent w' in
  (documentMap (st w) !! rid = None ->
     snd r = None /\ route (st (fst r)) = Index /\
     (statusBanner elements = true -> statusMessage elements = true ->
      notice w' = (false, "The requested API could not be found.", true) /\
      notice (fst r) = notice w'))
  /\
  (forall doc, documentMap (st w) !! rid = Some doc -> survives = false ->
     snd r = None /\ route (st (fst r)) = Index /\
     notice w' = notice w /\ notice (fst r) = notice w)
  /\
  (forall doc, documentMap (st w) !! rid = Some doc -> survives = true ->
     route (st w') = Detail rid /\ win w' = win w /\ notice w' = notice w /\
     (detailView elements = true -> detailContent (dom w') = Some doc))
  /\
  (forall d, detailContent (dom w') = Some d ->
     detailContent (dom w) <> Some d ->
     documentMap (st w) !! rid = Some d /\ survives = true).
Proof.
  intros Hr Hne. simpl.
  rewrite renderRoute_unfold. unfold renderRouteWith.
  rewrite !st_showView, Hr.
  destruct (length (documents (st w)) =? 0)%nat eqn:El.
  { apply Nat.eqb_eq in El. destruct (documents (st w)); [congruence|discriminate]. }
  simpl isDetail.
  destruct (documentMap (st w) !! rid) as [doc|] eqn:Em.
  - destruct (existsb _ _) eqn:Es; simpl negb; cbv iota.
    + (* the id exists and survives: rendered in place *)
      destruct (renderIndex_frame (renderDetail elements doc (showView elements true w)))
        as (Hw & Hd & Hrt & _).
      split; [discriminate|].
      split; [intros doc' _ Hs; discriminate|].
      split.
      * intros doc' [= <-] _.
        rewrite Hrt, st_renderDetail, Hw, win_renderDetail,
          notice_renderIndex, notice_renderDetail, Hd.
        repeat split; [exact Hr|].
        intros Hdv. unfold renderDetail. rewrite Hdv. reflexivity.
      * intros d Hd' Hold. rewrite Hd in Hd'. unfold renderDetail in Hd'.
        destruct (negb _); simpl in Hd'; [congruence|].
        split; [congruence|reflexivity].
    + (* the id exists and is filtered out: silent redirect *)
      destruct (navigateToIndex_redirects (showView elements true w))
        as (Hc & He & Hri & Hn & Hn').
      split; [discriminate|].
      split; [intros doc' _ _; rewrite Hn, Hn'; auto|].
      split; [intros doc' _ Hs; discriminate|].
      intros d Hd' Hold. exfalso.
      apply Hold. rewrite <- Hd'.
      apply navigateToIndex_keeps_panel in Hd'. rewrite Hd'. reflexivity.
  - (* the id is unknown: redirect with the notice *)
    destruct (navigateToIndex_redirects
                (setStatus elements "The requested API could not be found."
                   true false (showView elements true w)))
      as (Hc & He & Hri & Hn & Hn').
    split.
    { intros _. split; [exact He|]. split; [exact Hri|].
      intros Hb Hm. rewrite Hn', Hn. split; [|reflexivity].
      unfold setStatus. rewrite Hb, Hm. reflexivity. }
    split; [discriminate|].
    split; [discriminate|].
    intros d Hd' Hold. exfalso.
    apply Hold. rewrite <- Hd'.
    apply navigateToIndex_keeps_panel in Hd'.
    rewrite Hd'. unfold setStatus.
    destruct (_ || _); reflexivity.
Qed.

End Page.
End BrowserFacts.

(* ===================================================================== *)
(** * The theorems on the sample inputs *)
(* ===================================================================== *)

Module Examples.
Import Loader Browser Sample.
Import NormaliserFacts LoaderFacts BrowserFacts SampleFacts.

(** C1 at the entry [{}]: no field, so key and document number are
    ["Untitled"]. *)
Lemma entry_key_fallback_chain_witness :
  entryKey (VObj 4 []) = VStr "Untitled" /\
  entryDocumentNumber (VObj 4 []) = VStr "Untitled".
Proof.
  destruct (entry_key_fallback_chain collate dateParse stripHtml (VObj 4 []))
    as (_ & _ & _ & H & _).
  apply H; reflexivity.
Defined.

(** C2 at the catalogue: its four entries give two documents. *)
Lemma one_document_per_key_witness :
  exists es,
    payloadEntries cataloguePayload = Ok es /\
    NoDup (map (fun d => keyOf (key d)) (documentsOf cataloguePayload)).
Proof.
  destruct (one_document_per_key collate dateParse stripHtml cataloguePayload
              (documentsOf cataloguePayload)) as (es & Hes & Hnd & _).
  - vm_compute. reflexivity.
  - exists es. split; assumption.
Defined.

(** C3 at three keys of which two share a slug. *)
Lemma ids_pairwise_distinct_witness :
  NoDup (map id (documentsOf slugPayload)).
Proof.
  destruct (ids_pairwise_distinct collate dateParse stripHtml slugPayload
              (documentsOf slugPayload)) as (Hnd & _).
  - vm_compute. reflexivity.
  - exact Hnd.
Defined.

(** C3 as stated fails: the key [A] collides twice and gets the id
    [a-3-3], which is not its slug [a] with a number appended. *)
Lemma slug_collision_repeats_suffix :
  map (fun d => (key d, id d)) (documentsOf slugPayload) =
    [(VStr "a", "a"); (VStr "A", "a-3-3"); (VStr "a-3", "a-3")] /\
  createSlug (VStr "A") = Ok "a" /\
  forall n : nat, "a-3-3" <> "a" +:+ "-" +:+ pretty n.
Proof.
  split; [vm_compute; reflexivity|]. split; [reflexivity|].
  intros n H.
  change ("a" +:+ "-" +:+ pretty n) with (String "a" (String "-" (pretty n))) in H.
  injection H as H.
  apply (pretty_nat_no_dash n). rewrite <- H. simpl. auto.
Qed.

(** C4 at the catalogue, under the sample collation. *)
Lemma versions_sorted_by_date_then_label_witness :
  Forall (fun d => StronglySorted (versionBefore collate dateParse) (versions d))
         (documentsOf cataloguePayload).
Proof.
  apply Forall_forall. intros d Hd. apply list_elem_of_In in Hd.
  apply (versions_sorted_by_date_then_label collate dateParse stripHtml
           sample_collate_total sample_collate_trans cataloguePayload
           (documentsOf cataloguePayload)).
  - vm_compute. reflexivity.
  - exact Hd.
Defined.

(** C4 as stated fails: beside a version dated 1960 the undated version
    (timestamp 0) stands first, not last. *)
Lemma undated_version_sorts_before_older :
  map (fun d => map (fun v => (published v, timestamp dateParse v))
                    (versions d))
      (documentsOf oldDatePayload) =
    [[(VStr "", 0); (VStr "1960", -315619200000)]].
Proof. vm_compute. reflexivity. Qed.

(** C7 at the catalogue. *)
Lemma scalar_fields_of_first_entry_witness :
  exists es,
    payloadEntries cataloguePayload = Ok es /\
    Forall (fun d => documentNumber d = key d) (documentsOf cataloguePayload).
Proof.
  destruct (proj2 (scalar_fields_of_first_entry collate dateParse stripHtml)
              cataloguePayload (documentsOf cataloguePayload))
    as (es & Hes & H).
  - vm_compute. reflexivity.
  - exists es. split; [exact Hes|].
    apply Forall_forall. intros d Hd. apply list_elem_of_In in Hd.
    destruct (H d Hd) as (c & e & rest & _ & Hdn & _). exact Hdn.
Defined.

(** C7 as stated fails: of the two entries of [D1] only the second names
    the API; the first non-empty API name is ["Real Name"], the document's
    [apiName] is ["D1"]. *)
Lemma later_api_name_never_used :
  payloadEntries lateNamePayload =
    Ok [("Core", lateNameFirst); ("Core", lateNameSecond)] /\
  contributing (KStr "D1") [("Core", lateNameFirst); ("Core", lateNameSecond)] =
    [("Core", lateNameFirst); ("Core", lateNameSecond)] /\
  firstTruthy (map (fun ce => get (get (snd ce) "api_description") "api_name")
                   [("Core", lateNameFirst); ("Core", lateNameSecond)]) =
    Some (VStr "Real Name") /\
  map (fun d => (key d, apiName d)) (documentsOf lateNamePayload) =
    [(VStr "D1", VStr "D1")].
Proof. repeat split; vm_compute; reflexivity. Qed.

(** C9 on a network where the file fails and the first proxy answers, and
    on one where all three fail. *)
Lemma loadPayload_first_success_or_last_failure_witness :
  loadPayload fetch jsonParse =
    (["./index.json"; "https://corsproxy.io/?.%2Findex.json"],
     Ok (VObj 1 [], "https://corsproxy.io/?.%2Findex.json")) /\
  loadPayload fetchDown jsonParse =
    (getApiSources, Throw (Error "Request failed with 503")).
Proof.
  split.
  - apply (proj1 (loadPayload_first_success_or_last_failure fetch jsonParse)
             ["./index.json"] "https://corsproxy.io/?.%2Findex.json"
             ["https://r.jina.ai/./index.json"] (VObj 1 [])).
    + reflexivity.
    + intros s [<-|[]]. eexists. reflexivity.
    + reflexivity.
  - apply (proj1 (proj2 (loadPayload_first_success_or_last_failure
                           fetchDown jsonParse))).
    + intros s [<-|[<-|[<-|[]]]]; eexists; reflexivity.
    + reflexivity.
Defined.

(** C5 on page 5 of the loaded catalogue: choosing a domain leaves page 1. *)
Lemma filter_change_resets_page_witness :
  currentPage (st (fst (onFilterInput elements collate (DomainChange "Order")
                          (loadedWorld "tmf620" 5 "all")))) = 1.
Proof.
  apply (proj1 (filter_change_resets_page elements collate decodeURIComponent
                  (loadedWorld "tmf620" 5 "all") eq_refl)
           (DomainChange "Order")).
Defined.

(** C6 on the loaded catalogue, at an id it does not have. *)
Lemma detail_route_reconciliation_witness :
  let w' := renderRoute elements (loadedWorld "nope" 1 "all") in
  route (st (fst (deliverHashChange elements decodeURIComponent w'))) = Index /\
  notice w' = (false, "The requested API could not be found.", true).
Proof.
  destruct (detail_route_reconciliation elements decodeURIComponent
              (loadedWorld "nope" 1 "all") "nope") as (H & _).
  - reflexivity.
  - vm_compute. discriminate.
  - destruct H as (_ & Hr & Hn).
    + vm_compute. reflexivity.
    + split; [exact Hr|]. apply Hn; reflexivity.
Defined.

(** C6 as stated fails before the payload has loaded: the id is not in the
    (empty) document map, yet the route stays the detail route, no
    [hashchange] is queued and the banner stays hidden. *)
Lemma unknown_id_not_redirected_before_load :
  let w := loadingWorld in
  let w' := renderRoute elements w in
  route (st w) = Detail "tmf620" /\
  documentMap (st w) !! "tmf620" = None /\
  route (st w') = Detail "tmf620" /\
  win w' = mkWindow "#/document/tmf620" false /\
  deliverHashChange elements decodeURIComponent w' = (w', None) /\
  notice w' = (true, "", false).
Proof. repeat split; vm_compute; reflexivity. Qed.

(** C10 before the payload has loaded. *)
Lemma renderRoute_empty_collection_witness :
  route (st (renderRoute elements loadingWorld)) = Detail "tmf620" /\
  notice (renderRoute elements loadingWorld) = (true, "", false).
Proof.
  destruct (renderRoute_empty_collection elements loadingWorld)
    as (Hr & _ & Hn & _).
  - reflexivity.
  - split; [exact Hr|exact Hn].
Defined.

End Examples.


(* ===================================================================== *)
(** * Facts about the rest of the script *)
(* ===================================================================== *)

Module HtmlFacts.
Import Html.

Lemma append_assoc (a b c : string) : (a +:+ b) +:+ c = a +:+ (b +:+ c).
Proof.
  induction a as [|x a IH]; [reflexivity|].
  change (String x ((a +:+ b) +:+ c) = String x (a +:+ (b +:+ c))).
  f_equal. exact IH.
Qed.

Lemma replaceAll_app c by_ s1 s2 :
  replaceAll c by_ (s1 +:+ s2) = replaceAll c by_ s1 +:+ replaceAll c by_ s2.
Proof.
  induction s1 as [|x r IH]; [reflexivity|].
  change (String x r +:+ s2) with (String x (r +:+ s2)). simpl.
  rewrite IH. destruct (Ascii.eqb x c); [rewrite append_assoc|]; reflexivity.
Qed.

Lemma escapeHtml_app s1 s2 :
  escapeHtml (s1 +:+ s2) = escapeHtml s1 +:+ escapeHtml s2.
Proof. unfold escapeHtml. rewrite !replaceAll_app. reflexivity. Qed.

Lemma escapeHtml_char c : escapeHtml (String c EmptyString) = escapeChar c.
Proof.
  destruct c as [[] [] [] [] [] [] [] []]; reflexivity.
Qed.

(** The five replacements never meet: each character is escaped once. *)
Lemma escapeHtml_each s : escapeHtml s = escapeEach s.
Proof.
  induction s as [|c r IH]; [reflexivity|].
  change (String c r) with (String c EmptyString +:+ r).
  rewrite escapeHtml_app, escapeHtml_char, IH. reflexivity.
Qed.

Lemma chars_app s1 s2 :
  list_ascii_of_string (s1 +:+ s2) =
  (list_ascii_of_string s1 ++ list_ascii_of_string s2)%list.
Proof.
  induction s1 as [|c r IH]; [reflexivity|].
  change (String c r +:+ s2) with (String c (r +:+ s2)). simpl.
  rewrite IH. reflexivity.
Qed.

Lemma append_cons c a b : String c a +:+ b = String c (a +:+ b).
Proof. reflexivity. Qed.

Lemma append_nil b : EmptyString +:+ b = b.
Proof. reflexivity. Qed.

Lemma escapeChar_cases c :
  (c = "&"%char /\ escapeChar c = "&amp;") \/
  (c = "<"%char /\ escapeChar c = "&lt;") \/
  (c = ">"%char /\ escapeChar c = "&gt;") \/
  (c = dquote /\ escapeChar c = "&quot;") \/
  (c = "'"%char /\ escapeChar c = "&#39;") \/
  (escapeChar c = String c EmptyString /\ c <> "&"%char /\ isMarkup c = false).
Proof.
  destruct c as [[] [] [] [] [] [] [] []];
    first [ left; split; reflexivity
          | right; left; split; reflexivity
          | right; right; left; split; reflexivity
          | right; right; right; left; split; reflexivity
          | right; right; right; right; left; split; reflexivity
          | right; right; right; right; right;
            split; [reflexivity|split; [discriminate|reflexivity]] ].
Qed.

Lemma escapeChar_safe c x :
  In x (list_ascii_of_string (escapeChar c)) -> isMarkup x = false.
Proof.
  destruct (escapeChar_cases c) as [[_ ->]|[[_ ->]|[[_ ->]|[[_ ->]|[[_ ->]|(-> & _ & H)]]]]];
    simpl; intros Hx;
    repeat (destruct Hx as [<-|Hx]; [first [reflexivity|exact H]|]);
    destruct Hx.
Qed.

Lemma escapeEach_injective s1 s2 : escapeEach s1 = escapeEach s2 -> s1 = s2.
Proof.
  revert s2; induction s1 as [|c1 r1 IH]; intros [|c2 r2] H; simpl in H.
  - reflexivity.
  - exfalso.
    destruct (escapeChar_cases c2) as [[_ E]|[[_ E]|[[_ E]|[[_ E]|[[_ E]|(E & _)]]]]];
      rewrite E in H; rewrite ?append_cons in H; discriminate.
  - exfalso.
    destruct (escapeChar_cases c1) as [[_ E]|[[_ E]|[[_ E]|[[_ E]|[[_ E]|(E & _)]]]]];
      rewrite E in H; rewrite ?append_cons in H; discriminate.
  - destruct (escapeChar_cases c1)
      as [[-> E1]|[[-> E1]|[[-> E1]|[[-> E1]|[[-> E1]|(E1 & N1 & _)]]]]];
    destruct (escapeChar_cases c2)
      as [[-> E2]|[[-> E2]|[[-> E2]|[[-> E2]|[[-> E2]|(E2 & N2 & _)]]]]];
    rewrite ?E1, ?E2 in H; rewrite ?append_cons, ?append_nil in H;
    try discriminate;
    try (injection H as H; f_equal; apply IH; exact H);
    try (injection H as Hc H; congruence).
    injection H as -> H. f_equal. apply IH, H.
Qed.

(** X1.  [escapeHtml] leaves no character that opens or closes markup or an
    attribute value; it keeps a string that has none of them and no [&]; and
    two strings with the same escape are the same string. *)
Theorem escapeHtml_safe_and_injective :
  (forall s x,
     In x (list_ascii_of_string (escapeHtml s)) -> isMarkup x = false) /\
  (forall s,
     (forall x, In x (list_ascii_of_string s) ->
                isMarkup x = false /\ x <> "&"%char) ->
     escapeHtml s = s) /\
  (forall s1 s2, escapeHtml s1 = escapeHtml s2 -> s1 = s2).
Proof.
  split; [|split].
  - intros s x. rewrite escapeHtml_each.
    induction s as [|c r IH]; simpl; [tauto|].
    rewrite chars_app, in_app_iff. intros [H|H]; [|exact (IH H)].
    eapply escapeChar_safe, H.
  - intros s. rewrite escapeHtml_each.
    induction s as [|c r IH]; intros H; [reflexivity|]. simpl.
    rewrite IH by (intros x Hx; apply H; right; exact Hx).
    destruct (H c (or_introl eq_refl)) as [Hm Hamp].
    destruct (escapeChar_cases c)
      as [[-> _]|[[-> _]|[[-> _]|[[-> _]|[[-> _]|(-> & _)]]]]];
      try discriminate; try congruence. reflexivity.
  - intros s1 s2. rewrite !escapeHtml_each. apply escapeEach_injective.
Qed.

End HtmlFacts.


Module PagerFacts.
Import Browser Pager BrowserFacts.

Lemma totalPages_pos s :
  0 < pageSize s -> filtered s <> [] -> 1 <= totalPages s.
Proof.
  intros Hp Hne. unfold totalPages.
  destruct (filtered s) as [|d r]; [congruence|].
  destruct (Z.of_nat (length (d :: r)) =? 0) eqn:E.
  - apply Z.eqb_eq in E. simpl in E. lia.
  - apply ceilDiv_pos; [exact Hp|]. simpl length. lia.
Qed.

Lemma totalPages_nonneg s : 0 < pageSize s -> 0 <= totalPages s.
Proof.
  intros Hp. destruct (filtered s) eqn:E.
  - unfold totalPages. rewrite E. simpl. lia.
  - pose proof (totalPages_pos s Hp). rewrite E in H.
    specialize (H ltac:(discriminate)). lia.
Qed.

Lemma totalPagesOrOne_max s :
  0 < pageSize s -> totalPagesOrOne s = Z.max 1 (totalPages s).
Proof.
  intros Hp. unfold totalPagesOrOne, totalPages.
  destruct (Z.of_nat (length (filtered s)) =? 0) eqn:E.
  - apply Z.eqb_eq in E. rewrite E. unfold ceilDiv.
    rewrite Z.div_small by lia. reflexivity.
  - apply Z.eqb_neq in E.
    pose proof (ceilDiv_pos (Z.of_nat (length (filtered s))) _ Hp ltac:(lia)).
    destruct (ceilDiv _ _ =? 0) eqn:E0; [apply Z.eqb_eq in E0; lia|lia].
Qed.

(** [renderIndex] brings any page from 1 up into the range, and leaves a
    page of the range where it is. *)
Lemma renderIndex_range w :
  0 < pageSize (st w) -> 1 <= currentPage (st w) ->
  pageInRange (st (renderIndex w)) /\
  (pageInRange (st w) -> currentPage (st (renderIndex w)) = currentPage (st w)).
Proof.
  intros Hp H1. unfold pageInRange, totalPages, renderIndex. cbv zeta.
  destruct (Z.of_nat (length (filtered (st w))) =? 0) eqn:E; simpl.
  - rewrite E. simpl. split; [lia|]. intros H. lia.
  - assert (Hne : Z.of_nat (length (filtered (st w))) <> 0)
      by (apply Z.eqb_neq; exact E).
    pose proof (ceilDiv_pos (Z.of_nat (length (filtered (st w)))) _ Hp ltac:(lia)) as Hc.
    destruct (ceilDiv _ _ =? 0) eqn:E0; [apply Z.eqb_eq in E0; lia|].
    simpl.
    destruct (currentPage (st w) >? ceilDiv _ _) eqn:Eg; simpl.
    + rewrite E. rewrite Z.gtb_ltb in Eg. apply Z.ltb_lt in Eg.
      split; [lia|lia].
    + rewrite E. rewrite Z.gtb_ltb in Eg. apply Z.ltb_ge in Eg.
      split; [lia|reflexivity].
Qed.

Lemma slice_window {A} (l : list A) (a n : Z) :
  0 <= a -> 0 <= n ->
  slice l a (a + n) = take (Z.to_nat n) (drop (Z.to_nat a) l).
Proof.
  intros Ha Hn. unfold slice, sliceBound. cbv zeta.
  rewrite (proj2 (Z.ltb_ge a 0)) by lia.
  rewrite (proj2 (Z.ltb_ge (a + n) 0)) by lia.
  destruct (Z_le_gt_dec a (Z.of_nat (length l))) as [Hle|Hgt].
  - rewrite (Z.min_l a) by lia.
    destruct (Z_le_gt_dec (a + n) (Z.of_nat (length l))) as [Hle2|Hgt2].
    + rewrite Z.min_l by lia. f_equal. lia.
    + rewrite Z.min_r by lia.
      rewrite !take_ge; [reflexivity|rewrite length_drop; lia..].
  - rewrite !Z.min_r by lia. rewrite Z.sub_diag. simpl.
    rewrite (drop_ge l (Z.to_nat a)) by lia. destruct (Z.to_nat n); reflexivity.
Qed.

Lemma concat_windows {A} (l : list A) (n k : nat) :
  concat (map (fun i => take n (drop (i * n) l)) (seq 0 k)) = take (k * n) l.
Proof.
  induction k as [|k IH]; [reflexivity|].
  rewrite seq_S, map_app, concat_app, IH. simpl.
  rewrite app_nil_r, take_take_drop. f_equal. lia.
Qed.

Lemma ceilDiv_covers n d : 0 < d -> 0 <= n -> n <= ceilDiv n d * d.
Proof.
  intros Hd Hn. unfold ceilDiv.
  pose proof (Z.mul_succ_div_gt (n + d - 1) d Hd). lia.
Qed.

Lemma pageItems_window s p :
  0 < pageSize s -> 1 <= p -> filtered s <> [] ->
  pageItems (setCurrentPage p s) =
  take (Z.to_nat (pageSize s))
       (drop (Z.to_nat (p - 1) * Z.to_nat (pageSize s)) (filtered s)).
Proof.
  intros Hp H1 Hne. unfold pageItems. simpl.
  destruct (Z.of_nat (length (filtered s)) =? 0) eqn:E.
  { apply Z.eqb_eq in E. destruct (filtered s); [congruence|discriminate]. }
  rewrite slice_window by nia. do 2 f_equal. nia.
Qed.

Lemma pages_partition (s : State) :
  0 < pageSize s ->
  concat (map (fun p => pageItems (setCurrentPage p s))
              (seqZ 1 (totalPages s))) = filtered s /\
  (forall p, 1 <= p <= totalPages s ->
     pageItems (setCurrentPage p s) <> [] /\
     Z.of_nat (length (pageItems (setCurrentPage p s))) <= pageSize s).
Proof.
  intros Hp.
  destruct (filtered s) as [|d0 r0] eqn:El.
  { unfold totalPages. rewrite El. simpl. split; [reflexivity|]. intros p; lia. }
  assert (Hne : filtered s <> []) by (rewrite El; discriminate).
  pose proof (totalPages_pos s Hp Hne) as HT.
  assert (HTe : totalPages s =
                ceilDiv (Z.of_nat (length (filtered s))) (pageSize s)).
  { unfold totalPages. rewrite El.
    destruct (_ =? 0) eqn:E; [apply Z.eqb_eq in E; simpl in E; lia|reflexivity]. }
  rewrite <- El. split.
  - unfold seqZ. rewrite <- list_fmap_compose.
    erewrite (list_fmap_ext _ (fun i => take (Z.to_nat (pageSize s))
                 (drop (i * Z.to_nat (pageSize s)) (filtered s)))).
    2:{ intros i x _. simpl. rewrite pageItems_window by (try lia; exact Hne).
        do 3 f_equal. lia. }
    change (concat (map ?f ?l)) with (concat (map f l)).
    etransitivity; [apply (concat_windows (filtered s))|].
    apply take_ge.
    pose proof (ceilDiv_covers (Z.of_nat (length (filtered s))) _ Hp ltac:(lia)).
    rewrite <- HTe in H. nia.
  - intros p Hr. rewrite pageItems_window by (try lia; exact Hne).
    split.
    + intros Hnil. apply (f_equal (@length _)) in Hnil.
      rewrite length_take, length_drop in Hnil. simpl in Hnil.
      assert ((p - 1) * pageSize s < Z.of_nat (length (filtered s))).
      { rewrite HTe in Hr. unfold ceilDiv in Hr.
        pose proof (Z.mul_div_le (Z.of_nat (length (filtered s)) + pageSize s - 1)
                      (pageSize s) Hp). nia. }
      nia.
    + rewrite length_take. lia.
Qed.

(** X2.  The pages cut the filtered list into consecutive pieces: put end to
    end, the items of the pages 1 to [totalPages] are the filtered list,
    each page holds at most [pageSize] items and none of them is empty. *)
Theorem pages_partition_filtered (s : State) :
  0 < pageSize s ->
  concat (map (fun p => pageItems (setCurrentPage p s))
              (seqZ 1 (totalPages s))) = filtered s /\
  (forall p, 1 <= p <= totalPages s ->
     pageItems (setCurrentPage p s) <> [] /\
     Z.of_nat (length (pageItems (setCurrentPage p s))) <= pageSize s).
Proof. apply pages_partition. Qed.

Section Page.
Variable elements : Elements.

#[local] Abbreviation renderRoute := (renderRoute elements).
#[local] Abbreviation navigateToIndex := (navigateToIndex elements).

Lemma pageInRange_sameData s s' :
  sameData s s' -> currentPage s' = currentPage s ->
  pageInRange s -> pageInRange s'.
Proof.
  intros (_ & Hf & _ & Hps) Hc. unfold pageInRange, totalPages.
  rewrite Hf, Hps, Hc. trivial.
Qed.

Lemma renderIndex_keeps w :
  0 < pageSize (st w) -> pageInRange (st w) ->
  currentPage (st (renderIndex w)) = currentPage (st w).
Proof.
  intros Hp Hr. apply renderIndex_range; [exact Hp|apply Hr|exact Hr].
Qed.

(** [renderRoute] leaves a page of the range where it is. *)
Lemma renderRoute_keeps_page w :
  0 < pageSize (st w) -> pageInRange (st w) ->
  currentPage (st (renderRoute w)) = currentPage (st w).
Proof.
  intros Hp Hr.
  assert (Hidx : forall w0, route (st w0) = Index -> 0 < pageSize (st w0) ->
            pageInRange (st w0) ->
            currentPage (st (renderRoute w0)) = currentPage (st w0)).
  { intros w0 H0 Hp0 Hr0. rewrite renderRoute_index by exact H0.
    destruct (_ =? _)%nat; rewrite renderIndex_keeps;
      rewrite ?st_clearDetail, ?st_showView; auto. }
  assert (Hnav : forall w0, 0 < pageSize (st w0) -> pageInRange (st w0) ->
            currentPage (st (navigateToIndex w0)) = currentPage (st w0)).
  { intros w0 Hp0 Hr0.
    destruct (navigateToIndex_cases elements w0) as [[-> _] | ->];
      [|reflexivity].
    rewrite Hidx; auto. }
  rewrite renderRoute_unfold. unfold renderRouteWith.
  rewrite !st_showView.
  destruct (_ =? _)%nat.
  { rewrite renderIndex_keeps; rewrite ?st_showView; auto. }
  destruct (route (st w)) as [|rid].
  { rewrite renderIndex_keeps; rewrite ?st_clearDetail, ?st_showView; auto. }
  destruct (_ !! _) as [doc|].
  - destruct (negb _).
    + rewrite Hnav; rewrite ?st_showView; auto.
    + rewrite renderIndex_keeps; rewrite ?st_renderDetail, ?st_showView; auto.
  - rewrite Hnav; rewrite ?st_setStatus, ?st_showView; auto.
Qed.

Lemma renderRoute_range w :
  0 < pageSize (st w) -> pageInRange (st w) ->
  pageInRange (st (renderRoute w)) /\
  pageSize (st (renderRoute w)) = pageSize (st w).
Proof.
  intros Hp Hr. pose proof (renderRoute_sameData elements w) as Hs.
  split; [|apply Hs].
  eapply pageInRange_sameData; [exact Hs| |exact Hr].
  apply renderRoute_keeps_page; assumption.
Qed.


Lemma totalPages_sameData s s' : sameData s s' -> totalPages s' = totalPages s.
Proof. intros (_ & Hf & _ & Hps). unfold totalPages. rewrite Hf, Hps. reflexivity. Qed.

Lemma totalPagesOrOne_sameData s s' :
  sameData s s' -> totalPagesOrOne s' = totalPagesOrOne s.
Proof.
  intros (_ & Hf & _ & Hps). unfold totalPagesOrOne. rewrite Hf, Hps. reflexivity.
Qed.

Lemma setCurrentPage_range s p :
  1 <= p <= Z.max 1 (totalPages s) -> pageInRange (setCurrentPage p s).
Proof. unfold pageInRange, totalPages. simpl. trivial. Qed.

Lemma onPrevPage_range w :
  0 < pageSize (st w) -> pageInRange (st w) ->
  pageInRange (st (onPrevPage elements w)) /\
  currentPage (st (onPrevPage elements w)) = Z.max 1 (currentPage (st w) - 1) /\
  sameData (st w) (st (onPrevPage elements w)).
Proof.
  intros Hp Hr. unfold onPrevPage.
  destruct (currentPage (st w) >? 1) eqn:E.
  - rewrite Z.gtb_ltb in E. apply Z.ltb_lt in E.
    assert (Hin : pageInRange
              (st (withState (setCurrentPage (currentPage (st w) - 1) (st w)) w))).
    { apply setCurrentPage_range. unfold pageInRange in Hr. lia. }
    split; [apply renderRoute_range; assumption|].
    split; [rewrite renderRoute_keeps_page by assumption; simpl; lia|].
    match goal with |- context [renderRoute ?x] =>
      pose proof (renderRoute_sameData elements x) as Hs end.
    exact Hs.
  - rewrite Z.gtb_ltb in E. apply Z.ltb_ge in E.
    split; [exact Hr|]. split; [unfold pageInRange in Hr; lia|].
    unfold sameData; auto.
Qed.

Lemma onNextPage_range w :
  0 < pageSize (st w) -> pageInRange (st w) ->
  pageInRange (st (onNextPage elements w)) /\
  currentPage (st (onNextPage elements w)) =
    Z.min (Z.max 1 (totalPages (st w))) (currentPage (st w) + 1) /\
  sameData (st w) (st (onNextPage elements w)).
Proof.
  intros Hp Hr.
  pose proof (totalPagesOrOne_max (st w) Hp) as HT.
  set (last := Z.max 1 (totalPages (st w))) in *.
  unfold onNextPage. rewrite HT.
  destruct (currentPage (st w) <? last) eqn:E.
  - apply Z.ltb_lt in E.
    assert (Hin : pageInRange
              (st (withState (setCurrentPage (currentPage (st w) + 1) (st w)) w))).
    { apply setCurrentPage_range. unfold pageInRange in Hr. fold last. lia. }
    split; [apply renderRoute_range; assumption|].
    split; [rewrite renderRoute_keeps_page by assumption; simpl; lia|].
    match goal with |- context [renderRoute ?x] =>
      pose proof (renderRoute_sameData elements x) as Hs end.
    exact Hs.
  - apply Z.ltb_ge in E. split; [exact Hr|].
    split; [unfold pageInRange in Hr; fold last in Hr; lia|].
    unfold sameData; auto.
Qed.


(** X4.  While something matches, the index shows a page that is not empty:
    whatever page the state asks for, from 1 up, the cards drawn are between
    one and [pageSize] documents of the filtered list, those of the page
    [renderIndex] has settled on. *)
Theorem index_shows_a_full_page (w : World) :
  0 < pageSize (st w) -> 1 <= currentPage (st w) -> filtered (st w) <> [] ->
  renderedCards w <> [] /\
  Z.of_nat (length (renderedCards w)) <= pageSize (st w) /\
  (forall d, In d (renderedCards w) -> In d (filtered (st w))) /\
  1 <= currentPage (st (renderIndex w)) <= totalPages (st w).
Proof.
  intros Hp H1 Hne.
  destruct (renderIndex_range w Hp H1) as [Hr _].
  pose proof (renderIndex_sameData w) as Hs.
  pose proof Hs as (_ & Hf & _ & Hps).
  pose proof (totalPages_pos (st w) Hp Hne) as HT.
  rewrite <- (totalPages_sameData _ _ Hs) in HT.
  unfold pageInRange in Hr. rewrite Z.max_r in Hr by lia.
  assert (Heq : st (renderIndex w) =
                setCurrentPage (currentPage (st (renderIndex w))) (st (renderIndex w))).
  { destruct (st (renderIndex w)); reflexivity. }
  destruct (pages_partition (st (renderIndex w))) as [_ Hpages];
    [rewrite Hps; exact Hp|].
  destruct (Hpages _ Hr) as [Hn Hl]. rewrite <- Heq in Hn, Hl.
  unfold renderedCards.
  split; [exact Hn|]. split; [rewrite <- Hps; exact Hl|]. split.
  - intros d Hd. rewrite Heq in Hd.
    rewrite pageItems_window in Hd; [|rewrite Hps; exact Hp|lia|rewrite Hf; exact Hne].
    rewrite Hf in Hd. apply list_elem_of_In in Hd.
    apply list_elem_of_In. eapply subseteq_drop, subseteq_take, Hd.
  - rewrite <- (totalPages_sameData _ _ Hs). exact Hr.
Qed.

(** X5.  The pagination bar agrees with the buttons: when [renderIndex]
    shows it, [prev] is disabled exactly when [onPrevPage] does nothing and
    [next] exactly when [onNextPage] does nothing; when it hides the bar
    there is one page at most, and neither button would move. *)
Theorem pagination_bar_matches_buttons (w : World) (p : Pagination) :
  0 < pageSize (st w) -> 1 <= currentPage (st w) ->
  let s := st (renderIndex w) in
  let bar := paginationAfterIndex w p in
  (paginationHidden bar = false ->
     prevDisabled bar = negb (currentPage s >? 1) /\
     nextDisabled bar = negb (currentPage s <? totalPagesOrOne s)) /\
  (paginationHidden bar = true ->
     (currentPage s >? 1) = false /\
     (currentPage s <? totalPagesOrOne s) = false).
Proof.
  intros Hp H1 s bar.
  destruct (renderIndex_range w Hp H1) as [Hr _]. fold s in Hr.
  assert (Hps : 0 < pageSize s).
  { unfold s. destruct (renderIndex_sameData w) as (_ & _ & _ & ->). exact Hp. }
  pose proof (totalPagesOrOne_max s Hps) as HT.
  pose proof (totalPages_nonneg s Hps) as H0.
  unfold pageInRange in Hr.
  unfold bar, paginationAfterIndex. cbv zeta. fold s.
  destruct (Z.of_nat (length (filtered s)) =? 0) eqn:E.
  - simpl. split; [discriminate|]. intros _.
    assert (totalPages s = 0) by (unfold totalPages; rewrite E; reflexivity).
    rewrite HT. split; [rewrite Z.gtb_ltb|]; apply Z.ltb_ge; lia.
  - unfold renderPagination. rewrite E. simpl.
    destruct (totalPages s <=? 1) eqn:E1; simpl.
    + apply Z.leb_le in E1. split; [discriminate|]. intros _.
      rewrite HT. split; [rewrite Z.gtb_ltb|]; apply Z.ltb_ge; lia.
    + apply Z.leb_gt in E1. split; [|discriminate]. intros _.
      rewrite HT, Z.gtb_ltb. split.
      * destruct (currentPage s =? 1) eqn:E2.
        -- apply Z.eqb_eq in E2. rewrite (proj2 (Z.ltb_ge _ _)); [reflexivity|lia].
        -- apply Z.eqb_neq in E2. rewrite (proj2 (Z.ltb_lt _ _)); [reflexivity|lia].
      * destruct (currentPage s =? totalPages s) eqn:E2.
        -- apply Z.eqb_eq in E2. rewrite (proj2 (Z.ltb_ge _ _)); [reflexivity|lia].
        -- apply Z.eqb_neq in E2. rewrite (proj2 (Z.ltb_lt _ _)); [reflexivity|lia].
Qed.

End Page.
End PagerFacts.


Module StringFacts.

Import Slug.

Lemma app_cons c a b : String c a +:+ b = String c (a +:+ b).
Proof. reflexivity. Qed.

Lemma app_nil_right s : s +:+ EmptyString = s.
Proof. induction s as [|c r IH]; [reflexivity|]. rewrite app_cons, IH. reflexivity. Qed.

Lemma app_assoc_string (a b c : string) : (a +:+ b) +:+ c = a +:+ (b +:+ c).
Proof.
  induction a as [|x a IH]; [reflexivity|]. rewrite !app_cons, IH. reflexivity.
Qed.

Lemma rev_app_spec s1 s2 : String.rev_app s1 s2 = String.rev s1 +:+ s2.
Proof.
  revert s2; induction s1 as [|c r IH]; intros s2; [reflexivity|].
  unfold String.rev. simpl. rewrite IH, (IH (String c EmptyString)).
  rewrite app_assoc_string. reflexivity.
Qed.

Lemma rev_cons c s : String.rev (String c s) = String.rev s +:+ String c EmptyString.
Proof. unfold String.rev at 1. simpl. apply rev_app_spec. Qed.

Lemma rev_app_distr s1 s2 :
  String.rev (s1 +:+ s2) = String.rev s2 +:+ String.rev s1.
Proof.
  induction s1 as [|c r IH]; [simpl; rewrite app_nil_right; reflexivity|].
  rewrite app_cons, !rev_cons, IH, app_assoc_string. reflexivity.
Qed.

Lemma rev_involutive s : String.rev (String.rev s) = s.
Proof.
  induction s as [|c r IH]; [reflexivity|].
  rewrite rev_cons, rev_app_distr, IH. reflexivity.
Qed.

Lemma allChars_app f a b :
  allChars f (a +:+ b) = allChars f a && allChars f b.
Proof.
  induction a as [|c r IH]; [reflexivity|].
  rewrite app_cons. simpl. rewrite IH, andb_assoc. reflexivity.
Qed.

Lemma allChars_rev f s : allChars f (String.rev s) = allChars f s.
Proof.
  induction s as [|c r IH]; [reflexivity|].
  rewrite rev_cons, allChars_app, IH. simpl.
  rewrite andb_true_r, andb_comm. reflexivity.
Qed.

Lemma allChars_impl (f g : ascii -> bool) s :
  (forall c, f c = true -> g c = true) ->
  allChars f s = true -> allChars g s = true.
Proof.
  intros Hfg. induction s as [|c r IH]; [reflexivity|]. simpl.
  intros [Hc Hr]%andb_true_iff. rewrite (Hfg c Hc), (IH Hr). reflexivity.
Qed.

(** Strings are either empty or end in a character. *)
Lemma string_snoc s :
  s = EmptyString \/ exists r c, s = r +:+ String c EmptyString.
Proof.
  rewrite <- (rev_involutive s). destruct (String.rev s) as [|c r].
  - left; reflexivity.
  - right. exists (String.rev r), c. apply rev_cons.
Qed.

Lemma trimStart_noop f s :
  (forall c, f c = true -> isSpace c = false) ->
  allChars f s = true -> trimStart s = s.
Proof.
  intros Hf. destruct s as [|c r]; [reflexivity|]. simpl.
  intros [Hc _]%andb_true_iff. rewrite (Hf c Hc). reflexivity.
Qed.

(** A string without white space is its own [trim]. *)
Lemma trim_noop f s :
  (forall c, f c = true -> isSpace c = false) ->
  allChars f s = true -> trim s = s.
Proof.
  intros Hf Hs. unfold trim.
  rewrite (trimStart_noop f s Hf Hs).
  rewrite (trimStart_noop f (String.rev s) Hf).
  - apply rev_involutive.
  - rewrite allChars_rev. exact Hs.
Qed.

Lemma trimStart_head s :
  trimStart s = EmptyString \/
  exists c r, trimStart s = String c r /\ isSpace c = false.
Proof.
  induction s as [|c r IH]; [left; reflexivity|]. simpl.
  destruct (isSpace c) eqn:E; [exact IH|]. right. eauto.
Qed.

Lemma trimStart_suffix s :
  exists pre, s = pre +:+ trimStart s /\ allChars isSpace pre = true.
Proof.
  induction s as [|c r [pre [IH1 IH2]]]; [exists EmptyString; split; reflexivity|].
  simpl. destruct (isSpace c) eqn:E.
  - exists (String c pre). rewrite app_cons, <- IH1. simpl. rewrite E, IH2. auto.
  - exists EmptyString. split; reflexivity.
Qed.



Lemma trim_empty_or_ends s :
  trim s = EmptyString \/
  exists c r, trim s = String c r /\ isSpace c = false.
Proof.
  unfold trim.
  destruct (trimStart_head s) as [E|(a & ra & Ea & Ha)].
  { rewrite E. left; reflexivity. }
  set (b := String.rev (trimStart s)).
  destruct (trimStart_head b) as [E|(c & rc & Ec & Hc)].
  { rewrite E. left; reflexivity. }
  destruct (trimStart_suffix b) as (pre & Hb & _).
  rewrite Ec in *.
  assert (Hpre : String.rev (String c rc) +:+ String.rev pre = String a ra).
  { rewrite <- rev_app_distr, <- Hb. unfold b. rewrite rev_involutive. exact Ea. }
  destruct (String.rev (String c rc)) as [|x rx] eqn:Er.
  { apply (f_equal String.rev) in Er. rewrite rev_involutive in Er. discriminate. }
  rewrite app_cons in Hpre. injection Hpre as -> _.
  right. eauto.
Qed.

End StringFacts.

Module SlugFacts.

Import Slug StringFacts.

Lemma isSlugChar_not_dash c : isSlugChar c = true -> Ascii.eqb c "-" = false.
Proof.
  intros H. destruct (Ascii.eqb c "-") eqn:E; [|reflexivity].
  apply Ascii.eqb_eq in E. subst c. discriminate.
Qed.

Lemma collapseRuns_separated b s : separated b (collapseRuns b s) = true.
Proof.
  revert b; induction s as [|c r IH]; intros b; [reflexivity|]. simpl.
  destruct (isSlugChar c) eqn:Ec.
  - simpl. rewrite (isSlugChar_not_dash c Ec), Ec. apply IH.
  - destruct b; [apply IH|]. simpl. apply IH.
Qed.

Lemma dropLeadingDash_separated s :
  separated false s = true -> separated true (dropLeadingDash s) = true.
Proof.
  destruct s as [|c r]; [reflexivity|].
  destruct (Ascii.eqb c "-") eqn:E.
  - apply Ascii.eqb_eq in E. subst c. simpl. tauto.
  - intros H. replace (dropLeadingDash (String c r)) with (String c r).
    + simpl in *. rewrite E in *. exact H.
    + unfold dropLeadingDash.
      destruct c as [[] [] [] [] [] [] [] []]; try reflexivity. discriminate.
Qed.

Lemma dropLeadingDash_noop c r :
  Ascii.eqb c "-" = false -> dropLeadingDash (String c r) = String c r.
Proof.
  intros E. unfold dropLeadingDash.
  destruct c as [[] [] [] [] [] [] [] []]; try reflexivity. discriminate.
Qed.

Lemma dropTrailingDash_snoc s c :
  dropTrailingDash (s +:+ String c EmptyString) =
  if Ascii.eqb c "-" then s else s +:+ String c EmptyString.
Proof.
  induction s as [|x r IH].
  - simpl. destruct (Ascii.eqb c "-"); reflexivity.
  - rewrite app_cons. simpl. rewrite IH.
    replace (String.eqb (r +:+ String c EmptyString) "") with false.
    + rewrite andb_false_r. destruct (Ascii.eqb c "-"); reflexivity.
    + destruct r; reflexivity.
Qed.

(** The two reversals of [stripDashes] drop a dash at the end. *)
Lemma stripDashes_spec s :
  stripDashes s = dropTrailingDash (dropLeadingDash s).
Proof.
  unfold stripDashes. generalize (dropLeadingDash s) as t. intros t.
  destruct (string_snoc t) as [->|(r & c & ->)]; [reflexivity|].
  rewrite dropTrailingDash_snoc, rev_app_distr. simpl String.rev at 2.
  change (String.rev (String c "")) with (String c "").
  rewrite app_cons. change ("" +:+ String.rev r) with (String.rev r).
  destruct (Ascii.eqb c "-") eqn:E.
  - apply Ascii.eqb_eq in E. subst c. simpl. apply rev_involutive.
  - rewrite dropLeadingDash_noop by exact E.
    rewrite rev_cons, rev_involutive. reflexivity.
Qed.

Lemma dropTrailingDash_slug b s :
  separated b s = true ->
  dropTrailingDash s = EmptyString \/ slugFrom b (dropTrailingDash s) = true.
Proof.
  revert b; induction s as [|c r IH]; intros b H; [left; reflexivity|].
  simpl in *. destruct (Ascii.eqb c "-") eqn:E.
  - apply andb_true_iff in H as [Hb Hr].
    destruct (String.eqb r "") eqn:Er; [left; reflexivity|]. right. simpl.
    rewrite E, Hb. simpl. destruct (IH true Hr) as [H0|H0]; [|exact H0].
    destruct r as [|x r']; [discriminate|]. simpl in H0, Hr.
    destruct (Ascii.eqb x "-"); [discriminate Hr|]. simpl in H0. discriminate.
  - apply andb_true_iff in H as [Hc Hr]. right. simpl. rewrite E, Hc. simpl.
    destruct (IH false Hr) as [H0|H0]; [rewrite H0; reflexivity|exact H0].
Qed.

(** What [createSlug] makes of any string is a slug. *)
Lemma slugged_isSlug s :
  let slug := stripDashes (collapseRuns false s) in
  isSlug (if String.eqb slug "" then "resource" else slug) = true.
Proof.
  cbv zeta. rewrite stripDashes_spec.
  pose proof (dropLeadingDash_separated _ (collapseRuns_separated false s)) as H.
  apply dropTrailingDash_slug in H. destruct H as [H|H].
  - rewrite H. reflexivity.
  - destruct (String.eqb _ "") eqn:E; [reflexivity|exact H].
Qed.




Lemma slug_chars b s : slugFrom b s = true -> allChars slugOrDash s = true.
Proof.
  revert b; induction s as [|c r IH]; intros b H; [reflexivity|]. simpl in *.
  unfold slugOrDash at 1. destruct (Ascii.eqb c "-") eqn:E.
  - apply andb_true_iff in H as [_ H]. rewrite orb_true_r. apply (IH true H).
  - apply andb_true_iff in H as [Hc H]. rewrite Hc. apply (IH false H).
Qed.

Lemma slugOrDash_cases c :
  slugOrDash c = true ->
  isSpace c = false /\ Loader.isUnreserved c = true /\
  Ascii.eqb c "/" = false /\ Ascii.eqb c "%" = false.
Proof.
  unfold slugOrDash. intros [H|H]%orb_true_iff.
  - unfold isSlugChar in H. unfold isSpace, Loader.isUnreserved, Loader.isAlnum.
    assert (Hn : (97 <= nat_of_ascii c <= 122 \/ 48 <= nat_of_ascii c <= 57)%nat).
    { apply orb_true_iff in H as [H|H]; apply andb_true_iff in H as [H1 H2];
        apply Nat.leb_le in H1, H2; lia. }
    repeat split.
    + apply orb_false_iff. split.
      * apply andb_false_iff. destruct Hn as [Hn|Hn].
        -- right. apply Nat.leb_gt. lia.
        -- right. apply Nat.leb_gt. lia.
      * apply Nat.eqb_neq. lia.
    + apply orb_true_iff. left.
      destruct Hn as [Hn|Hn].
      * replace ((97 <=? nat_of_ascii c)%nat) with true by (symmetry; apply Nat.leb_le; lia).
        replace ((nat_of_ascii c <=? 122)%nat) with true by (symmetry; apply Nat.leb_le; lia).
        reflexivity.
      * replace ((48 <=? nat_of_ascii c)%nat) with true by (symmetry; apply Nat.leb_le; lia).
        replace ((nat_of_ascii c <=? 57)%nat) with true by (symmetry; apply Nat.leb_le; lia).
        rewrite !orb_true_r. reflexivity.
    + apply Ascii.eqb_neq. intros ->. change (nat_of_ascii _) with 47%nat in Hn. lia.
    + apply Ascii.eqb_neq. intros ->. change (nat_of_ascii _) with 37%nat in Hn. lia.
  - apply Ascii.eqb_eq in H. subst c. repeat split; reflexivity.
Qed.


End SlugFacts.


Module IdFacts.

Import Slug StringFacts SlugFacts JsFacts NormaliserFacts.

Lemma slugChars_slug b c r :
  allChars isSlugChar (String c r) = true -> slugFrom b (String c r) = true.
Proof.
  revert b c; induction r as [|x r IH]; intros b c; simpl.
  - intros [Hc _]%andb_true_iff.
    rewrite (isSlugChar_not_dash c Hc), Hc. reflexivity.
  - intros [Hc Hr]%andb_true_iff.
    rewrite (isSlugChar_not_dash c Hc), Hc. apply (IH false x Hr).
Qed.

(** A slug followed by a dash and a number is a slug. *)
Lemma slug_suffix b s c r :
  slugFrom b s = true -> allChars isSlugChar (String c r) = true ->
  slugFrom b (s +:+ String "-" (String c r)) = true.
Proof.
  intros Hs Hn. revert b Hs; induction s as [|x s IH]; intros b Hs.
  - destruct b; [discriminate|].
    change (slugFrom false (String "-" (String c r)) = true).
    cbn [slugFrom]. change (Ascii.eqb "-" "-") with true. cbv iota.
    apply (slugChars_slug true c r Hn).
  - rewrite app_cons. simpl in *. destruct (Ascii.eqb x "-").
    + apply andb_true_iff in Hs as [-> Hs]. apply (IH true Hs).
    + apply andb_true_iff in Hs as [-> Hs]. apply (IH false Hs).
Qed.

Lemma pretty_N_go_digits x s :
  allChars isSlugChar s = true -> allChars isSlugChar (pretty_N_go x s) = true.
Proof.
  revert s. induction (N.lt_wf_0 x) as [x _ IH]; intros s Hs.
  assert (x = 0 \/ 0 < x)%N as [->|Hx] by lia.
  - rewrite pretty_N_go_0. exact Hs.
  - rewrite pretty_N_go_step by exact Hx. apply IH.
    + apply N.div_lt; [exact Hx|reflexivity].
    + simpl. rewrite Hs, andb_true_r.
      unfold pretty_N_char. repeat case_match; reflexivity.
Qed.

Lemma pretty_N_go_nonempty x s : s <> EmptyString -> pretty_N_go x s <> EmptyString.
Proof.
  revert s. induction (N.lt_wf_0 x) as [x _ IH]; intros s Hs.
  assert (x = 0 \/ 0 < x)%N as [->|Hx] by lia.
  - rewrite pretty_N_go_0. exact Hs.
  - rewrite pretty_N_go_step by exact Hx. apply IH.
    + apply N.div_lt; [exact Hx|reflexivity].
    + discriminate.
Qed.

Lemma pretty_nat_digits (n : nat) :
  exists c r, pretty n = String c r /\ allChars isSlugChar (String c r) = true.
Proof.
  assert (H : pretty n <> EmptyString /\ allChars isSlugChar (pretty n) = true).
  { unfold pretty, pretty_nat, pretty, pretty_N.
    destruct (decide (N.of_nat n = 0%N)); [split; [discriminate|reflexivity]|].
    assert (0 < N.of_nat n)%N as Hx by lia.
    rewrite pretty_N_go_step by exact Hx. split.
    - apply pretty_N_go_nonempty. discriminate.
    - apply pretty_N_go_digits. simpl. rewrite andb_true_r.
      unfold pretty_N_char. repeat case_match; reflexivity. }
  destruct H as [H1 H2]. destruct (pretty n) as [|c r]; [congruence|eauto].
Qed.

Lemma appendTimes_slug k (n : nat) base :
  isSlug base = true -> isSlug (appendTimes k ("-" +:+ pretty n) base) = true.
Proof.
  revert base; induction k as [|k IH]; intros base H; [exact H|].
  simpl. apply IH. destruct (pretty_nat_digits n) as (c & r & -> & Hd).
  apply slug_suffix; assumption.
Qed.

Lemma createSlug_image v t : createSlug v = Ok t -> isSlug t = true.
Proof.
  unfold createSlug. intros H. inv_bind H. injection H as <-.
  apply slugged_isSlug.
Qed.

(** An unreserved string is its own encoding. *)
Lemma encodeURIComponent_slug s :
  allChars slugOrDash s = true -> Loader.encodeURIComponent s = s.
Proof.
  induction s as [|c r IH]; [reflexivity|]. simpl.
  intros [Hc Hr]%andb_true_iff.
  destruct (slugOrDash_cases c Hc) as (_ & -> & _). rewrite (IH Hr). reflexivity.
Qed.

Section PlatformFacts.
Variable collate : string -> string -> Z.
Variable dateParse : string -> option Z.
Variable stripHtml : string -> string.

#[local] Abbreviation normaliseResources :=
  (normaliseResources collate dateParse stripHtml).

Lemma id_isSlug payload docs d :
  normaliseResources payload = Ok docs -> In d docs -> isSlug (id d) = true.
Proof.
  intros H Hd.
  destruct (normaliseResources_inv _ _ _ _ _ H)
    as (es & m & st & _ & _ & (_ & _ & _ & _ & Hid) & Hperm).
  assert (Hd0 : In d (snd st)) by (eapply Permutation_in; eassumption).
  apply list_elem_of_In, list_elem_of_lookup in Hd0 as [i Hi].
  destruct (Hid i d Hi) as (base & k & Hbase & -> & _).
  apply appendTimes_slug. eapply createSlug_image, Hbase.
Qed.

End PlatformFacts.

End IdFacts.

Module RouteFacts.

Import Browser Pager Slug StringFacts SlugFacts IdFacts JsFacts BrowserFacts.





Lemma splitAux_whole sep cur s :
  allChars (fun c => negb (Ascii.eqb c sep)) s = true ->
  splitAux sep cur s = [String.rev cur +:+ s].
Proof.
  revert cur; induction s as [|c r IH]; intros cur; simpl.
  - intros _. rewrite app_nil_right. reflexivity.
  - intros [Hc Hr]%andb_true_iff. apply negb_true_iff in Hc. rewrite Hc.
    rewrite (IH _ Hr), rev_cons, app_assoc_string. reflexivity.
Qed.

Section Page.
Variable elements : Elements.
Variable decodeURIComponent : string -> result string.

#[local] Abbreviation renderRoute := (renderRoute elements).
#[local] Abbreviation parseHash := (parseHash decodeURIComponent).
#[local] Abbreviation handleRouteChange :=
  (handleRouteChange elements decodeURIComponent).
#[local] Abbreviation deliverHashChange :=
  (deliverHashChange elements decodeURIComponent).
#[local] Abbreviation navigateToDocument := (navigateToDocument elements).

Lemma parseHash_document e :
  e <> EmptyString -> allChars hashSafe e = true ->
  parseHash ("#/document/" +:+ e) =
  let* rid := decodeURIComponent e in Ok (Detail rid).
Proof.
  intros He Hs. unfold Browser.parseHash.
  change (dropHashMark ("#/document/" +:+ e)) with ("/document/" +:+ e).
  rewrite (trim_noop (fun c => negb (isSpace c))).
  - change ("/document/" +:+ e)
      with (String "/" (String "d" (String "o" (String "c" (String "u"
             (String "m" (String "e" (String "n" (String "t"
             (String "/" e)))))))))).
    cbn [String.eqb Ascii.eqb Bool.eqb orb]. cbv iota.
    unfold split. cbn [splitAux Ascii.eqb Bool.eqb]. cbv iota.
    rewrite splitAux_whole.
    + change ("" +:+ e) with e.
      change (String.rev "tnemucod") with "document".
      change (String.rev "") with "".
      cbn [List.filter String.eqb negb]. cbv iota.
      destruct e as [|c r]; [congruence|]. cbn [String.eqb negb]. cbv iota.
      reflexivity.
    + eapply allChars_impl; [|exact Hs]. intros c Hc.
      apply andb_true_iff in Hc as [_ Hc]. exact Hc.
  - intros c Hc. apply negb_true_iff in Hc. exact Hc.
  - change ("/document/" +:+ e) with ("/document/" +:+ e)%string.
    rewrite allChars_app. apply andb_true_iff. split; [reflexivity|].
    eapply allChars_impl; [|exact Hs]. intros c Hc.
    apply andb_true_iff in Hc as [Hc _]. exact Hc.
Qed.




Lemma renderRoute_index_shown w :
  route (st w) = Index ->
  let w' := renderRoute w in
  route (st w') = Index /\ win w' = win w /\ sameData (st w) (st w') /\
  viewDetailClass (dom w') = false /\
  (detailView elements = true ->
   detailHidden (dom w') = true /\
   (documents (st w) <> [] -> detailContent (dom w') = None)).
Proof.
  intros Hr. cbv zeta.
  destruct (renderRoute_index_result elements w Hr) as (Hs & Hroute & Hwin & _).
  split; [exact Hroute|]. split; [exact Hwin|]. split; [exact Hs|].
  rewrite renderRoute_index by exact Hr.
  destruct (documents (st w)) as [|d0 ds] eqn:Ed; cbn [length Nat.eqb].
  - destruct (renderIndex_frame (showView elements false w)) as (_ & -> & _).
    unfold showView. simpl. split; [reflexivity|]. intros ->.
    split; [reflexivity|congruence].
  - destruct (renderIndex_frame
                (clearDetail elements (showView elements false w)))
      as (_ & -> & _).
    unfold clearDetail, showView. simpl.
    destruct (detailView elements); simpl; split; auto; discriminate.
Qed.

(** X7.  The Home link leads back to the index: once the browser has
    delivered the hash change, the route is the index, the hash is one of
    the index, the detail panel is hidden and, when documents are loaded,
    emptied, and the collection is untouched. *)
Theorem home_link_returns_to_index (w : World) :
  let w' := fst (deliverHashChange (navigateToIndex elements w)) in
  route (st w') = Index /\
  (hash (win w') = "#/" \/ hash (win w') = "" \/ hash (win w') = "#") /\
  sameData (st w) (st w') /\
  viewDetailClass (dom w') = false /\
  (detailView elements = true ->
   detailHidden (dom w') = true /\
   (documents (st w) <> [] -> detailContent (dom w') = None)).
Proof.
  cbv zeta.
  (* what [handleRouteChange] does on a hash of the index *)
  assert (Hhandle : forall w0 q,
    (hash (win w0) = "#/" \/ hash (win w0) = "" \/ hash (win w0) = "#") ->
    sameData (st w) (st w0) ->
    let w' := fst (handleRouteChange
                     (mkWorld (st w0) (mkWindow (hash (win w0)) q) (dom w0))) in
    route (st w') = Index /\
    (hash (win w') = "#/" \/ hash (win w') = "" \/ hash (win w') = "#") /\
    sameData (st w) (st w') /\ viewDetailClass (dom w') = false /\
    (detailView elements = true ->
     detailHidden (dom w') = true /\
     (documents (st w) <> [] -> detailContent (dom w') = None))).
  { intros w0 q Hh (Hs1 & Hs2 & Hs3 & Hs4). cbv zeta.
    unfold Browser.handleRouteChange. cbn [win hash st].
    rewrite (parseHash_index decodeURIComponent _ Hh). cbn [fst].
    match goal with |- context [renderRoute ?x] => set (w1 := x) end.
    assert (Hr1 : route (st w1) = Index).
    { unfold w1. cbn [st withState]. destruct (negb _); reflexivity. }
    assert (Hsame : sameData (st w) (st w1)).
    { unfold w1. cbn [st withState].
      destruct (negb _); repeat split; simpl; assumption. }
    destruct (renderRoute_index_shown w1 Hr1) as (R1 & R2 & R3 & R4 & R5).
    split; [exact R1|]. split.
    { rewrite R2. unfold w1. destruct (negb _); exact Hh. }
    split.
    { destruct Hsame as (A & B & C & D), R3 as (A' & B' & C' & D').
      repeat split; congruence. }
    split; [exact R4|]. intros Hdv. destruct (R5 Hdv) as [R6 R7].
    split; [exact R6|]. intros Hne. apply R7.
    destruct Hsame as (A & _). rewrite A. exact Hne. }
  destruct (navigateToIndex_cases elements w) as [[-> Hh] | ->].
  - set (w0 := withState (setRoute Index (st w)) w).
    destruct (renderRoute_index_shown w0 eq_refl) as (R1 & R2 & R3 & R4 & R5).
    unfold Browser.deliverHashChange.
    destruct (hashChangeQueued (win (renderRoute w0))).
    + apply Hhandle; [rewrite R2; exact Hh|exact R3].
    + cbn [fst]. rewrite R2. auto.
  - unfold Browser.deliverHashChange, assignHash.
    cbn [win hashChangeQueued st dom hash].
    apply (Hhandle (mkWorld (st w) (mkWindow "#/" true) (dom w)) false);
      [left; reflexivity|repeat split].
Qed.

End Page.

End RouteFacts.


Module TotalFacts.

Import Shape JsFacts NormaliserFacts.


Lemma insertM_total {A} (cmp : A -> A -> result Z) (P : A -> Prop) x l :
  (forall a b, P a -> P b -> exists c, cmp a b = Ok c) ->
  P x -> Forall P l -> exists l', insertM cmp x l = Ok l'.
Proof.
  intros Hc Hx. induction l as [|y r IH]; intros Hl; simpl; [eauto|].
  apply Forall_cons in Hl as [Hy Hr].
  destruct (Hc x y Hx Hy) as (c & ->). simpl.
  destruct (c <=? 0); [eauto|]. destruct (IH Hr) as (r' & ->). simpl. eauto.
Qed.

Lemma sortM_total {A} (cmp : A -> A -> result Z) (P : A -> Prop) l :
  (forall a b, P a -> P b -> exists c, cmp a b = Ok c) ->
  Forall P l -> exists l', sortM cmp l = Ok l' /\ l' ≡ₚ l.
Proof.
  intros Hc. induction l as [|x r IH]; intros Hl; simpl; [eauto|].
  apply Forall_cons in Hl as [Hx Hr].
  destruct (IH Hr) as (r' & E & Hp). rewrite E. simpl.
  destruct (insertM_total cmp P x r' Hc Hx) as (l' & El).
  - rewrite Hp. exact Hr.
  - exists l'. split; [exact El|].
    rewrite (insertM_perm _ _ _ _ El), Hp. reflexivity.
Qed.




























Section PlatformFacts.
Variable collate : string -> string -> Z.
Variable dateParse : string -> option Z.
Variable stripHtml : string -> string.

#[local] Abbreviation normaliseResources :=
  (normaliseResources collate dateParse stripHtml).
#[local] Abbreviation buildDocument :=
  (buildDocument collate dateParse stripHtml).
#[local] Abbreviation compareStrings := (compareStrings collate).





Lemma sortStrings_total l : exists l', sortStrings collate l = Ok l'.
Proof.
  unfold sortStrings.
  destruct (sortM_total (fun a b => compareStrings (VStr a) (VStr b))
              (fun _ => True) l) as (l' & E & _).
  - intros a b _ _. simpl. eauto.
  - apply Forall_forall. auto.
  - eauto.
Qed.









End PlatformFacts.

End TotalFacts.


Module OrderFacts.

Import Shape Slug Browser JsFacts NormaliserFacts StringFacts.

Section Orders.
Variable collate : string -> string -> Z.
Hypothesis collate_consistent : consistent collate.

Lemma collate_swap a b : Z.sgn (collate b a) = - Z.sgn (collate a b).
Proof using collate_consistent. apply collate_consistent. Qed.

Lemma collate_le_trans a b c :
  collate a b <= 0 -> collate b c <= 0 -> collate a c <= 0.
Proof using collate_consistent. apply collate_consistent. Qed.

Lemma collate_gt_swap a b : 0 < collate a b -> collate b a < 0.
Proof using collate_consistent. pose proof (collate_swap a b). lia. Qed.

Lemma collate_eq_swap a b : collate a b = 0 -> collate b a = 0.
Proof using collate_consistent. pose proof (collate_swap a b). lia. Qed.

Lemma collate_lt_le_trans a b c :
  collate a b < 0 -> collate b c <= 0 -> collate a c < 0.
Proof using collate_consistent.
  intros H1 H2. assert (H3 : collate a c <= 0) by (eapply collate_le_trans; [|exact H2]; lia).
  assert (collate a c <> 0); [|lia]. intros H0.
  apply collate_eq_swap in H0.
  assert (collate b a <= 0) by (eapply collate_le_trans; [exact H2|lia]).
  pose proof (collate_swap a b). lia.
Qed.

Lemma collate_le_lt_trans a b c :
  collate a b <= 0 -> collate b c < 0 -> collate a c < 0.
Proof using collate_consistent.
  intros H1 H2. assert (H3 : collate a c <= 0) by (eapply collate_le_trans; [exact H1|]; lia).
  assert (collate a c <> 0); [|lia]. intros H0.
  apply collate_eq_swap in H0.
  assert (collate c b <= 0) by (eapply collate_le_trans; [|exact H1]; lia).
  pose proof (collate_swap b c). lia.
Qed.

Lemma collate_eq_trans a b c :
  collate a b = 0 -> collate b c = 0 -> collate a c = 0.
Proof using collate_consistent.
  intros H1 H2.
  assert (collate a c <= 0) by (apply (collate_le_trans a b c); lia).
  assert (collate c a <= 0).
  { apply collate_eq_swap in H1. apply collate_eq_swap in H2.
    apply (collate_le_trans c b a); lia. }
  pose proof (collate_swap a c). lia.
Qed.

Lemma lexBefore_trans a1 a2 b1 b2 c1 c2 :
  lexBefore collate a1 a2 b1 b2 -> lexBefore collate b1 b2 c1 c2 ->
  lexBefore collate a1 a2 c1 c2.
Proof using collate_consistent.
  unfold lexBefore. intros [H1|[H1 H1']] [H2|[H2 H2']].
  - left. eapply collate_lt_le_trans; [exact H1|lia].
  - left. eapply collate_lt_le_trans; [exact H1|lia].
  - left. eapply collate_le_lt_trans; [|exact H2]. lia.
  - right. split; [eapply collate_eq_trans; eassumption|].
    eapply collate_le_trans; eassumption.
Qed.

Lemma compareStrings_shown a b c :
  compareStrings collate a b = Ok c -> c = collate (shown a) (shown b).
Proof.
  unfold compareStrings, shown.
  destruct (defaultArg a (VStr "")); try discriminate.
  intros [= <-]. reflexivity.
Qed.

Lemma compareThen_le a1 b1 a2 b2 c :
  compareThen collate a1 b1 a2 b2 = Ok c -> c <= 0 ->
  lexBefore collate (shown a1) (shown a2) (shown b1) (shown b2).
Proof.
  unfold compareThen, lexBefore. intros H Hc. inv_bind H.
  apply compareStrings_shown in E. subst x.
  destruct (Z.eqb_spec (collate (shown a1) (shown b1)) 0) as [E0|E0].
  - apply compareStrings_shown in H. subst c. right. auto.
  - injection H as <-. left. lia.
Qed.

Lemma compareThen_gt a1 b1 a2 b2 c :
  compareThen collate a1 b1 a2 b2 = Ok c -> 0 < c ->
  lexBefore collate (shown b1) (shown b2) (shown a1) (shown a2).
Proof using collate_consistent.
  unfold compareThen, lexBefore. intros H Hc. inv_bind H.
  apply compareStrings_shown in E. subst x.
  destruct (Z.eqb_spec (collate (shown a1) (shown b1)) 0) as [E0|E0].
  - apply compareStrings_shown in H. subst c. right.
    split; [apply collate_eq_swap, E0|].
    apply collate_gt_swap in Hc. lia.
  - injection H as <-. left. apply collate_gt_swap, Hc.
Qed.

Lemma sortStrings_sorted l l' :
  sortStrings collate l = Ok l' -> StronglySorted (collatedBefore collate) l'.
Proof using collate_consistent.
  unfold sortStrings. apply sortM_sorted.
  - intros a b c. apply collate_le_trans.
  - intros x y c [= <-] Hc. exact Hc.
  - intros x y c [= <-] Hc. unfold collatedBefore.
    apply collate_gt_swap in Hc. simpl in Hc. lia.
Qed.

Lemma sortValues_sorted l l' :
  sortValues collate l = Ok l' -> StronglySorted (shownBefore collate) l'.
Proof using collate_consistent.
  unfold sortValues. apply sortM_sorted.
  - intros a b c. apply collate_le_trans.
  - intros x y c H Hc. apply compareStrings_shown in H. subst c. exact Hc.
  - intros x y c H Hc. apply compareStrings_shown in H. subst c.
    unfold shownBefore. apply collate_gt_swap in Hc. lia.
Qed.

Lemma sortByTwo_sorted {A} (k1 k2 : A -> value) l l' :
  sortM (fun a b => compareThen collate (k1 a) (k1 b) (k2 a) (k2 b)) l = Ok l' ->
  StronglySorted
    (fun a b => lexBefore collate (shown (k1 a)) (shown (k2 a))
                                  (shown (k1 b)) (shown (k2 b))) l'.
Proof using collate_consistent.
  apply sortM_sorted.
  - intros a b c. apply lexBefore_trans.
  - intros x y c. apply compareThen_le.
  - intros x y c. apply compareThen_gt.
Qed.

End Orders.

Section Built.
Variable collate : string -> string -> Z.
Variable dateParse : string -> option Z.
Variable stripHtml : string -> string.

#[local] Abbreviation normaliseResources :=
  (normaliseResources collate dateParse stripHtml).
#[local] Abbreviation buildDocument :=
  (buildDocument collate dateParse stripHtml).
#[local] Abbreviation assembled := (Built.assembled collate dateParse stripHtml).

Lemma buildDocument_assembled used docs kd used' docs' :
  buildDocument (used, docs) kd = Ok (used', docs') ->
  exists d, docs' = docs ++ [d] /\ assembled kd d.
Proof.
  destruct kd as [k doc]. unfold Normaliser.buildDocument. intros H.
  inv_bind H. rename x into base.
  inv_bind H. rename x into vs.
  inv_bind H. rename x into vs'.
  inv_bind H. rename x into types.
  inv_bind H. rename x into ctxs.
  inv_bind H. rename x into latest.
  inv_bind H. rename x into cats.
  inv_bind H. rename x into lifes.
  injection H as <- <-.
  eexists. split; [reflexivity|]. unfold Built.assembled. simpl.
  split; [reflexivity|]. split; [exists vs; split; assumption|].
  repeat split; assumption.
Qed.

Lemma built_assembled m st :
  foldM buildDocument m (∅, []) = Ok st -> Forall2 assembled m (snd st).
Proof.
  apply (foldM_ind buildDocument (fun pre st => Forall2 assembled pre (snd st))).
  - constructor.
  - intros pre kd [used docs] [used' docs'] Hpre Hstep. simpl in *.
    destruct (buildDocument_assembled _ _ _ _ _ Hstep) as (d & -> & Hd).
    apply Forall2_app; [exact Hpre|]. constructor; [exact Hd|constructor].
Qed.

(** Every returned document was assembled from the accumulator of its
    key, itself the fold of [mergeEntry] over the entries of the key. *)
Lemma document_assembled payload docs :
  normaliseResources payload = Ok docs ->
  exists es built,
    payloadEntries payload = Ok es /\ docs ≡ₚ built /\
    sortM (compareDocuments collate) built = Ok docs /\
    forall d, In d docs ->
      exists doc c e rest,
        contributing (keyOf (key d)) es = (c, e) :: rest /\
        foldM mergeStep ((c, e) :: rest) (newDoc e) = Ok doc /\
        assembled (key d, doc) d.
Proof.
  unfold Normaliser.normaliseResources. intros H.
  inv_bind H. rename x into m. inv_bind H. rename x into st.
  destruct (collectDocuments_entries _ _ E) as (es & Hes & Hfold).
  pose proof (collected_fold _ _ Hfold) as (_ & _ & Hdocs).
  pose proof (built_assembled _ _ E0) as HF.
  pose proof (sortM_perm _ _ _ H) as Hperm.
  exists es, (snd st). split; [exact Hes|]. split; [exact Hperm|].
  split; [exact H|]. intros d Hd.
  assert (Hd0 : In d (snd st)) by (eapply Permutation_in; eassumption).
  destruct (Forall2_In_r _ _ _ _ HF Hd0) as ([k doc] & Hin & Ha).
  destruct (Hdocs _ _ Hin) as (_ & c & e & rest & Hc & Hf).
  assert (Hk : key d = k) by apply Ha. subst k.
  exists doc, c, e, rest. auto.
Qed.

Lemma mapM_In {A B} (f : A -> result B) l l' y :
  mapM f l = Ok l' -> In y l' -> exists x, In x l /\ f x = Ok y.
Proof.
  revert l'; induction l as [|x r IH]; intros l' H Hy; simpl in H.
  - injection H as <-. destruct Hy.
  - inv_bind H. inv_bind H. injection H as <-. destruct Hy as [<-|Hy].
    + exists x. split; [left; reflexivity|assumption].
    + destruct (IH _ E0 Hy) as (x' & Hx' & Hf). exists x'. split; [right|]; assumption.
Qed.

(** X9.  With a consistent [localeCompare], everything the normaliser
    returns is sorted by the comparator of its [sort] call: the documents
    by number then name, and in each document the categories, contexts,
    lifecycle values and option types by collation, and the download
    options of each version by type then name. *)
Theorem normalised_lists_are_sorted (payload : value) (docs : list Document) :
  consistent collate ->
  normaliseResources payload = Ok docs ->
  StronglySorted (documentBefore collate) docs /\
  forall d, In d docs ->
    StronglySorted (collatedBefore collate) (categories d) /\
    StronglySorted (collatedBefore collate) (contexts d) /\
    StronglySorted (shownBefore collate) (lifecycle d) /\
    StronglySorted (shownBefore collate) (optionTypes d) /\
    forall v, In v (versions d) ->
      StronglySorted (optionBefore collate) (options v).
Proof.
  intros Hc Hn.
  destruct (document_assembled _ _ Hn) as (es & built & _ & _ & Hsort & Hdocs).
  split.
  { unfold documentBefore. revert Hsort. unfold compareDocuments.
    apply (sortByTwo_sorted collate Hc documentNumber apiName). }
  intros d Hd.
  destruct (Hdocs d Hd) as (doc & c & e & rest & _ & _ & Ha).
  destruct Ha as (_ & (vs & _ & Hvs) & Htypes & Hctx & _ & Hcat & Hlife & _).
  simpl in *.
  split; [eapply sortStrings_sorted; eassumption|].
  split; [eapply sortStrings_sorted; eassumption|].
  split; [eapply sortValues_sorted; eassumption|].
  split; [eapply sortValues_sorted; eassumption|].
  intros v Hv. destruct (mapM_In _ _ _ _ Hvs Hv) as (v0 & _ & Hv0).
  unfold sortOptions in Hv0. inv_bind Hv0. injection Hv0 as <-. simpl.
  unfold optionBefore. revert E. unfold compareOptions.
  apply (sortByTwo_sorted collate Hc type name).
Qed.

#[local] Abbreviation timestamp := (timestamp dateParse).

Lemma latestOf_from acc vs t :
  foldM (fun acc v => let* t := parseDate dateParse (published v) in
                      Ok (Z.max acc t)) vs acc = Ok t ->
  acc <= t /\ (forall v, In v vs -> timestamp v <= t) /\
  (t = acc \/ exists v, In v vs /\ timestamp v = t).
Proof.
  revert acc; induction vs as [|v r IH]; intros acc H; simpl in H.
  - injection H as <-. split; [lia|]. split; [intros ? []|left; reflexivity].
  - inv_bind H. inv_bind E. injection E as <-.
    destruct (IH _ H) as (H1 & H2 & H3).
    assert (Hv : timestamp v = x0) by (unfold Normaliser.timestamp; rewrite E0; reflexivity).
    split; [lia|]. split.
    + intros v' [<-|Hv']; [lia|apply H2, Hv'].
    + destruct H3 as [H3|(v' & Hv' & H3)].
      * destruct (Z.max_spec acc x0) as [[_ Hm]|[_ Hm]].
        -- right. exists v. split; [left; reflexivity|]. lia.
        -- left. lia.
      * right. exists v'. split; [right|]; assumption.
Qed.

Lemma sorted_head_newest vs v0 rest v :
  StronglySorted (versionBefore collate dateParse) vs -> vs = v0 :: rest ->
  In v vs -> timestamp v <= timestamp v0.
Proof.
  intros Hs -> [<-|Hv]; [lia|].
  apply StronglySorted_inv in Hs as [_ Hall]. rewrite Forall_forall in Hall.
  destruct (Hall v (proj2 (list_elem_of_In _ _) Hv)) as [H|[H _]]; lia.
Qed.

Lemma assembled_versions_sorted kd d :
  consistent collate -> assembled kd d ->
  StronglySorted (versionBefore collate dateParse) (versions d).
Proof.
  intros [Hswap Htrans] (_ & (vs & Hsort & Hvs) & _).
  eapply sorted_through_options; [eapply mapM_sortOptions, Hvs|].
  eapply sortM_sorted; [| | |exact Hsort].
  - apply versionBefore_trans. exact Htrans.
  - apply compareVersions_le.
  - apply compareVersions_gt. intros a b Hab.
    pose proof (Hswap a b). lia.
Qed.

(** X10.  [latestPublished] is the newest date among the versions of the
    document, and 0 when none is later than the epoch: no version is
    dated after it, and unless it is 0 some version carries it.  With a
    consistent [localeCompare] the versions are listed newest first, so it
    is the date of the first listed version whenever that is positive. *)
Theorem latest_published_is_newest (payload : value) (docs : list Document)
    (d : Document) :
  normaliseResources payload = Ok docs -> In d docs ->
  0 <= latestPublished d /\
  (forall v, In v (versions d) -> timestamp v <= latestPublished d) /\
  (latestPublished d = 0 \/
   exists v, In v (versions d) /\ timestamp v = latestPublished d) /\
  (consistent collate ->
   forall v0 rest, versions d = v0 :: rest ->
   latestPublished d = Z.max 0 (timestamp v0)).
Proof.
  intros Hn Hd.
  destruct (document_assembled _ _ Hn) as (es & built & _ & _ & _ & Hdocs).
  destruct (Hdocs d Hd) as (doc & c & e & rest & _ & _ & Ha).
  pose proof Ha as (_ & _ & _ & _ & Hlatest & _).
  unfold latestOf in Hlatest.
  destruct (latestOf_from _ _ _ Hlatest) as (H1 & H2 & H3).
  split; [exact H1|]. split; [exact H2|]. split; [exact H3|].
  intros Hc v0 rest' Hv.
  pose proof (assembled_versions_sorted _ _ Hc Ha) as Hs.
  assert (H0 : timestamp v0 <= latestPublished d).
  { apply H2. rewrite Hv. left. reflexivity. }
  destruct H3 as [H3|(v & Hin & H3)].
  - lia.
  - pose proof (sorted_head_newest _ _ _ _ Hs Hv Hin). lia.
Qed.

Lemma setAdd_NoDup {A} (key : A -> mapkey) s x :
  NoDup (map key s) -> NoDup (map key (setAdd key s x)).
Proof.
  intros H. unfold setAdd. destruct (setHas key s x) eqn:E; [exact H|].
  rewrite map_app. apply NoDup_app. split; [exact H|].
  split; [|apply NoDup_singleton].
  intros k Hk Hk'. apply list_elem_of_In in Hk, Hk'. destruct Hk' as [<-|[]].
  apply setHas_true in Hk. congruence.
Qed.

Lemma addOptionTypes_spec v types :
  NoDup (map keyOf types) -> Forall (fun t => truthy t = true) types ->
  let types' := addOptionTypes types v in
  NoDup (map keyOf types') /\ Forall (fun t => truthy t = true) types' /\
  forall k, In k (map keyOf types') <->
    In k (map keyOf types) \/
    exists o, In o (options v) /\ truthy (type o) = true /\ keyOf (type o) = k.
Proof.
  unfold addOptionTypes. revert types.
  induction (options v) as [|o r IH]; intros types Hnd Ht; simpl.
  - split; [exact Hnd|]. split; [exact Ht|]. intros k. split; [auto|].
    intros [H|(o & [] & _)]. exact H.
  - destruct (truthy (type o)) eqn:Eo.
    + destruct (IH (setAdd keyOf types (type o))) as (H1 & H2 & H3).
      * apply setAdd_NoDup, Hnd.
      * unfold setAdd. destruct (setHas _ _ _); [exact Ht|].
        apply Forall_app. split; [exact Ht|]. constructor; [exact Eo|constructor].
      * split; [exact H1|]. split; [exact H2|]. intros k. rewrite H3, setAdd_keys.
        split.
        -- intros [[H| ->]|(o' & Hin & Ho')]; [left; exact H| |].
           ++ right. exists o. auto.
           ++ right. exists o'. split; [right; exact Hin|exact Ho'].
        -- intros [H|(o' & [<-|Hin] & Ht' & Hk)]; [left; left; exact H| |].
           ++ left. right. symmetry. exact Hk.
           ++ right. exists o'. auto.
    + destruct (IH types Hnd Ht) as (H1 & H2 & H3).
      split; [exact H1|]. split; [exact H2|]. intros k. rewrite H3. split.
      * intros [H|(o' & Hin & Ho')]; [left; exact H|].
        right. exists o'. split; [right; exact Hin|exact Ho'].
      * intros [H|(o' & [<-|Hin] & Ht' & Hk)]; [left; exact H| |].
        -- congruence.
        -- right. exists o'. auto.
Qed.

Lemma optionTypes_spec vs types :
  NoDup (map keyOf types) -> Forall (fun t => truthy t = true) types ->
  let types' := fold_left addOptionTypes vs types in
  NoDup (map keyOf types') /\ Forall (fun t => truthy t = true) types' /\
  forall k, In k (map keyOf types') <->
    In k (map keyOf types) \/
    exists v o, In v vs /\ In o (options v) /\
                truthy (type o) = true /\ keyOf (type o) = k.
Proof.
  revert types; induction vs as [|v r IH]; intros types Hnd Ht; simpl.
  - split; [exact Hnd|]. split; [exact Ht|]. intros k. split; [auto|].
    intros [H|(v & o & [] & _)]. exact H.
  - destruct (addOptionTypes_spec v types Hnd Ht) as (A1 & A2 & A3).
    destruct (IH _ A1 A2) as (H1 & H2 & H3).
    split; [exact H1|]. split; [exact H2|]. intros k. rewrite H3, A3. split.
    + intros [[H|(o & Hin & Ho)]|(v' & o & Hv' & Ho)]; [left; exact H| |].
      * right. exists v, o. auto.
      * right. exists v', o. split; [right; exact Hv'|exact Ho].
    + intros [H|(v' & o & [<-|Hv'] & Ho)]; [left; left; exact H| |].
      * left. right. exists o. exact Ho.
      * right. exists v', o. auto.
Qed.

(** X11.  The option types of a document are the non-empty types of the
    download options of its versions, each once; [primaryType] is the
    first of them, and [""] when there is none. *)
Theorem option_types_of_document (payload : value) (docs : list Document)
    (d : Document) :
  normaliseResources payload = Ok docs -> In d docs ->
  NoDup (map keyOf (optionTypes d)) /\
  (forall k, In k (map keyOf (optionTypes d)) <->
     exists v o, In v (versions d) /\ In o (options v) /\
                 truthy (type o) = true /\ keyOf (type o) = k) /\
  primaryType d = match optionTypes d with
                  | t :: _ => t
                  | [] => VStr ""
                  end.
Proof.
  intros Hn Hd.
  destruct (document_assembled _ _ Hn) as (es & built & _ & _ & _ & Hdocs).
  destruct (Hdocs d Hd) as (doc & c & e & rest & _ & _ & Ha).
  destruct Ha as (_ & _ & Htypes & _ & _ & _ & _ & Hprimary & _).
  apply sortM_perm in Htypes.
  destruct (optionTypes_spec (versions d) [] (NoDup_nil_2) (Forall_nil_2 _))
    as (H1 & H2 & H3). cbv zeta in *.
  split; [rewrite Htypes; exact H1|]. split.
  - intros k.
    assert (Hp : map keyOf (optionTypes d) ≡ₚ
                 map keyOf (fold_left addOptionTypes (versions d) []))
      by (apply Permutation_map, Htypes).
    split; intros Hk.
    + apply (Permutation_in _ Hp), H3 in Hk as [[]|Hk]. exact Hk.
    + eapply Permutation_in; [symmetry; exact Hp|]. apply H3. right. exact Hk.
  - rewrite Hprimary. rewrite <- Htypes in H2.
    destruct (optionTypes d) as [|t ts]; [reflexivity|].
    apply Forall_cons in H2 as [Ht _]. simpl. unfold or. rewrite Ht. reflexivity.
Qed.








End Built.

End OrderFacts.


Module VersionFacts.

Import Built JsFacts NormaliserFacts OrderFacts.

Lemma labelled_app k es1 es2 :
  labelled k (es1 ++ es2) = labelled k es1 ++ labelled k es2.
Proof. unfold labelled. rewrite List.filter_app, map_app. reflexivity. Qed.

Lemma labelled_nil k es :
  (forall ce, In ce es -> keyOf (versionKey (snd ce)) <> k) ->
  labelled k es = [].
Proof.
  unfold labelled. induction es as [|ce r IH]; intros H; simpl; [reflexivity|].
  rewrite bool_decide_eq_false_2 by (apply H; left; reflexivity).
  apply IH. intros ce' Hin. apply H. right. exact Hin.
Qed.

Lemma labelled_one_same k c e :
  keyOf (versionKey e) = k -> labelled k [(c, e)] = [e].
Proof.
  intros H. unfold labelled. simpl. rewrite bool_decide_eq_true_2 by exact H.
  reflexivity.
Qed.

Lemma labelled_one_other k c e :
  keyOf (versionKey e) <> k -> labelled k [(c, e)] = [].
Proof.
  intros H. unfold labelled. simpl. rewrite bool_decide_eq_false_2 by exact H.
  reflexivity.
Qed.

Lemma firstTruthy_snoc vs v :
  firstTruthy (vs ++ [v]) =
  match firstTruthy vs with
  | Some x => Some x
  | None => if truthy v then Some v else None
  end.
Proof.
  unfold firstTruthy. induction vs as [|x r IH]; simpl; [reflexivity|].
  destruct (truthy x); [reflexivity|exact IH].
Qed.

Lemma firstTruthy_truthy vs v : firstTruthy vs = Some v -> truthy v = true.
Proof.
  unfold firstTruthy. intros H. apply find_some in H as [_ H]. exact H.
Qed.

Lemma fieldOf_snoc name entries e :
  fillIfEmpty (fieldOf name entries) (get e name) = fieldOf name (entries ++ [e]).
Proof.
  unfold fieldOf, fillIfEmpty. rewrite map_app.
  change (map (fun e0 => get e0 name) [e]) with [get e name].
  rewrite firstTruthy_snoc.
  destruct (firstTruthy (map (fun e0 => get e0 name) entries)) as [v|] eqn:E.
  - rewrite (firstTruthy_truthy _ _ E). reflexivity.
  - simpl. destruct (truthy (get e name)); reflexivity.
Qed.

Lemma fieldOf_one name e : fieldOf name [e] = or (get e name) (VStr "").
Proof. unfold fieldOf, firstTruthy, or. simpl. destruct (truthy _); reflexivity. Qed.

Lemma fillIfEmpty_or x :
  fillIfEmpty (or x (VStr "")) x = or x (VStr "").
Proof. unfold fillIfEmpty, or. destruct (truthy x) eqn:E; simpl; [rewrite E|]; reflexivity. Qed.

Lemma mergeVersion_group e1 e rest v' :
  mergeVersion e1 (groupVersion e rest) = Ok v' ->
  v' = groupVersion e (rest ++ [e1]).
Proof.
  unfold mergeVersion. intros H. inv_bind H. injection H as <-.
  assert (Ho : entryOptions e1 = map makeOption x).
  { unfold entryOptions, asArray in *.
    destruct (or (get e1 "options") (VArr 0 [])); try discriminate.
    injection E as <-. reflexivity. }
  unfold groupVersion.
  cbn [version release vlifecycle published notes options].
  rewrite !fieldOf_snoc, <- Ho. f_equal.
  change (e :: rest ++ [e1]) with ((e :: rest) ++ [e1]).
  rewrite map_app, concat_app. simpl. rewrite app_nil_r. reflexivity.
Qed.

Lemma mergeVersion_new e v' :
  mergeVersion e (newVersion e) = Ok v' -> v' = groupVersion e [].
Proof.
  unfold mergeVersion. intros H. inv_bind H. injection H as <-.
  assert (Ho : entryOptions e = map makeOption x).
  { unfold entryOptions, asArray in *.
    destruct (or (get e "options") (VArr 0 [])); try discriminate.
    injection E as <-. reflexivity. }
  unfold groupVersion, newVersion.
  cbn [version release vlifecycle published notes options].
  rewrite !fieldOf_one, !fillIfEmpty_or, <- Ho. f_equal.
  simpl. rewrite app_nil_r. reflexivity.
Qed.

Lemma mergeEntry_versions c e doc doc' :
  mergeEntry c e doc = Ok doc' ->
  exists v',
    mergeVersion e match mapGet keyOf (aversions doc) (versionKey e) with
                   | Some v => v
                   | None => newVersion e
                   end = Ok v' /\
    aversions doc' = mapSet keyOf (aversions doc) (versionKey e) v'.
Proof.
  unfold mergeEntry. intros H. inv_bind H. injection H as <-. simpl.
  exists x. split; [exact E|reflexivity].
Qed.

Lemma versioned_step es doc ce doc' :
  versioned es (aversions doc) -> mergeStep doc ce = Ok doc' ->
  versioned (es ++ [ce]) (aversions doc').
Proof.
  intros (Hnd & Hcov & Hvs) Hstep. destruct ce as [c e].
  unfold mergeStep in Hstep. simpl in Hstep.
  destruct (mergeEntry_versions _ _ _ _ Hstep) as (v' & Hv' & ->).
  set (m := aversions doc) in *. set (k := versionKey e) in *.
  destruct (mapGet keyOf m k) as [v0|] eqn:Eg.
  - (* the label is known *)
    destruct (mapGet_Some_In _ _ _ _ Eg) as (k0 & Hin0 & Hk0).
    assert (Hkeys : map (fun kv => keyOf (fst kv)) (mapSet keyOf m k v')
                    = map (fun kv => keyOf (fst kv)) m).
    { rewrite <- !(map_map fst keyOf).
      rewrite (mapSet_present_keys _ _ _ _ _ Eg). reflexivity. }
    split; [rewrite Hkeys; exact Hnd|]. split.
    + intros ce Hin. rewrite Hkeys. apply in_app_iff in Hin as [Hin|[<-|[]]].
      * apply Hcov, Hin.
      * simpl. fold k. rewrite <- Hk0.
        apply (in_map (fun kv => keyOf (fst kv)) _ _ Hin0).
    + intros k1 v1 Hin.
      destruct (mapSet_present_In _ _ _ _ _ _ _ Hnd Eg Hin)
        as [[Hin1 Hne]|(Heq & -> & Hin1)].
      * destruct (Hvs _ _ Hin1) as (e1 & rest & Hl & Hv).
        exists e1, rest. split; [|exact Hv].
        rewrite labelled_app, Hl, labelled_one_other by (fold k; congruence).
        apply app_nil_r.
      * destruct (Hvs _ _ Hin1) as (e1 & rest & Hl & Hv). subst v0.
        exists e1, (rest ++ [e]). split.
        -- rewrite labelled_app, Hl, labelled_one_same by (fold k; congruence).
           reflexivity.
        -- apply mergeVersion_group, Hv'.
  - (* the label is new *)
    rewrite (mapSet_absent _ _ _ _ Eg).
    pose proof (proj1 (mapGet_None _ _ _) Eg) as Hnotin.
    split; [|split].
    + rewrite map_app. simpl. apply NoDup_app. split; [exact Hnd|].
      split; [|apply NoDup_singleton].
      intros x Hx Hx'. apply list_elem_of_In in Hx, Hx'.
      destruct Hx' as [<-|[]]. exact (Hnotin Hx).
    + intros ce Hin. rewrite map_app, in_app_iff.
      apply in_app_iff in Hin as [Hin|[<-|[]]]; [left; apply Hcov, Hin|].
      right. left. reflexivity.
    + intros k1 v1 Hin. apply in_app_iff in Hin as [Hin|[[= <- <-]|[]]].
      * destruct (Hvs _ _ Hin) as (e1 & rest & Hl & Hv).
        exists e1, rest. split; [|exact Hv].
        rewrite labelled_app, Hl, labelled_one_other; [apply app_nil_r|].
        fold k. intros Heq. apply Hnotin. rewrite Heq.
        apply (in_map (fun kv => keyOf (fst kv)) _ _ Hin).
      * exists e, []. split.
        -- unfold k in *.
           rewrite labelled_app, (labelled_one_same _ c e eq_refl).
           rewrite labelled_nil; [reflexivity|].
           intros ce Hin Heq. apply Hnotin. rewrite <- Heq. apply Hcov, Hin.
        -- apply mergeVersion_new, Hv'.
Qed.

Lemma versioned_fold es e doc :
  foldM mergeStep es (newDoc e) = Ok doc -> versioned es (aversions doc).
Proof.
  apply (foldM_ind mergeStep (fun pre d => versioned pre (aversions d))).
  - split; [constructor|]. split; [intros ? []|intros ? ? []].
  - intros pre x b b'. apply versioned_step.
Qed.

Lemma labelled_head k es e rest :
  labelled k es = e :: rest -> keyOf (versionKey e) = k.
Proof.
  unfold labelled. intros H.
  assert (Hin : In e (map snd (List.filter
            (fun ce => bool_decide (keyOf (versionKey (snd ce)) = k)) es)))
    by (rewrite H; left; reflexivity).
  apply in_map_iff in Hin as (ce & <- & Hce).
  apply filter_In in Hce as [_ Hce]. apply bool_decide_eq_true in Hce. exact Hce.
Qed.

Section Built.
Variable collate : string -> string -> Z.
Variable dateParse : string -> option Z.
Variable stripHtml : string -> string.

#[local] Abbreviation normaliseResources :=
  (normaliseResources collate dateParse stripHtml).

Lemma sortOptions_fields v v' :
  sortOptions collate v = Ok v' ->
  version v' = version v /\ release v' = release v /\
  vlifecycle v' = vlifecycle v /\ published v' = published v /\
  notes v' = notes v /\ options v' ≡ₚ options v.
Proof.
  unfold sortOptions. intros H. inv_bind H. injection H as <-. simpl.
  repeat split. eapply sortM_perm, E.
Qed.

Lemma mapM_Forall2 {A B} (f : A -> result B) l l' :
  mapM f l = Ok l' -> Forall2 (fun x y => f x = Ok y) l l'.
Proof.
  revert l'; induction l as [|x r IH]; intros l' H; simpl in H.
  - injection H as <-. constructor.
  - inv_bind H. inv_bind H. injection H as <-. constructor; auto.
Qed.

Lemma versions_grouped (payload : value)
    (docs : list Document) :
  normaliseResources payload = Ok docs ->
  exists es,
    payloadEntries payload = Ok es /\
    forall d, In d docs ->
    let own := contributing (keyOf (key d)) es in
    NoDup (map (fun v => keyOf (version v)) (versions d)) /\
    (forall c e, In (c, e) own ->
       exists v, In v (versions d) /\
                 keyOf (version v) = keyOf (versionKey e)) /\
    (forall v, In v (versions d) ->
       exists e rest,
         labelled (keyOf (version v)) own = e :: rest /\
         version v = versionKey e /\
         release v = fieldOf "release_info" (e :: rest) /\
         vlifecycle v = fieldOf "lifecycle_status" (e :: rest) /\
         published v = fieldOf "published_date" (e :: rest) /\
         notes v = fieldOf "notes" (e :: rest) /\
         options v ≡ₚ concat (map entryOptions (e :: rest))).
Proof.
  intros Hn.
  destruct (document_assembled _ _ _ _ _ Hn) as (es & built & Hes & _ & _ & Hdocs).
  exists es. split; [exact Hes|]. intros d Hd. cbv zeta.
  destruct (Hdocs d Hd) as (doc & c0 & e0 & rest0 & Hown & Hf & Ha).
  destruct Ha as (_ & (vs & Hsort & Hvs) & _). cbn [snd] in Hsort.
  rewrite Hown. pose proof (versioned_fold _ _ _ Hf) as (Hnd & Hcov & Hgroups).
  apply sortM_perm in Hsort. apply mapM_Forall2 in Hvs.
  (* every stored version is the group of its own label *)
  assert (Hstored : forall v0, In v0 (map snd (aversions doc)) ->
            exists e rest,
              labelled (keyOf (version v0)) ((c0, e0) :: rest0) = e :: rest /\
              v0 = groupVersion e rest).
  { intros v0 ([k v] & <- & Hin)%in_map_iff. simpl.
    destruct (Hgroups _ _ Hin) as (e & rest & Hl & ->).
    exists e, rest. split; [|reflexivity]. simpl.
    rewrite (labelled_head _ _ _ _ Hl). exact Hl. }
  assert (Hkeys : map (fun v => keyOf (version v)) (map snd (aversions doc))
                  = map (fun kv => keyOf (fst kv)) (aversions doc)).
  { rewrite map_map. apply map_ext_in. intros [k v] Hin. simpl.
    destruct (Hgroups _ _ Hin) as (e & rest & Hl & ->). simpl.
    apply (labelled_head _ _ _ _ Hl). }
  assert (Hsame : map (fun v => keyOf (version v)) (versions d)
                  = map (fun v => keyOf (version v)) vs).
  { clear -Hvs. induction Hvs as [|v v' r r' Hv _ IH]; [reflexivity|].
    simpl. rewrite IH. destruct (sortOptions_fields _ _ Hv) as (-> & _).
    reflexivity. }
  assert (Hperm : map (fun v => keyOf (version v)) (versions d) ≡ₚ
                  map (fun kv => keyOf (fst kv)) (aversions doc)).
  { rewrite Hsame, <- Hkeys. apply Permutation_map, Hsort. }
  split; [rewrite Hperm; exact Hnd|]. split.
  - intros c e Hin. specialize (Hcov _ Hin). simpl in Hcov.
    apply (Permutation_in _ (Permutation_sym Hperm)) in Hcov.
    apply in_map_iff in Hcov as (v & Hv & Hin'). eauto.
  - intros v Hv.
    destruct (Forall2_In_r _ _ _ _ Hvs Hv) as (v1 & Hv1 & Hso).
    destruct (sortOptions_fields _ _ Hso) as (F1 & F2 & F3 & F4 & F5 & F6).
    assert (Hv0 : In v1 (map snd (aversions doc)))
      by (eapply Permutation_in; eassumption).
    destruct (Hstored _ Hv0) as (e & rest & Hl & ->).
    exists e, rest. rewrite F1, F2, F3, F4, F5, F6. simpl.
    repeat split; try reflexivity. exact Hl.
Qed.

(** X13.  The versions of a document group the entries of its key by
    version label: one version per distinct label, every entry under its
    label; the label is that of the first entry of the group, each of
    release, lifecycle, published date and notes is the first non-empty
    value in the group ([""] when there is none), and the download options
    are those of all entries of the group. *)
Theorem versions_group_entries_by_label (payload : value)
    (docs : list Document) :
  normaliseResources payload = Ok docs ->
  exists es,
    payloadEntries payload = Ok es /\
    forall d, In d docs ->
    let own := contributing (keyOf (key d)) es in
    NoDup (map (fun v => keyOf (version v)) (versions d)) /\
    (forall c e, In (c, e) own ->
       exists v, In v (versions d) /\
                 keyOf (version v) = keyOf (versionKey e)) /\
    (forall v, In v (versions d) ->
       exists e rest,
         labelled (keyOf (version v)) own = e :: rest /\
         version v = versionKey e /\
         release v = fieldOf "release_info" (e :: rest) /\
         vlifecycle v = fieldOf "lifecycle_status" (e :: rest) /\
         published v = fieldOf "published_date" (e :: rest) /\
         notes v = fieldOf "notes" (e :: rest) /\
         options v ≡ₚ concat (map entryOptions (e :: rest))).
Proof. apply versions_grouped. Qed.

End Built.

End VersionFacts.


Module AppFacts.

Import Loader Browser Pager Startup Shape App.
Import JsFacts NormaliserFacts BrowserFacts PagerFacts TotalFacts OrderFacts.

Lemma buildDocumentMap_inv docs rid doc :
  buildDocumentMap docs !! rid = Some doc -> In doc docs /\ id doc = rid.
Proof.
  induction docs as [|d0 docs IH] using rev_ind.
  - unfold buildDocumentMap. simpl. rewrite lookup_empty. discriminate.
  - rewrite buildDocumentMap_snoc. destruct (decide (id d0 = rid)) as [<-|Hne].
    + rewrite lookup_insert_eq. intros [= <-]. split; [|reflexivity].
      apply in_app_iff. right. left. reflexivity.
    + rewrite lookup_insert_ne by exact Hne. intros H.
      destruct (IH H) as [Hin Hid]. split; [|exact Hid].
      apply in_app_iff. left. exact Hin.
Qed.

Lemma sound_ext s s' :
  sameData s s' -> currentPage s' = currentPage s -> sound s -> sound s'.
Proof.
  intros Hs Hc (H1 & H2 & H3). pose proof Hs as (Hd & Hf & Hm & Hps).
  split; [congruence|]. split; [eapply pageInRange_sameData; eassumption|].
  unfold indexedById in *. rewrite Hd, Hm. exact H3.
Qed.

Lemma sameData_refl s : sameData s s.
Proof. unfold sameData. auto. Qed.

Lemma sameData_trans s1 s2 s3 :
  sameData s1 s2 -> sameData s2 s3 -> sameData s1 s3.
Proof. unfold sameData. intros (? & ? & ? & ?) (? & ? & ? & ?). repeat split; congruence. Qed.

Lemma namesOf_step (xs : list string) acc x :
  In x (fold_left (fun acc x => if negb (String.eqb x "") then setAdd KStr acc x
                                else acc) xs acc) <->
  In x acc \/ (x <> "" /\ In x xs).
Proof.
  revert acc; induction xs as [|y r IH]; intros acc; simpl; [tauto|].
  rewrite IH. destruct (String.eqb_spec y "") as [->|Hy]; simpl.
  - split; [intros [H|[H1 H2]]; auto|].
    intros [H|[H1 [H2|H2]]]; auto. congruence.
  - rewrite setAdd_strings. split.
    + intros [[H| ->]|[H1 H2]]; auto.
    + intros [H|[H1 [->|H2]]]; auto.
Qed.

Lemma namesOf_In field docs x :
  In x (namesOf field docs) <-> x <> "" /\ exists d, In d docs /\ In x (field d).
Proof.
  unfold namesOf.
  assert (G : forall acc, 
    In x (fold_left
            (fun acc doc =>
               fold_left (fun acc x => if negb (String.eqb x "")
                                       then setAdd KStr acc x else acc)
                         (field doc) acc) docs acc) <->
    In x acc \/ (x <> "" /\ exists d, In d docs /\ In x (field d))).
  { induction docs as [|d r IH]; intros acc; simpl.
    - split; [auto|]. intros [H|(_ & d & [] & _)]. exact H.
    - rewrite IH, namesOf_step. split.
      + intros [[H|[H1 H2]]|(H1 & d' & H2 & H3)]; auto.
        * right. split; [exact H1|]. exists d. auto.
        * right. split; [exact H1|]. exists d'. auto.
      + intros [H|(H1 & d' & [<-|H2] & H3)]; auto.
        right. split; [exact H1|]. exists d'. auto. }
  rewrite G. simpl. tauto.
Qed.

Lemma existsb_eqb_In x l : existsb (String.eqb x) l = true <-> In x l.
Proof.
  rewrite existsb_exists. split.
  - intros (y & Hy & E). apply String.eqb_eq in E. subst. exact Hy.
  - intros H. exists x. split; [exact H|apply String.eqb_refl].
Qed.

(** What a select holds after it was repopulated from [names]. *)
Lemma chosen_spec previous (sorted names : list string) :
  sorted ≡ₚ names ->
  let chosen := if existsb (String.eqb previous) sorted then previous
                else "all" in
  (In previous names -> chosen = previous) /\
  (~ In previous names -> chosen = "all").
Proof.
  intros Hp. cbv zeta.
  destruct (existsb (String.eqb previous) sorted) eqn:E.
  - apply existsb_eqb_In in E. split; [reflexivity|].
    intros Hn. exfalso. apply Hn. eapply Permutation_in; eassumption.
  - split; [|reflexivity]. intros Hin.
    assert (existsb (String.eqb previous) sorted = true); [|congruence].
    apply existsb_eqb_In. eapply Permutation_in; [symmetry|]; eassumption.
Qed.

Section Platform.
Variable elements : Elements.
Variable controls : Controls.
Variable collate : string -> string -> Z.
Variable dateParse : string -> option Z.
Variable stripHtml : string -> string.
Variable jsonParse : string -> result value.
Variable decodeURIComponent : string -> result string.

#[local] Abbreviation renderRoute := (renderRoute elements).
#[local] Abbreviation handleRouteChange :=
  (handleRouteChange elements decodeURIComponent).
#[local] Abbreviation applyFilters := (applyFilters elements collate).
#[local] Abbreviation normaliseResources :=
  (normaliseResources collate dateParse stripHtml).

Lemma renderRoute_sound w : sound (st w) -> sound (st (renderRoute w)).
Proof.
  intros Hs. pose proof Hs as (Hp & Hr & _).
  eapply sound_ext; [apply renderRoute_sameData| |exact Hs].
  apply renderRoute_keeps_page; [lia|exact Hr].
Qed.

Lemma sound_page s s' p :
  sameData s s' -> currentPage s' = p ->
  1 <= p <= Z.max 1 (totalPages s) -> sound s -> sound s'.
Proof.
  intros Hs Hc Hp (H1 & _ & H3). pose proof Hs as (Hd & Hf & Hm & Hps).
  split; [congruence|]. split.
  - unfold pageInRange. rewrite (totalPages_sameData _ _ Hs), Hc. exact Hp.
  - unfold indexedById in *. rewrite Hd, Hm. exact H3.
Qed.

Lemma handleRouteChange_sound w :
  sound (st w) -> sound (st (fst (handleRouteChange w))).
Proof.
  intros Hs. unfold Browser.handleRouteChange.
  destruct (parseHash _ _) as [r|e]; [|exact Hs]. cbn [fst].
  apply renderRoute_sound. cbn [st withState].
  destruct (negb _).
  - eapply (sound_page _ _ 1); [| |lia|exact Hs]; [repeat split|reflexivity].
  - eapply sound_ext; [| |exact Hs]; [repeat split|reflexivity].
Qed.

Lemma maxPages_max s :
  0 < pageSize s -> maxPages s = Z.max 1 (totalPages s).
Proof.
  intros Hp. unfold maxPages, totalPages.
  destruct (Z.of_nat (length (filtered s)) =? 0) eqn:E.
  - apply Z.eqb_eq in E. rewrite E. replace (Z.max 0 1) with 1 by lia.
    unfold ceilDiv. replace (1 + pageSize s - 1) with (pageSize s) by lia.
    rewrite Z.div_same by lia. reflexivity.
  - apply Z.eqb_neq in E.
    pose proof (ceilDiv_pos (Z.of_nat (length (filtered s))) _ Hp ltac:(lia)).
    rewrite Z.max_l by lia. rewrite Z.max_r by lia. reflexivity.
Qed.

Lemma indexed_setFiltered l s : indexedById s -> indexedById (setFiltered l s).
Proof. unfold indexedById. simpl. trivial. Qed.

Lemma applyFilters_sound w :
  sound (st w) -> sound (st (fst (applyFilters w))).
Proof.
  intros (Hp & Hr & Hi). unfold Browser.applyFilters. cbv zeta.
  destruct (sortDocuments _ _ _) as [sorted|e]; [|exact (conj Hp (conj Hr Hi))].
  cbn [fst]. apply renderRoute_sound. cbn [st withState].
  set (s1 := setFiltered sorted (st w)).
  assert (Hp1 : pageSize s1 = 10) by exact Hp.
  pose proof (maxPages_max s1 ltac:(lia)) as Hm.
  change (currentPage s1) with (currentPage (st w)).
  destruct (currentPage (st w) >? maxPages s1) eqn:E.
  - split; [exact Hp|]. split; [|exact Hi].
    apply setCurrentPage_range. lia.
  - rewrite Z.gtb_ltb in E. apply Z.ltb_ge in E.
    split; [exact Hp|]. split; [|exact Hi].
    unfold pageInRange in *. change (currentPage s1) with (currentPage (st w)).
    lia.
Qed.

Lemma sound_fields s s' :
  documents s' = documents s -> filtered s' = filtered s ->
  documentMap s' = documentMap s -> pageSize s' = pageSize s ->
  currentPage s' = 1 \/ currentPage s' = currentPage s ->
  sound s -> sound s'.
Proof.
  intros Hd Hf Hm Hps Hc Hs.
  assert (Hsame : sameData s s') by (repeat split; assumption).
  destruct Hc as [Hc|Hc].
  - eapply (sound_page _ _ 1); [exact Hsame|exact Hc|lia|exact Hs].
  - eapply sound_ext; eassumption.
Qed.

Lemma onFilterInput_sound ev w :
  sound (st w) -> sound (st (fst (onFilterInput elements collate ev w))).
Proof.
  intros Hs.
  destruct ev; simpl; unfold onSearchInput, onCategoryChange, onDomainChange,
    onSortChange; apply applyFilters_sound;
    (eapply sound_fields; [..|exact Hs]; try reflexivity; left; reflexivity).
Qed.

Lemma navigateToDocument_sound doc w :
  sound (st w) -> sound (st (navigateToDocument elements doc w)).
Proof.
  intros Hs. unfold navigateToDocument. destruct (String.eqb _ _); [|exact Hs].
  apply renderRoute_sound.
  eapply sound_fields; [..|exact Hs]; try reflexivity. right. reflexivity.
Qed.

Lemma deliverHashChange_sound w :
  sound (st w) ->
  sound (st (fst (deliverHashChange elements decodeURIComponent w))).
Proof.
  intros Hs. unfold deliverHashChange.
  destruct (hashChangeQueued (win w)); [|exact Hs].
  apply handleRouteChange_sound. exact Hs.
Qed.

Lemma onPrevPage_sound w : sound (st w) -> sound (st (onPrevPage elements w)).
Proof.
  intros Hs. pose proof Hs as (Hp & Hr & Hi).
  destruct (onPrevPage_range elements w ltac:(lia) Hr) as (H1 & _ & H3).
  pose proof H3 as (Hd & _ & Hm & Hps).
  split; [congruence|]. split; [exact H1|].
  unfold indexedById in *. rewrite Hd, Hm. exact Hi.
Qed.

Lemma onNextPage_sound w : sound (st w) -> sound (st (onNextPage elements w)).
Proof.
  intros Hs. pose proof Hs as (Hp & Hr & Hi).
  destruct (onNextPage_range elements w ltac:(lia) Hr) as (H1 & _ & H3).
  pose proof H3 as (Hd & _ & Hm & Hps).
  split; [congruence|]. split; [exact H1|].
  unfold indexedById in *. rewrite Hd, Hm. exact Hi.
Qed.

Lemma normaliseResources_ids_NoDup payload docs :
  normaliseResources payload = Ok docs -> NoDup (map id docs).
Proof.
  intros H.
  destruct (normaliseResources_inv _ _ _ _ _ H)
    as (es & m & st & _ & _ & (_ & Hnd & _) & Hperm).
  rewrite Hperm. exact Hnd.
Qed.

Lemma indexed_build docs s :
  NoDup (map id docs) ->
  indexedById (setDocuments docs (buildDocumentMap docs) s).
Proof.
  intros Hnd rid doc. simpl. split.
  - apply buildDocumentMap_inv.
  - intros [Hin <-]. apply buildDocumentMap_lookup; assumption.
Qed.

Lemma st_onWorld_setStatus m e h p :
  st (world (onWorld (setStatus elements m e h) p)) = st (world p).
Proof. simpl. apply st_setStatus. Qed.

Lemma populateCategories_spec docs p :
  exists p',
    populateCategories controls collate docs p = Ok p' /\
    dom (world p') = dom (world p) /\ win (world p') = win (world p) /\
    domainSelect p' = domainSelect p /\
    (exists c, st (world p') = setActiveCategory c (st (world p))) /\
    (category controls = false -> p' = p) /\
    (category controls = true ->
     activeCategory (st (world p')) = selectValue (categorySelect p') /\
     let previous := selectValue (categorySelect p) in
     (In previous (namesOf categories docs) ->
      selectValue (categorySelect p') = previous) /\
     (~ In previous (namesOf categories docs) ->
      selectValue (categorySelect p') = "all")).
Proof.
  unfold populateCategories. destruct (category controls); simpl.
  - destruct (sortStrings_total collate (namesOf categories docs)) as (sorted & E).
    rewrite E. simpl. eexists. split; [reflexivity|]. simpl.
    repeat split; try reflexivity; try discriminate.
    + eexists. reflexivity.
    + apply (chosen_spec _ sorted), (sortM_perm _ _ _ E).
    + apply (chosen_spec _ sorted), (sortM_perm _ _ _ E).
  - exists p. repeat split; try reflexivity; try discriminate.
    exists (activeCategory (st (world p))). destruct p as [[s w d] c dm], s.
    reflexivity.
Qed.

Lemma populateDomains_spec docs p :
  exists p',
    populateDomains controls collate docs p = Ok p' /\
    dom (world p') = dom (world p) /\ win (world p') = win (world p) /\
    categorySelect p' = categorySelect p /\
    (exists c, st (world p') = setActiveDomain c (st (world p))) /\
    (domain controls = false -> p' = p) /\
    (domain controls = true ->
     activeDomain (st (world p')) = selectValue (domainSelect p') /\
     let previous := selectValue (domainSelect p) in
     (In previous (namesOf contexts docs) ->
      selectValue (domainSelect p') = previous) /\
     (~ In previous (namesOf contexts docs) ->
      selectValue (domainSelect p') = "all")).
Proof.
  unfold populateDomains. destruct (domain controls); simpl.
  - destruct (sortStrings_total collate (namesOf contexts docs)) as (sorted & E).
    rewrite E. simpl. eexists. split; [reflexivity|]. simpl.
    repeat split; try reflexivity; try discriminate.
    + eexists. reflexivity.
    + apply (chosen_spec _ sorted), (sortM_perm _ _ _ E).
    + apply (chosen_spec _ sorted), (sortM_perm _ _ _ E).
  - exists p. repeat split; try reflexivity; try discriminate.
    exists (activeDomain (st (world p))). destruct p as [[s w d] c dm], s.
    reflexivity.
Qed.

Lemma sound_loaded docs s :
  NoDup (map id docs) -> sound s ->
  sound (setCurrentPage 1 (setDocuments docs (buildDocumentMap docs) s)).
Proof.
  intros Hnd (Hp & Hr & Hi). split; [exact Hp|]. split.
  - unfold pageInRange. simpl. lia.
  - apply (indexed_build docs s Hnd).
Qed.

Lemma fetchResources_sound fetch p :
  sound (st (world p)) ->
  sound (st (world (fetchResources elements controls collate dateParse
                      stripHtml fetch jsonParse p))).
Proof.
  intros Hs. unfold fetchResources. cbv zeta.
  set (p0 := onWorld (setStatus elements "Loading resources..." false false) p).
  assert (H0 : sound (st (world p0))).
  { unfold p0. rewrite st_onWorld_setStatus. exact Hs. }
  destruct (snd (loadPayload fetch jsonParse)) as [[data source]|e].
  2:{ unfold loadFailed. rewrite st_onWorld_setStatus. exact H0. }
  set (p1 := onWorld (fun w => withState (setApiSource source (st w)) w) p0).
  assert (H1 : sound (st (world p1))).
  { eapply sound_fields; [..|exact H0]; try reflexivity. right. reflexivity. }
  destruct (Normaliser.normaliseResources collate dateParse stripHtml data)
    as [docs|e] eqn:En.
  2:{ unfold loadFailed. rewrite st_onWorld_setStatus. exact H1. }
  set (p2 := onWorld _ p1).
  assert (H2 : sound (st (world p2))).
  { apply sound_loaded; [|exact H1].
    eapply normaliseResources_ids_NoDup, En. }
  destruct (populateCategories_spec (documents (st (world p2))) p2)
    as (p3 & -> & _ & _ & _ & (c & Hc) & _).
  assert (H3 : sound (st (world p3))).
  { rewrite Hc. eapply sound_fields; [..|exact H2]; try reflexivity.
    right. reflexivity. }
  destruct (populateDomains_spec (documents (st (world p3))) p3)
    as (p4 & -> & _ & _ & _ & (c' & Hc') & _).
  assert (H4 : sound (st (world p4))).
  { rewrite Hc'. eapply sound_fields; [..|exact H3]; try reflexivity.
    right. reflexivity. }
  pose proof (applyFilters_sound (world p4) H4) as H5.
  destruct (Browser.applyFilters elements collate (world p4)) as [w [e|]];
    cbn [fst] in H5.
  - unfold loadFailed. rewrite st_onWorld_setStatus. exact H5.
  - destruct (negb _); rewrite st_onWorld_setStatus; exact H5.
Qed.

Lemma dispatch_sound p e :
  sound (st (world p)) ->
  sound (st (world (dispatch elements controls collate dateParse stripHtml
                      jsonParse decodeURIComponent p e))).
Proof.
  intros Hs. destruct e as [fetch|ev| | |doc| |h]; simpl.
  - apply handleRouteChange_sound, fetchResources_sound, Hs.
  - apply onFilterInput_sound. destruct ev; exact Hs.
  - apply onPrevPage_sound, Hs.
  - apply onNextPage_sound, Hs.
  - apply navigateToDocument_sound, Hs.
  - apply deliverHashChange_sound, Hs.
  - apply handleRouteChange_sound. exact Hs.
Qed.

(** X14.  Whatever happens to the page, in whatever order (loads that
    succeed or fail, filter changes, page buttons, clicks on cards, hash
    changes, listeners that throw), the state stays sound: the page size is
    10, the current page is at least 1 and at most the number of pages of
    the filtered list (1 when nothing matches), and the document map holds
    exactly the documents of the collection, each under its id. *)
Theorem page_state_stays_sound (h : string) (d : Dom) (c dm : Select)
    (events : list Event) :
  sound (st (world (run elements controls collate dateParse stripHtml
                      jsonParse decodeURIComponent
                      (initialPage h d c dm) events))).
Proof.
  unfold run.
  assert (H0 : sound (st (world (initialPage h d c dm)))).
  { split; [reflexivity|]. split.
    - unfold pageInRange. simpl. lia.
    - intros rid doc. simpl. rewrite lookup_empty. split; [discriminate|].
      intros [[] _]. }
  revert H0. generalize (initialPage h d c dm).
  induction events as [|e r IH]; intros p Hp; simpl; [exact Hp|].
  apply IH, dispatch_sound, Hp.
Qed.

End Platform.

End AppFacts.


Module FilterFacts.

Import Loader Browser Pager Startup Shape App.
Import JsFacts NormaliserFacts BrowserFacts PagerFacts TotalFacts OrderFacts AppFacts.





Section Page.
Variable elements : Elements.
Variable collate : string -> string -> Z.

#[local] Abbreviation renderRoute := (renderRoute elements).
#[local] Abbreviation navigateToIndex := (navigateToIndex elements).
#[local] Abbreviation applyFilters := (applyFilters elements collate).













End Page.

End FilterFacts.


Module LoadFacts.

Import Loader Browser Pager Startup Shape App.
Import JsFacts NormaliserFacts BrowserFacts PagerFacts TotalFacts OrderFacts
       AppFacts FilterFacts.

Section Platform.
Variable elements : Elements.
Variable controls : Controls.
Variable collate : string -> string -> Z.
Variable dateParse : string -> option Z.
Variable stripHtml : string -> string.
Variable fetch : string -> result Response.
Variable jsonParse : string -> result value.

#[local] Abbreviation fetchResources :=
  (fetchResources elements controls collate dateParse stripHtml fetch jsonParse).
#[local] Abbreviation normaliseResources :=
  (normaliseResources collate dateParse stripHtml).

Lemma notice_setStatus_shown m e w :
  statusBanner elements = true -> statusMessage elements = true ->
  notice (setStatus elements m e false w) = (false, m, e).
Proof. intros H1 H2. unfold setStatus. rewrite H1, H2. reflexivity. Qed.


(** X17.  A load that fails, because no source answers with a payload that
    parses or because [normaliseResources] throws on the payload, leaves
    the collection, the filtered list, the page and the route as they
    were, and on a page with a status banner shows the error message. *)
Theorem failed_load_keeps_the_collection (p : Page) (e : exn) :
  (snd (loadPayload fetch jsonParse) = Throw e \/
   exists data source,
     snd (loadPayload fetch jsonParse) = Ok (data, source) /\
     normaliseResources data = Throw e) ->
  let p' := fetchResources p in
  sameData (st (world p)) (st (world p')) /\
  currentPage (st (world p')) = currentPage (st (world p)) /\
  route (st (world p')) = route (st (world p)) /\
  categorySelect p' = categorySelect p /\ domainSelect p' = domainSelect p /\
  (statusBanner elements = true -> statusMessage elements = true ->
   notice (world p') =
   (false, "Unable to load resources right now. Please try again later.",
    true)).
Proof.
  intros H. cbv zeta. unfold Startup.fetchResources. cbv zeta.
  destruct H as [-> | (data & source & -> & ->)].
  - unfold loadFailed. rewrite st_onWorld_setStatus. simpl.
    rewrite st_setStatus. repeat split.
    intros H1 H2. apply notice_setStatus_shown; assumption.
  - unfold loadFailed. rewrite st_onWorld_setStatus. simpl.
    rewrite st_setStatus. repeat split.
    intros H1 H2. apply notice_setStatus_shown; assumption.
Qed.


End Platform.

End LoadFacts.


Module SearchFacts.

Import Browser Built StringFacts JsFacts NormaliserFacts OrderFacts.








Section Page.
Variable elements : Elements.
Variable collate : string -> string -> Z.
Variable dateParse : string -> option Z.
Variable stripHtml : string -> string.


End Page.

End SearchFacts.

Module ThemeFacts.

Import Theme.

(** X20.  On a page with the theme button, a click leaves exactly one of the
    two theme classes on the body, whatever classes it had, stores the
    choice, and the choice survives a reload: [applySavedTheme] on the
    reloaded page, whatever classes the document comes with, restores the
    classes and the icon of the click.  Two clicks restore the dark class.
    On a page without the button a saved theme makes [applySavedTheme]
    throw, after the classes are set. *)
Theorem theme_survives_reload (t : ThemeState) (dark light : bool) :
  let t1 := fst (toggleTheme true t) in
  snd (toggleTheme true t) = None /\
  lightClass t1 = negb (darkClass t1) /\
  darkClass t1 = negb (darkClass t) /\
  applySavedTheme true (reload dark light t1) = (t1, None) /\
  darkClass (fst (toggleTheme true t1)) = darkClass t /\
  (forall c s,
     snd (applySavedTheme false
            (mkTheme dark light (toggleIcon t) (Some (String c s))))
     = Some (TypeError "Cannot set properties of null")).
Proof.
  cbv zeta. unfold toggleTheme, applySavedTheme, reload. simpl.
  destruct (darkClass t); simpl; repeat split; reflexivity.
Qed.

End ThemeFacts.


Module SlugTheorems.

Import Browser Slug Shape StringFacts SlugFacts IdFacts RouteFacts TotalFacts.


Section Platform.
Variable collate : string -> string -> Z.
Variable dateParse : string -> option Z.
Variable stripHtml : string -> string.
Variable decodeURIComponent : string -> result string.

(** X22.  The id of every document is a well-formed slug, so it needs no
    escaping in a URL: [encodeURIComponent] leaves it as it is, and the hash
    of the document's link parses to the detail route of what
    [decodeURIComponent] makes of the id. *)
Theorem document_ids_are_url_safe (payload : value) (docs : list Document)
    (d : Document) :
  normaliseResources collate dateParse stripHtml payload = Ok docs ->
  In d docs ->
  isSlug (id d) = true /\
  Loader.encodeURIComponent (id d) = id d /\
  parseHash decodeURIComponent ("#/document/" +:+ id d) =
    (let* rid := decodeURIComponent (id d) in Ok (Detail rid)).
Proof.
  intros Hn Hd.
  pose proof (id_isSlug collate dateParse stripHtml payload docs d Hn Hd) as Hs.
  pose proof (slug_chars _ _ Hs) as Hc.
  split; [exact Hs|]. split; [apply encodeURIComponent_slug, Hc|].
  apply parseHash_document.
  - intros E. rewrite E in Hs. discriminate.
  - eapply allChars_impl; [|exact Hc]. intros c H.
    destruct (slugOrDash_cases c H) as (H1 & _ & H2 & _).
    unfold hashSafe. rewrite H1, H2. reflexivity.
Qed.

End Platform.

End SlugTheorems.

Module SelectFacts.

Import Browser Startup AppFacts.

Section Platform.
Variable controls : Controls.
Variable collate : string -> string -> Z.

(** X23.  Filling the two selects never throws.  A select the page has ends
    on its earlier value when some document still carries that name, and on
    [all] otherwise, and the state's active category or domain is what the
    select shows. *)
Theorem selects_keep_a_valid_choice (docs : list Document) (p : Page) :
  (exists p',
     populateCategories controls collate docs p = Ok p' /\
     (category controls = true ->
      let previous := selectValue (categorySelect p) in
      activeCategory (st (world p')) = selectValue (categorySelect p') /\
      ((previous <> "" /\ exists d, In d docs /\ In previous (categories d)) ->
       selectValue (categorySelect p') = previous) /\
      (~ (previous <> "" /\ exists d, In d docs /\ In previous (categories d)) ->
       selectValue (categorySelect p') = "all"))) /\
  (exists p',
     populateDomains controls collate docs p = Ok p' /\
     (domain controls = true ->
      let previous := selectValue (domainSelect p) in
      activeDomain (st (world p')) = selectValue (domainSelect p') /\
      ((previous <> "" /\ exists d, In d docs /\ In previous (contexts d)) ->
       selectValue (domainSelect p') = previous) /\
      (~ (previous <> "" /\ exists d, In d docs /\ In previous (contexts d)) ->
       selectValue (domainSelect p') = "all"))).
Proof.
  split.
  - destruct (populateCategories_spec controls collate docs p)
      as (p' & E & _ & _ & _ & _ & _ & H).
    exists p'. split; [exact E|]. intros Hc. destruct (H Hc) as (H1 & H2 & H3).
    cbv zeta in *. split; [exact H1|]. split.
    + intros Hin. apply H2. apply namesOf_In. exact Hin.
    + intros Hn. apply H3. intros Hin. apply Hn. apply namesOf_In in Hin.
      exact Hin.
  - destruct (populateDomains_spec controls collate docs p)
      as (p' & E & _ & _ & _ & _ & _ & H).
    exists p'. split; [exact E|]. intros Hc. destruct (H Hc) as (H1 & H2 & H3).
    cbv zeta in *. split; [exact H1|]. split.
    + intros Hin. apply H2. apply namesOf_In. exact Hin.
    + intros Hn. apply H3. intros Hin. apply Hn. apply namesOf_In in Hin.
      exact Hin.
Qed.

End Platform.

End SelectFacts.

Module RoutePageFacts.

Import Browser Pager BrowserFacts PagerFacts.

Section Page.
Variable elements : Elements.
Variable decodeURIComponent : string -> result string.


End Page.

End RoutePageFacts.


Module FindFacts.

Import Browser Slug Built StringFacts JsFacts NormaliserFacts OrderFacts
       SearchFacts.


Lemma prefix_app a b : String.prefix a (a +:+ b) = true.
Proof.
  induction a as [|c r IH]; [destruct b; reflexivity|].
  rewrite app_cons. simpl. destruct (ascii_dec c c); [exact IH|congruence].
Qed.

Lemma includes_prefix s t : String.prefix t s = true -> includes s t = true.
Proof. intros H. destruct s; cbn [includes]; rewrite H; reflexivity. Qed.

Lemma includes_app a s t : includes s t = true -> includes (a +:+ s) t = true.
Proof.
  intros H. induction a as [|c r IH]; [exact H|].
  rewrite app_cons. cbn [includes]. rewrite IH. apply orb_true_r.
Qed.

Lemma includes_middle a t b : includes (a +:+ t +:+ b) t = true.
Proof. apply includes_app, includes_prefix, prefix_app. Qed.

Lemma plain_space : allChars plainChar " " = true.
Proof. reflexivity. Qed.

Section Platform.
Variable collate : string -> string -> Z.
Variable dateParse : string -> option Z.
Variable stripHtml : string -> string.



End Platform.

End FindFacts.


Module DetailFacts.

Import Loader Shape Built Detail JsFacts NormaliserFacts OrderFacts VersionFacts
       IdFacts.



Section Platform.
Variable collate : string -> string -> Z.
Variable dateParse : string -> option Z.
Variable stripHtml : string -> string.

#[local] Abbreviation normaliseResources :=
  (normaliseResources collate dateParse stripHtml).
#[local] Abbreviation timestamp := (timestamp dateParse).



End Platform.

End DetailFacts.


Module SampleOrder.

Import Shape SampleFacts.

Lemma sample_collate_consistent : consistent Sample.collate.
Proof.
  split; [|exact sample_collate_trans].
  intros a b. unfold Sample.collate. cbv zeta.
  destruct (String.leb (toLowerCase a) (toLowerCase b)) eqn:E1,
           (String.leb (toLowerCase b) (toLowerCase a)) eqn:E2;
    try reflexivity.
  exfalso.
  destruct (total String.le (toLowerCase a) (toLowerCase b)) as [H|H];
    unfold String.le in H; [rewrite E1 in H|rewrite E2 in H]; exact H.
Qed.


End SampleOrder.

Module MoreExamples.

Import Loader Browser Pager Startup Shape Slug Built App Html Theme Detail.
Import Sample SamplePage SampleOrder.
Import HtmlFacts PagerFacts RouteFacts OrderFacts VersionFacts FilterFacts
       LoadFacts SearchFacts SlugTheorems SelectFacts RoutePageFacts TotalFacts
       FindFacts DetailFacts.

(** X1 at a fragment with markup, at a plain name and at a pair. *)
Lemma escapeHtml_safe_and_injective_witness :
  Forall (fun x => isMarkup x = false)
         (list_ascii_of_string (escapeHtml "<b>Tom & Jerry</b>")) /\
  escapeHtml "TMF620" = "TMF620" /\
  escapeHtml "<" <> escapeHtml "&lt;".
Proof.
  destruct escapeHtml_safe_and_injective as (H1 & H2 & H3).
  split; [|split].
  - apply Forall_forall. intros x Hx. apply (H1 "<b>Tom & Jerry</b>").
    apply list_elem_of_In. exact Hx.
  - apply H2. intros x Hx. simpl in Hx.
    repeat (destruct Hx as [<-|Hx]; [split; [reflexivity|discriminate]|]).
    destruct Hx.
  - intros E. apply H3 in E. discriminate.
Defined.

(** X2 on the loaded catalogue: its pages, end to end, are the list. *)
Lemma pages_partition_filtered_witness :
  let s := loadedState Index 1 "all" in
  concat (map (fun p => pageItems (setCurrentPage p s))
              (seqZ 1 (totalPages s))) = filtered s.
Proof.
  apply (proj1 (pages_partition_filtered (loadedState Index 1 "all") eq_refl)).
Defined.


(** X4 on the loaded catalogue. *)
Lemma index_shows_a_full_page_witness :
  renderedCards indexWorld <> [] /\
  Z.of_nat (length (renderedCards indexWorld)) <= 10.
Proof.
  destruct (index_shows_a_full_page indexWorld) as (H1 & H2 & _).
  - reflexivity.
  - vm_compute. discriminate.
  - vm_compute. discriminate.
  - split; [exact H1|exact H2].
Defined.

(** X5 on the loaded catalogue, which fits on one page: the bar is
    hidden and neither button would move. *)
Lemma pagination_bar_matches_buttons_witness :
  let s := st (renderIndex indexWorld) in
  (currentPage s >? 1) = false /\ (currentPage s <? totalPagesOrOne s) = false.
Proof.
  destruct (pagination_bar_matches_buttons indexWorld
              (mkPagination false false false "")) as (_ & H).
  - reflexivity.
  - vm_compute. discriminate.
  - apply H. vm_compute. reflexivity.
Defined.


(** X7 at the detail route of the loaded catalogue. *)
Lemma home_link_returns_to_index_witness :
  let w := loadedWorld "tmf620" 1 "all" in
  let w' := fst (deliverHashChange elements decodeURIComponent
                   (navigateToIndex elements w)) in
  route (st w') = Index /\ detailHidden (dom w') = true /\
  detailContent (dom w') = None.
Proof.
  destruct (home_link_returns_to_index elements decodeURIComponent
              (loadedWorld "tmf620" 1 "all")) as (H1 & _ & _ & _ & H2).
  destruct (H2 eq_refl) as [H3 H4].
  split; [exact H1|]. split; [exact H3|]. apply H4. vm_compute. discriminate.
Defined.


(** X9 at the catalogue, under the sample collation. *)
Lemma normalised_lists_are_sorted_witness :
  StronglySorted (documentBefore collate) (documentsOf cataloguePayload).
Proof.
  apply (normalised_lists_are_sorted collate dateParse stripHtml
           cataloguePayload (documentsOf cataloguePayload)
           sample_collate_consistent).
  vm_compute. reflexivity.
Defined.

(** X10 at the catalogue. *)
Lemma latest_published_is_newest_witness :
  Forall (fun d => forall v, In v (versions d) ->
                   timestamp dateParse v <= latestPublished d)
         (documentsOf cataloguePayload).
Proof.
  apply Forall_forall. intros d Hd. apply list_elem_of_In in Hd.
  apply (latest_published_is_newest collate dateParse stripHtml
           cataloguePayload (documentsOf cataloguePayload) d).
  - vm_compute. reflexivity.
  - exact Hd.
Defined.

(** X11 at the catalogue. *)
Lemma option_types_of_document_witness :
  Forall (fun d => NoDup (map keyOf (optionTypes d)))
         (documentsOf cataloguePayload).
Proof.
  apply Forall_forall. intros d Hd. apply list_elem_of_In in Hd.
  apply (option_types_of_document collate dateParse stripHtml
           cataloguePayload (documentsOf cataloguePayload) d).
  - vm_compute. reflexivity.
  - exact Hd.
Defined.


(** X13 at the catalogue. *)
Lemma versions_group_entries_by_label_witness :
  exists es,
    payloadEntries cataloguePayload = Ok es /\
    Forall (fun d => NoDup (map (fun v => keyOf (version v)) (versions d)))
           (documentsOf cataloguePayload).
Proof.
  destruct (versions_group_entries_by_label collate dateParse stripHtml
              cataloguePayload (documentsOf cataloguePayload))
    as (es & Hes & H).
  - vm_compute. reflexivity.
  - exists es. split; [exact Hes|].
    apply Forall_forall. intros d Hd. apply list_elem_of_In in Hd.
    apply (H d Hd).
Defined.



(** X17 on a network where every source fails. *)
Lemma failed_load_keeps_the_collection_witness :
  let p' := fetchResources elements everyControl collate dateParse stripHtml
              fetchDown jsonParse startPage in
  documents (st (world p')) = [] /\
  notice (world p') =
  (false, "Unable to load resources right now. Please try again later.", true).
Proof.
  destruct (failed_load_keeps_the_collection elements everyControl collate
              dateParse stripHtml fetchDown jsonParse startPage
              (Error "Request failed with 503"))
    as ((Hd & _) & _ & _ & _ & _ & Hn).
  - left. vm_compute. reflexivity.
  - split; [exact Hd|]. apply Hn; reflexivity.
Defined.




(** X22 at the catalogue. *)
Lemma document_ids_are_url_safe_witness :
  Forall (fun d => isSlug (id d) = true /\
                   encodeURIComponent (id d) = id d)
         (documentsOf cataloguePayload).
Proof.
  apply Forall_forall. intros d Hd. apply list_elem_of_In in Hd.
  destruct (document_ids_are_url_safe collate dateParse stripHtml
              decodeURIComponent cataloguePayload
              (documentsOf cataloguePayload) d) as (H1 & H2 & _).
  - vm_compute. reflexivity.
  - exact Hd.
  - split; assumption.
Defined.


(** X23 at the catalogue: the category select stays on [Core], which the
    catalogue has. *)
Lemma selects_keep_a_valid_choice_witness :
  exists p',
    populateCategories everyControl collate (documentsOf cataloguePayload)
      startPage = Ok p' /\
    selectValue (categorySelect p') = "Core".
Proof.
  destruct (proj1 (selects_keep_a_valid_choice everyControl collate
                     (documentsOf cataloguePayload) startPage))
    as (p' & E & H).
  exists p'. split; [exact E|].
  destruct (H eq_refl) as (_ & Hkeep & _). apply Hkeep.
  split; [discriminate|].
  assert (Hex : existsb (fun d => existsb (String.eqb "Core") (categories d))
                        (documentsOf cataloguePayload) = true)
    by (vm_compute; reflexivity).
  apply existsb_exists in Hex as (d & Hd & Hc).
  exists d. split; [exact Hd|].
  apply existsb_exists in Hc as (x & Hx & Ex).
  apply String.eqb_eq in Ex. subst x. exact Hx.
Defined.



End MoreExamples.
